(** * Fortune's sweep-line Voronoi engine ([voronoi.cpp]): embedding and properties

    The program is embedded shallowly.  Numbers are IEEE-754 values: a C++
    [double] is a primitive binary64 [float]; a C++ [float] is a binary64
    value that went through [to_float32] (every binary32 value is a binary64
    value, and a binary32 operation is the binary64 one followed by the
    narrowing).  Pointers to sites are indices into the input vector, the
    null pointer is [None].  [assert], [throw] and undefined behaviour are
    outcomes of the error monad [result].  Diagnostic output to [std::cerr]
    and the calls to [draw_state] have no effect on the state and are not
    modelled. *)

From Stdlib Require Import ZArith List Floats Lia.
From stdpp Require Import gmap sorting.
Import ListNotations.

(** ** Outcomes *)

Inductive failure : Type :=
| AssertionFailed      (* an [assert] whose condition is false *)
| Thrown               (* [throw -1] *)
| UndefinedBehaviour   (* null or past-the-end dereference, [back()] of an empty vector *)
| OutOfFuel.           (* the model's bound on the main loop was reached *)

Inductive result (A : Type) : Type :=
| Ok (a : A)
| Err (f : failure).
Arguments Ok {A} a.
Arguments Err {A} f.

#[global] Instance result_ret : MRet result := fun A a => Ok a.
#[global] Instance result_bind : MBind result :=
  fun A B k m => match m with Ok a => k a | Err f => Err f end.

Definition assert (b : bool) : result unit :=
  if b then Ok tt else Err AssertionFailed.

(** ** Numbers *)

(** Conversion of a [double] to [float] (round to nearest even, binary32:
    24 bits of precision, largest exponent 128), kept as a binary64 value. *)
Definition to_float32 (v : float) : float :=
  match Prim2SF v with
  | S754_finite s m e => SF2Prim (binary_round 24 128 s m e)
  | _ => v
  end.

(** Arithmetic on two [float] operands is done in binary32. *)
Definition mul32 (a b : float) : float := to_float32 (a * b)%float.
Definition add32 (a b : float) : float := to_float32 (a + b)%float.

(** [std::isinf] and [std::isnan]. *)
Definition isinf (v : float) : bool := is_infinity v.
Definition isnan (v : float) : bool := is_nan v.

(** The literal [0.0000001] (nearest binary64 value). *)
Definition epsilon : float := 0x1.ad7f29abcaf48p-24%float.

Definition sqr (v : float) : float := (v * v)%float.

(** ** Data *)

(** Modelled from the spec: the point type of [geometry.h] is not part of the
    sources; section 6 of the specification gives
    [Point = { x: float64, y: float64 }]. *)
Record Point : Type := mkPoint { x : float; y : float }.

(** Modelled from the spec: [sizeof(Point)] for two [float64] fields. *)
Definition sizeof_Point : nat := 16.

(** Modelled from the spec: [distance2d] of [geometry.h] is one of the "basic
    distance helpers" the specification leaves outside; it is taken to be the
    Euclidean distance. *)
Definition distance2d (a b : Point) : float :=
  sqrt (sqr (a.(x) - b.(x)) + sqr (a.(y) - b.(y)))%float.

(** [const Point*]: [None] is [nullptr], [Some i] is [m_points->data() + i]. *)
Abbreviation ptr := (option nat) (only parsing).

Definition ptr_eqb (a b : ptr) : bool :=
  match a, b with
  | None, None => true
  | Some i, Some j => Nat.eqb i j
  | _, _ => false
  end.

(** Address order; the null pointer is below every element of the vector. *)
Definition ptr_gtb (a b : ptr) : bool :=
  match a, b with
  | Some i, Some j => Nat.ltb j i
  | Some _, None => true
  | None, _ => false
  end.

Definition is_null (a : ptr) : bool :=
  match a with None => true | Some _ => false end.

Definition deref (points : list Point) (a : ptr) : result Point :=
  match a with
  | None => Err UndefinedBehaviour
  | Some i =>
      match nth_error points i with
      | Some p => Ok p
      | None => Err UndefinedBehaviour
      end
  end.

Record Circle : Type := mkCircle { center : Point; radius : float }.

Record Intersection : Type := mkIntersection { pt_left : ptr; pt_right : ptr }.

Record CircleEvent : Type := mkCircleEvent {
  left_int : Intersection;
  right_int : Intersection;
  circle : Circle
}.

Definition Intersection_eqb (a b : Intersection) : bool :=
  ptr_eqb a.(pt_left) b.(pt_left) && ptr_eqb a.(pt_right) b.(pt_right).

(** ** Geometry kernel *)

(** [perp] returns [float]. *)
Definition perp (pt v0 v1 : Point) : float :=
  to_float32
    ((pt.(x) - v1.(x)) * (v0.(y) - v1.(y)) - (pt.(y) - v1.(y)) * (v0.(x) - v1.(x)))%float.

Definition orderPoints (abc : ptr * ptr * ptr) : ptr * ptr * ptr :=
  let '(ptA, ptB, ptC) := abc in
  let '(ptA, ptB) := if ptr_gtb ptA ptB then (ptB, ptA) else (ptA, ptB) in
  let '(ptB, ptC) := if ptr_gtb ptB ptC then (ptC, ptB) else (ptB, ptC) in
  let '(ptA, ptB) := if ptr_gtb ptA ptB then (ptB, ptA) else (ptA, ptB) in
  (ptA, ptB, ptC).

Definition points_match (lhs rhs : ptr * ptr * ptr) : bool :=
  let '(l0, l1, l2) := lhs in
  let '(r0, r1, r2) := rhs in
  (ptr_eqb l0 r0 && ptr_eqb l1 r1 && ptr_eqb l2 r2) ||
  (ptr_eqb l0 r0 && ptr_eqb l1 r2 && ptr_eqb l2 r1) ||
  (ptr_eqb l0 r1 && ptr_eqb l1 r2 && ptr_eqb l2 r0) ||
  (ptr_eqb l0 r1 && ptr_eqb l1 r0 && ptr_eqb l2 r2) ||
  (ptr_eqb l0 r2 && ptr_eqb l1 r0 && ptr_eqb l2 r1) ||
  (ptr_eqb l0 r2 && ptr_eqb l1 r1 && ptr_eqb l2 r0).

(** [getSign(const Intersection&)], on the two dereferenced sites. *)
Definition getSign_pts (left_parab right_parab : Point) : float :=
  if (left_parab.(y) <=? right_parab.(y))%float then 1%float else (-1)%float.

Definition getSign (points : list Point) (inter : Intersection) : result float :=
  assert (negb (is_null inter.(pt_left)) && negb (is_null inter.(pt_right)));;
  left_parab ← deref points inter.(pt_left);
  right_parab ← deref points inter.(pt_right);
  mret (getSign_pts left_parab right_parab).

(** The point [q] computed by
    [getIntersection(float sweep_y, const Point& p, const Point& r, float sign)]
    before its assertions. *)
Definition getIntersection_q (sweep_y : float) (p r : Point) (sign : float) : Point :=
  let y_s := sweep_y in
  if (abs (p.(y) - sweep_y) <? epsilon)%float then
    let qx := p.(x) in
    mkPoint qx
      (0.5 * (sqr qx - 2 * qx * r.(x) + sqr r.(x) + sqr r.(y) - sqr y_s)
       / (r.(y) - y_s))%float
  else if (abs (r.(y) - sweep_y) <? epsilon)%float then
    let qx := r.(x) in
    mkPoint qx
      (0.5 * (p.(x) * p.(x) + p.(y) * p.(y) - 2 * p.(x) * qx + qx * qx - mul32 y_s y_s)
       / (p.(y) - y_s))%float
  else if (epsilon <? abs (p.(y) - r.(y)))%float then
    let term1 :=
      to_float32
        ((p.(y) * r.(x) - p.(x) * r.(y) + (p.(x) - r.(x)) * y_s) / (p.(y) - r.(y)))%float in
    let rad :=
      to_float32
        (sqrt (p.(x) * p.(x) + p.(y) * p.(y) - 2 * p.(x) * r.(x) + r.(x) * r.(x)
               - 2 * p.(y) * r.(y) + r.(y) * r.(y))
         * sqrt (p.(y) - y_s) * sqrt (r.(y) - y_s) / (p.(y) - r.(y)))%float in
    let qx := add32 term1 (mul32 sign (abs rad)) in
    mkPoint qx
      (0.5 * (p.(x) * p.(x) + p.(y) * p.(y) - 2 * p.(x) * qx + qx * qx - mul32 y_s y_s)
       / (p.(y) - y_s))%float
  else
    let qx := ((p.(x) + r.(x)) * 0.5)%float in
    mkPoint qx
      (0.5 * (sqr p.(x) + sqr p.(y) - 2 * p.(x) * qx + sqr qx - sqr y_s)
       / (p.(y) - y_s))%float.

Definition finite_point (q : Point) : bool :=
  negb (isinf q.(x)) && negb (isinf q.(y)) && negb (isnan q.(x)) && negb (isnan q.(y)).

Definition getIntersection_pts (sweep_y : float) (p r : Point) (sign : float) : result Point :=
  let q := getIntersection_q sweep_y p r sign in
  assert (negb (isinf q.(x)));;
  assert (negb (isinf q.(y)));;
  assert (negb (isnan q.(x)));;
  assert (negb (isnan q.(y)));;
  mret q.

(** [getIntersection(float sweep_y, const Intersection& inter)]. *)
Definition getIntersection (points : list Point) (sweep_y : float) (inter : Intersection)
  : result Point :=
  assert (negb (is_null inter.(pt_left)));;
  assert (negb (is_null inter.(pt_right)));;
  p ← deref points inter.(pt_left);
  r ← deref points inter.(pt_right);
  sign ← getSign points inter;
  getIntersection_pts sweep_y p r sign.

Definition solveCircle (p q r : Point) : Circle :=
  let den :=
    (p.(y) * q.(x) - p.(x) * q.(y) - (p.(y) - q.(y)) * r.(x) + (p.(x) - q.(x)) * r.(y))%float in
  let cx :=
    (0.5 * (p.(y) * sqr q.(x) + p.(y) * sqr q.(y) - (p.(y) - q.(y)) * sqr r.(x)
            - (p.(y) - q.(y)) * sqr r.(y) - (sqr p.(x) + sqr p.(y)) * q.(y)
            + (sqr p.(x) + sqr p.(y) - sqr q.(x) - sqr q.(y)) * r.(y))
     / den)%float in
  let cy :=
    (-0.5 * (p.(x) * sqr q.(x) + p.(x) * sqr q.(y) - (p.(x) - q.(x)) * sqr r.(x)
             - (p.(x) - q.(x)) * sqr r.(y) - (sqr p.(x) + sqr p.(y)) * q.(x)
             + (sqr p.(x) + sqr p.(y) - sqr q.(x) - sqr q.(y)) * r.(x))
     / den)%float in
  mkCircle (mkPoint cx cy)
    (to_float32 (sqrt (sqr (p.(x) - cx) + sqr (p.(y) - cy)))%float).

(** The key of a circle event: the ordinate of the lowest point of its circle. *)
Definition event_key (c : Circle) : float := (c.(center).(y) - c.(radius))%float.

(** ** Ordered containers

    A [std::set] is modelled by the list of its elements in iteration order.
    The searches are the ones of the red-black tree, read off a sequence that
    the comparator partitions: [lower_bound] is the first position whose
    element is not less than the key, the unique insertion looks at the
    element before the first one greater than the key.  The comparator of the
    beach line can stop the program, so comparisons return a [result]. *)

Section OrderedSet.
Context {A : Type} (comp : A -> A -> result bool).

Fixpoint lower_bound (k : A) (l : list A) : result nat :=
  match l with
  | [] => mret 0
  | e :: l' =>
      b ← comp e k;
      if (b : bool) then i ← lower_bound k l'; mret (S i) else mret 0
  end.

Fixpoint upper_bound (k : A) (l : list A) : result nat :=
  match l with
  | [] => mret 0
  | e :: l' =>
      b ← comp k e;
      if (b : bool) then mret 0 else i ← upper_bound k l'; mret (S i)
  end.

(** [find]: [None] is [end()]. *)
Definition set_find (k : A) (l : list A) : result (option nat) :=
  i ← lower_bound k l;
  match nth_error l i with
  | None => mret None
  | Some e => b ← comp k e; mret (if (b : bool) then None else Some i)
  end.

Definition insert_at (i : nat) (k : A) (l : list A) : list A :=
  firstn i l ++ k :: skipn i l.

Definition erase_at (i : nat) (l : list A) : list A :=
  firstn i l ++ skipn (S i) l.

(** [insert] / [emplace] of a [std::set]: the new sequence, the position of
    the element the returned iterator points to, and the success flag. *)
Definition set_insert (k : A) (l : list A) : result (list A * nat * bool) :=
  u ← upper_bound k l;
  match u with
  | O => mret (k :: l, 0, true)
  | S j =>
      match nth_error l j with
      | None => Err UndefinedBehaviour
      | Some e =>
          b ← comp e k;
          if (b : bool) then mret (insert_at u k l, u, true) else mret (l, j, false)
      end
  end.

(** The ordering check at the head of [processEvent]. *)
Fixpoint check_order (l : list A) : result unit :=
  match l with
  | a :: (b :: _) as l' =>
      r ← comp a b;
      if (r : bool) then check_order l' else Err Thrown
  | _ => mret tt
  end.

End OrderedSet.

(** ** Beach line comparator *)

Definition BeachCompare (points : list Point) (sweep : float) (lhs rhs : Intersection)
  : result bool :=
  let lhs_n_infinite := is_null lhs.(pt_left) in
  let lhs_p_infinite := is_null lhs.(pt_right) in
  let rhs_n_infinite := is_null rhs.(pt_left) in
  let rhs_p_infinite := is_null rhs.(pt_right) in
  if (lhs_p_infinite && rhs_n_infinite) || (lhs_p_infinite && rhs_p_infinite)
     || (lhs_n_infinite && rhs_n_infinite) then mret false
  else if lhs_n_infinite || rhs_p_infinite then mret true
  else if lhs_p_infinite || rhs_n_infinite then mret false
  else if ptr_eqb lhs.(pt_left) rhs.(pt_left) && ptr_eqb lhs.(pt_right) rhs.(pt_right)
  then mret false
  else if ptr_eqb lhs.(pt_right) rhs.(pt_left) && ptr_eqb lhs.(pt_left) rhs.(pt_right)
  then
    sl ← getSign points lhs;
    sr ← getSign points rhs;
    mret (sl <? sr)%float
  else if ptr_eqb lhs.(pt_left) lhs.(pt_right) then
    assert (negb (ptr_eqb rhs.(pt_left) rhs.(pt_right)));;
    assert (negb (lhs_n_infinite || lhs_p_infinite || rhs_n_infinite || rhs_p_infinite));;
    right ← getIntersection points sweep rhs;
    l ← deref points lhs.(pt_left);
    mret (l.(x) <? right.(x))%float
  else if ptr_eqb rhs.(pt_left) rhs.(pt_right) then
    assert (negb (ptr_eqb lhs.(pt_left) lhs.(pt_right)));;
    assert (negb (lhs_n_infinite || lhs_p_infinite || rhs_n_infinite || rhs_p_infinite));;
    left ← getIntersection points sweep lhs;
    r ← deref points rhs.(pt_left);
    mret (left.(x) <? r.(x))%float
  else
    assert (negb (lhs_n_infinite || lhs_p_infinite || rhs_n_infinite || rhs_p_infinite));;
    left ← getIntersection points sweep lhs;
    right ← getIntersection points sweep rhs;
    mret (left.(x) <? right.(x))%float.

(** ** Circle-event queue ([CircleQueue], a [std::set<CircleEvent>]) *)

(** [CircleEvent::operator<]. *)
Definition CircleEvent_lt (lhs rhs : CircleEvent) : bool :=
  (event_key lhs.(circle) <? event_key rhs.(circle))%float.

Definition CircleEvent_comp (lhs rhs : CircleEvent) : result bool :=
  mret (CircleEvent_lt lhs rhs).

Module CircleQueue.

Definition empty (m_queue : list CircleEvent) : bool :=
  match m_queue with [] => true | _ => false end.

Definition back (m_queue : list CircleEvent) : result CircleEvent :=
  match last m_queue with
  | None => Err UndefinedBehaviour
  | Some e => mret e
  end.

Definition pop_back (m_queue : list CircleEvent) : list CircleEvent :=
  removelast m_queue.

(** [m_queue.insert(evt)]. *)
Definition queue_insert (evt : CircleEvent) (m_queue : list CircleEvent) : list CircleEvent :=
  match set_insert CircleEvent_comp evt m_queue with
  | Ok (l, _, _) => l
  | Err _ => m_queue
  end.

Definition insert (points : list Point) (m_queue : list CircleEvent)
    (sweep : float) (left_int right_int : Intersection) : result (list CircleEvent) :=
  if is_null left_int.(pt_left) then mret m_queue
  else if is_null right_int.(pt_right) then mret m_queue
  else if (ptr_eqb left_int.(pt_left) right_int.(pt_left)
           && ptr_eqb left_int.(pt_right) right_int.(pt_right))
          || (ptr_eqb left_int.(pt_left) right_int.(pt_right)
              && ptr_eqb left_int.(pt_right) right_int.(pt_left))
  then mret m_queue
  else
    assert (negb (is_null left_int.(pt_left)));;
    assert (negb (is_null left_int.(pt_right)));;
    assert (negb (is_null right_int.(pt_left)));;
    assert (negb (is_null right_int.(pt_right)));;
    ptA ← deref points left_int.(pt_left);
    ptB ← deref points left_int.(pt_right);
    ptC ← deref points right_int.(pt_right);
    let evt := mkCircleEvent left_int right_int (solveCircle ptA ptB ptC) in
    if (sweep <? event_key evt.(circle))%float then mret m_queue
    else
      left_int_pt ← getIntersection points (to_float32 (event_key evt.(circle))) left_int;
      right_int_pt ← getIntersection points (to_float32 (event_key evt.(circle))) left_int;
      let d1 := distance2d left_int_pt evt.(circle).(center) in
      let d2 := distance2d right_int_pt evt.(circle).(center) in
      if (evt.(circle).(radius) <? d1)%float || (evt.(circle).(radius) <? d2)%float
      then mret m_queue
      else mret (queue_insert evt m_queue).

(** The loop of [erase], from the position [lower_bound] returned. *)
Fixpoint erase_scan (end_y : float) (l_int r_int : Intersection)
    (l : list CircleEvent) : list CircleEvent :=
  match l with
  | [] => []
  | it :: l' =>
      if (event_key it.(circle) <? end_y)%float then l
      else if Intersection_eqb l_int it.(left_int)
              && Intersection_eqb r_int it.(right_int)
      then l'
      else it :: erase_scan end_y l_int r_int l'
  end.

Definition erase (points : list Point) (m_queue : list CircleEvent)
    (left_int right_int : Intersection) : result (list CircleEvent) :=
  assert (negb (is_null left_int.(pt_right)));;
  if is_null left_int.(pt_left) || is_null right_int.(pt_right) then mret m_queue
  else
    ptA ← deref points left_int.(pt_left);
    ptB ← deref points left_int.(pt_right);
    ptC ← deref points right_int.(pt_right);
    let dummy :=
      mkCircleEvent (mkIntersection None None) (mkIntersection None None)
        (solveCircle ptA ptB ptC) in
    let end_y := to_float32 (event_key dummy.(circle)) in
    i ← lower_bound CircleEvent_comp dummy m_queue;
    mret (firstn i m_queue ++ erase_scan end_y left_int right_int (skipn i m_queue)).




End CircleQueue.

(** ** Output graph

    [Voronoi::Node] and [Voronoi::Edge] are declared in [voronoi.h], which is
    not part of the sources; the records carry the members [voronoi.cpp]
    uses.  A [Node::Ptr] is the identity of a node object (its position in
    [m_node_objs]), an [Edge::Ptr] the position of the edge in [m_edges]. *)

Module Node.
Record t : Type := mk {
  x : float;
  y : float;
  parents : gset nat;
  edges : gset nat;
  neighbors : gset nat
}.
End Node.

Module Edge.
Record t : Type := mk {
  parents : gset nat;
  nodes : nat * nat;
  neighbors : gset nat
}.
End Edge.

(** [Voronoi::Implementation]. *)
Record Implementation : Type := mkImplementation {
  sweep_y : float;
  m_beach : list Intersection;
  m_events : list CircleEvent;
  m_min_x : float;
  m_max_x : float;
  m_min_y : float;
  m_max_y : float;
  m_nodes : gmap (ptr * ptr * ptr) (option nat);
  m_node_objs : list Node.t;
  m_edges : list Edge.t;
  m_points : list Point
}.

(** The constructor: empty containers and the bounding box turned inside
    out.  It leaves [sweep_y] unset; [compute] writes it before each step
    reads it, so the [0] here is never seen. *)
Definition Implementation_init : Implementation :=
  mkImplementation 0%float [] [] infinity neg_infinity infinity neg_infinity ∅ [] [] [].

Definition set_sweep_y (v : float) (s : Implementation) : Implementation :=
  mkImplementation v s.(m_beach) s.(m_events) s.(m_min_x) s.(m_max_x) s.(m_min_y)
    s.(m_max_y) s.(m_nodes) s.(m_node_objs) s.(m_edges) s.(m_points).

Definition set_beach (b : list Intersection) (s : Implementation) : Implementation :=
  mkImplementation s.(sweep_y) b s.(m_events) s.(m_min_x) s.(m_max_x) s.(m_min_y)
    s.(m_max_y) s.(m_nodes) s.(m_node_objs) s.(m_edges) s.(m_points).

Definition set_events (q : list CircleEvent) (s : Implementation) : Implementation :=
  mkImplementation s.(sweep_y) s.(m_beach) q s.(m_min_x) s.(m_max_x) s.(m_min_y)
    s.(m_max_y) s.(m_nodes) s.(m_node_objs) s.(m_edges) s.(m_points).

Definition set_nodes (m : gmap (ptr * ptr * ptr) (option nat)) (objs : list Node.t)
    (s : Implementation) : Implementation :=
  mkImplementation s.(sweep_y) s.(m_beach) s.(m_events) s.(m_min_x) s.(m_max_x) s.(m_min_y)
    s.(m_max_y) m objs s.(m_edges) s.(m_points).

Definition set_edges (es : list Edge.t) (s : Implementation) : Implementation :=
  mkImplementation s.(sweep_y) s.(m_beach) s.(m_events) s.(m_min_x) s.(m_max_x) s.(m_min_y)
    s.(m_max_y) s.(m_nodes) s.(m_node_objs) es s.(m_points).

(** [ptA - m_points->data()]: the number of elements between the two pointers. *)
Definition ptr_diff (a : ptr) : result nat :=
  match a with
  | None => Err UndefinedBehaviour
  | Some i => mret i
  end.

(** [(ptA - m_points->data()) / sizeof(Point)]. *)
Definition parent_index (a : ptr) : result nat :=
  d ← ptr_diff a; mret (d / sizeof_Point).

(** The assertion loops over [m_nodes]. *)
Definition nodes_nonnull (m : gmap (ptr * ptr * ptr) (option nat)) : bool :=
  forallb (fun kv => match snd kv with Some _ => true | None => false end) (map_to_list m).

(** [getNode(ptA, ptB, ptC)]. *)
Definition getNode3 (ptA ptB ptC : ptr) (s : Implementation) : result (nat * Implementation) :=
  let '(ptA, ptB, ptC) := orderPoints (ptA, ptB, ptC) in
  match s.(m_nodes) !! (ptA, ptB, ptC) with
  | Some second =>
      match second with
      | None => Err AssertionFailed
      | Some node => mret (node, s)
      end
  | None =>
      a ← deref s.(m_points) ptA;
      b ← deref s.(m_points) ptB;
      c ← deref s.(m_points) ptC;
      let circle := solveCircle a b c in
      let new_node := length s.(m_node_objs) in
      iA ← parent_index ptA;
      iB ← parent_index ptB;
      iC ← parent_index ptC;
      let obj :=
        Node.mk circle.(center).(x) circle.(center).(y) ({[iA]} ∪ {[iB]} ∪ {[iC]}) ∅ ∅ in
      mret (new_node,
            set_nodes (<[(ptA, ptB, ptC) := Some new_node]> s.(m_nodes))
              (s.(m_node_objs) ++ [obj]) s)
  end.

(** [getNode(ptA, ptB)]. *)
Definition getNode2 (ptA ptB : ptr) (s : Implementation) : result (nat * Implementation) :=
  let '(ptA, ptB) := if ptr_gtb ptA ptB then (ptB, ptA) else (ptA, ptB) in
  match s.(m_nodes) !! (ptA, ptB, None) with
  | Some second =>
      match second with
      | None => Err AssertionFailed
      | Some node => mret (node, s)
      end
  | None =>
      let new_node := length s.(m_node_objs) in
      iA ← parent_index ptA;
      iB ← parent_index ptB;
      a ← deref s.(m_points) ptA;
      b ← deref s.(m_points) ptB;
      let obj :=
        Node.mk ((a.(x) + b.(x)) * 0.5)%float ((a.(y) + b.(y)) * 0.5)%float
          ({[iA]} ∪ {[iB]}) ∅ ∅ in
      mret (new_node,
            set_nodes (<[(ptA, ptB, None) := Some new_node]> s.(m_nodes))
              (s.(m_node_objs) ++ [obj]) s)
  end.

Definition node_obj (s : Implementation) (n : nat) : result Node.t :=
  match nth_error s.(m_node_objs) n with
  | Some o => mret o
  | None => Err UndefinedBehaviour
  end.

(** [addEdge(nodeA, nodeB)]: the new edge is the last element of [m_edges]. *)
Definition addEdge (nodeA nodeB : nat) (s : Implementation) : result (nat * Implementation) :=
  a ← node_obj s nodeA;
  b ← node_obj s nodeB;
  let common := Node.parents a ∩ Node.parents b in
  let out := Edge.mk common (nodeA, nodeB) ∅ in
  mret (length s.(m_edges), set_edges (s.(m_edges) ++ [out]) s).

Definition add_edge_to (n e : nat) (s : Implementation) : Implementation :=
  set_nodes s.(m_nodes)
    (alter (fun o => Node.mk (Node.x o) (Node.y o) (Node.parents o)
                       (Node.edges o ∪ {[e]}) (Node.neighbors o)) n s.(m_node_objs)) s.

Definition add_neighbor_to (n m : nat) (s : Implementation) : Implementation :=
  set_nodes s.(m_nodes)
    (alter (fun o => Node.mk (Node.x o) (Node.y o) (Node.parents o)
                       (Node.edges o) (Node.neighbors o ∪ {[m]})) n s.(m_node_objs)) s.

(** [addTriplet(center, nodeA, nodeB, nodeC)]. *)
Definition addTriplet (center nodeA nodeB nodeC : nat) (s : Implementation)
  : result Implementation :=
  '(edgeA, s) ← addEdge nodeA center s;
  '(edgeB, s) ← addEdge nodeB center s;
  '(edgeC, s) ← addEdge nodeC center s;
  let s := add_edge_to nodeA edgeA s in
  let s := add_edge_to nodeB edgeB s in
  let s := add_edge_to nodeC edgeC s in
  let s := add_edge_to center edgeA s in
  let s := add_edge_to center edgeB s in
  let s := add_edge_to center edgeC s in
  let s := add_neighbor_to nodeA center s in
  let s := add_neighbor_to nodeB center s in
  let s := add_neighbor_to nodeC center s in
  let s := add_neighbor_to center nodeA s in
  let s := add_neighbor_to center nodeB s in
  let s := add_neighbor_to center nodeC s in
  mret s.

(** ** Sweep: circle events *)

(** Reading [*it]; an iterator past the last element must not be read. *)
Definition beach_at (l : list Intersection) (i : nat) : result Intersection :=
  match nth_error l i with
  | Some e => mret e
  | None => Err UndefinedBehaviour
  end.

(** First part of [processEvent]: the ordering check, the lookup of the two
    breakpoints, the update of the queue and of the beach line. *)
Definition processEvent_beach (event : CircleEvent) (s : Implementation)
  : result Implementation :=
  let points := s.(m_points) in
  assert (ptr_eqb event.(left_int).(pt_right) event.(right_int).(pt_left));;
  assert (ptr_eqb event.(left_int).(pt_right) event.(right_int).(pt_left));;
  check_order (BeachCompare points s.(sweep_y)) s.(m_beach);;
  it ← set_find (BeachCompare points s.(sweep_y)) event.(left_int) s.(m_beach);
  match it with
  | None => Err AssertionFailed
  | Some i =>
      assert (negb (Nat.eqb i 0));;
      left_neighbor ← beach_at s.(m_beach) (i - 1);
      left_it ← beach_at s.(m_beach) i;
      assert (ptr_eqb left_it.(pt_right) event.(left_int).(pt_right));;
      assert (ptr_eqb left_it.(pt_left) event.(left_int).(pt_left));;
      right_it ← beach_at s.(m_beach) (i + 1);
      assert (ptr_eqb right_it.(pt_right) event.(right_int).(pt_right));;
      assert (ptr_eqb right_it.(pt_left) event.(right_int).(pt_left));;
      right_neighbor ← beach_at s.(m_beach) (i + 2);
      assert (ptr_eqb left_neighbor.(pt_right) event.(left_int).(pt_left));;
      assert (ptr_eqb right_neighbor.(pt_left) event.(right_int).(pt_right));;
      let ptA := event.(left_int).(pt_left) in
      let ptB := event.(left_int).(pt_right) in
      let ptC := event.(right_int).(pt_right) in
      q ← CircleQueue.erase points s.(m_events) left_neighbor event.(left_int);
      q ← CircleQueue.erase points q event.(right_int) right_neighbor;
      let beach := erase_at i (erase_at i s.(m_beach)) in
      let sweep := to_float32 (event_key event.(circle)) in
      '(beach, _, success) ←
        set_insert (BeachCompare points sweep)
          (mkIntersection event.(left_int).(pt_left) event.(right_int).(pt_right)) beach;
      assert success;;
      let it_new := mkIntersection event.(left_int).(pt_left) event.(right_int).(pt_right) in
      q ← (if negb (is_null left_neighbor.(pt_left))
               && negb (points_match
                          (left_neighbor.(pt_left), it_new.(pt_left), it_new.(pt_right))
                          (ptA, ptB, ptC))
           then CircleQueue.insert points q sweep left_neighbor it_new
           else mret q);
      q ← (if negb (is_null right_neighbor.(pt_right))
               && negb (points_match
                          (it_new.(pt_left), it_new.(pt_right), right_neighbor.(pt_right))
                          (ptA, ptB, ptC))
           then CircleQueue.insert points q sweep it_new right_neighbor
           else mret q);
      mret (set_events q (set_beach beach (set_sweep_y sweep s)))
  end.

(** Second part of [processEvent]: the vertices of the event and the edges
    between them. *)
Definition processEvent_graph (event : CircleEvent) (s : Implementation)
  : result Implementation :=
  let ptA := event.(left_int).(pt_left) in
  let ptB := event.(left_int).(pt_right) in
  let ptC := event.(right_int).(pt_right) in
  assert (nodes_nonnull s.(m_nodes));;
  '(nodeCenter, s) ← getNode3 ptA ptB ptC s;
  '(nodeAB, s) ← getNode2 ptA ptB s;
  '(nodeBC, s) ← getNode2 ptB ptC s;
  '(nodeCA, s) ← getNode2 ptA ptC s;
  assert (nodes_nonnull s.(m_nodes));;
  a ← deref s.(m_points) ptA;
  b ← deref s.(m_points) ptB;
  c ← deref s.(m_points) ptC;
  let distAB := perp event.(circle).(center) a b in
  let distBC := perp event.(circle).(center) b c in
  let distCA := perp event.(circle).(center) c a in
  if ((distAB <=? 0) && (distBC <=? 0) && (distCA <=? 0)
      || (0 <=? distAB) && (0 <=? distBC) && (0 <=? distCA))%float
  then addTriplet nodeCenter nodeAB nodeBC nodeCA s
  else if ((distBC <=? 0) && ((0 <=? distCA) && (0 <=? distAB))
           || (0 <=? distBC) && ((distCA <=? 0) && (distAB <=? 0)))%float
  then addTriplet nodeBC nodeCenter nodeCA nodeAB s
  else if ((distCA <=? 0) && ((0 <=? distAB) && (0 <=? distBC))
           || (0 <=? distCA) && ((distAB <=? 0) && (distBC <=? 0)))%float
  then addTriplet nodeCA nodeCenter nodeAB nodeBC s
  else addTriplet nodeAB nodeCenter nodeBC nodeCA s.

Definition processEvent (event : CircleEvent) (s : Implementation) : result Implementation :=
  s ← processEvent_beach event s;
  processEvent_graph event s.

(** ** Sweep: site events *)

(** [processPoint(pt)], with [&pt = m_points->data() + i]. *)
Definition processPoint (i : nat) (s : Implementation) : result Implementation :=
  let points := s.(m_points) in
  pt ← deref points (Some i);
  let sweep := to_float32 pt.(y) in
  let s := set_sweep_y sweep s in
  let dummy := mkIntersection (Some i) (Some i) in
  match s.(m_beach) with
  | [] =>
      '(beach, _, _) ← set_insert (BeachCompare points sweep) (mkIntersection None (Some i)) [];
      '(beach, _, _) ← set_insert (BeachCompare points sweep) (mkIntersection (Some i) None) beach;
      mret (set_beach beach s)
  | _ :: _ =>
      i2 ← lower_bound (BeachCompare points sweep) dummy s.(m_beach);
      match i2 with
      | O => Err UndefinedBehaviour
      | S i1 =>
          it1 ← beach_at s.(m_beach) i1;
          let ptB := it1.(pt_right) in
          let ptD := Some i in
          '(beach, _, success) ←
            set_insert (BeachCompare points sweep) (mkIntersection ptB ptD) s.(m_beach);
          assert success;;
          q ← (if negb (is_null it1.(pt_left))
               then CircleQueue.insert points s.(m_events) sweep it1 (mkIntersection ptB ptD)
               else mret s.(m_events));
          '(beach, _, success) ←
            set_insert (BeachCompare points sweep) (mkIntersection ptD ptB) beach;
          assert success;;
          it2 ← beach_at s.(m_beach) i2;
          q ← (if negb (is_null it2.(pt_right))
               then CircleQueue.insert points q sweep (mkIntersection ptD ptB) it2
               else mret q);
          q ← (if negb (is_null it1.(pt_left)) && negb (is_null it2.(pt_right))
               then CircleQueue.erase points q it1 it2
               else mret q);
          mret (set_events q (set_beach beach s))
      end
  end.

(** ** Driver *)

(** [std::min<double>] and [std::max<double>]. *)
Definition fmin (a b : float) : float := if (b <? a)%float then b else a.
Definition fmax (a b : float) : float := if (a <? b)%float then b else a.

Definition bounding_box (points : list Point) (s : Implementation) : Implementation :=
  fold_left
    (fun s pt =>
       mkImplementation s.(sweep_y) s.(m_beach) s.(m_events)
         (fmin pt.(x) s.(m_min_x)) (fmax pt.(x) s.(m_max_x))
         (fmin pt.(y) s.(m_min_y)) (fmax pt.(y) s.(m_max_y))
         s.(m_nodes) s.(m_node_objs) s.(m_edges) s.(m_points))
    points s.

Definition point_y (points : list Point) (i : nat) : float :=
  match nth_error points i with Some p => p.(y) | None => nan end.

(** The comparator given to [std::sort]: decreasing ordinate. *)
Definition site_before (points : list Point) (ii jj : nat) : bool :=
  (point_y points jj <? point_y points ii)%float.

Fixpoint sort_insert (points : list Point) (i : nat) (l : list nat) : list nat :=
  match l with
  | [] => [i]
  | j :: l' => if site_before points i j then i :: j :: l' else j :: sort_insert points i l'
  end.

(** [std::sort] of the indices.  The standard leaves the relative order of
    sites with the same ordinate open; the model keeps those in input order. *)
Definition sort_sites (points : list Point) : list nat :=
  fold_right (fun i acc => sort_insert points i acc) [] (rev (seq 0 (length points))).

(** What an iteration of the main loop processes. *)
Inductive next_event : Type :=
| SiteEvent (i : nat)
| CircleEv (evt : CircleEvent).

Definition vector_at {A} (v : list A) (i : nat) : result A :=
  match nth_error v i with
  | Some a => mret a
  | None => Err UndefinedBehaviour
  end.

(** The three-way choice of the loop body. *)
Definition choose_next (points : list Point) (ordered : list nat) (ii : nat)
    (s : Implementation) : result next_event :=
  if CircleQueue.empty s.(m_events) then
    i ← vector_at ordered ii; mret (SiteEvent i)
  else if Nat.eqb ii (length ordered) then
    evt ← CircleQueue.back s.(m_events); mret (CircleEv evt)
  else
    evt ← CircleQueue.back s.(m_events);
    i ← vector_at ordered ii;
    pt ← vector_at points i;
    if (event_key evt.(circle) <? pt.(y))%float then mret (SiteEvent i)
    else mret (CircleEv evt).

(** One iteration of the [while] loop: the new cursor and state. *)
Definition compute_step (points : list Point) (ordered : list nat) (ii : nat)
    (s : Implementation) : result (nat * Implementation) :=
  next ← choose_next points ordered ii s;
  '(ii, s) ←
    match next with
    | SiteEvent i => s ← processPoint i s; mret (S ii, s)
    | CircleEv evt =>
        s ← processEvent evt (set_events (CircleQueue.pop_back s.(m_events)) s);
        mret (ii, s)
    end;
  assert (nodes_nonnull s.(m_nodes));;
  mret (ii, s).

Fixpoint compute_loop (fuel : nat) (points : list Point) (ordered : list nat) (ii : nat)
    (s : Implementation) : result Implementation :=
  if negb (CircleQueue.empty s.(m_events)) || Nat.ltb ii (length ordered) then
    match fuel with
    | O => Err OutOfFuel
    | S fuel =>
        '(ii, s) ← compute_step points ordered ii s;
        compute_loop fuel points ordered ii s
    end
  else mret s.

(** [Voronoi::Implementation::compute], on a freshly constructed object. *)
Definition compute (fuel : nat) (points : list Point) : result Implementation :=
  let s := Implementation_init in
  let s :=
    mkImplementation s.(sweep_y) s.(m_beach) s.(m_events) s.(m_min_x) s.(m_max_x)
      s.(m_min_y) s.(m_max_y) s.(m_nodes) s.(m_node_objs) s.(m_edges) points in
  let s := bounding_box points s in
  let ordered := sort_sites points in
  back ← match last ordered with
         | Some i => mret i
         | None => Err UndefinedBehaviour
         end;
  last_y ← vector_at points back;
  compute_loop fuel points ordered 0 s.

(** The state after the initialisation of [compute] and [n] iterations of its
    loop (a prefix of the run, with the cursor into the sorted sites). *)
Fixpoint compute_steps (n : nat) (points : list Point) : result (nat * Implementation) :=
  match n with
  | O =>
      let s := Implementation_init in
      let s :=
        mkImplementation s.(sweep_y) s.(m_beach) s.(m_events) s.(m_min_x) s.(m_max_x)
          s.(m_min_y) s.(m_max_y) s.(m_nodes) s.(m_node_objs) s.(m_edges) points in
      mret (0, bounding_box points s)
  | S n =>
      '(ii, s) ← compute_steps n points;
      compute_step points (sort_sites points) ii s
  end.

(** ** Invariants named by the claims *)

(** Adjacent entries of the beach line share a site. *)
Fixpoint beach_adjacent (l : list Intersection) : bool :=
  match l with
  | a :: (b :: _) as l' => ptr_eqb a.(pt_right) b.(pt_left) && beach_adjacent l'
  | _ => true
  end.

(** Some edge of the list joins the two vertices, in either orientation. *)
Definition connected (es : list Edge.t) (n m : nat) : Prop :=
  In (n, m) (map Edge.nodes es) \/ In (m, n) (map Edge.nodes es).

(** The side of the triangle whose [perp] sign is strictly opposite to the
    other two. *)
Inductive side : Type := SideAB | SideBC | SideCA.

Definition opposite_sign (d e f : float) : bool :=
  ((d <? 0) && (0 <? e) && (0 <? f) || (0 <? d) && (e <? 0) && (f <? 0))%float.

Definition odd_one_out (distAB distBC distCA : float) : option side :=
  if opposite_sign distBC distCA distAB then Some SideBC
  else if opposite_sign distCA distAB distBC then Some SideCA
  else if opposite_sign distAB distBC distCA then Some SideAB
  else None.

(** The six orders in which a triple can be passed. *)
Definition perms3 (t : ptr * ptr * ptr) : list (ptr * ptr * ptr) :=
  let '(a, b, c) := t in
  [(a, b, c); (a, c, b); (b, a, c); (b, c, a); (c, a, b); (c, b, a)].

(** Every key of [m_nodes] has a node. *)
Definition nodes_ok (s : Implementation) : Prop :=
  forall k v, s.(m_nodes) !! k = Some v -> v <> None.

(** Every node [m_nodes] refers to is an object of the store. *)
Definition nodes_in_store (s : Implementation) : bool :=
  forallb (fun kv => match snd kv with
                     | Some n => Nat.ltb n (length s.(m_node_objs))
                     | None => true
                     end) (map_to_list s.(m_nodes)).

Definition valid_ptr (points : list Point) (a : ptr) : Prop :=
  match a with Some i => i < length points | None => False end.

(** The key of a pair vertex. *)
Definition pair_key (a b : ptr) : ptr * ptr * ptr :=
  if ptr_gtb a b then (b, a, None) else (a, b, None).

(** Every node [m_nodes] refers to is an object of the store ([Prop] form). *)
Definition store_ok (s : Implementation) : Prop :=
  forall k n, s.(m_nodes) !! k = Some (Some n) -> n < length s.(m_node_objs).

(** The queue as a [std::set] keeps: strictly increasing keys. *)
Definition key_lt (a b : CircleEvent) : Prop := CircleEvent_lt a b = true.
Definition queue_sorted (q : list CircleEvent) : Prop := StronglySorted key_lt q.

(** A pointer that is null or points into the input vector. *)
Definition wf_ptr (points : list Point) (a : ptr) : Prop :=
  match a with Some i => i < length points | None => True end.

Definition wf_int (points : list Point) (b : Intersection) : Prop :=
  wf_ptr points b.(pt_left) /\ wf_ptr points b.(pt_right).

(** An outcome the language defines: a result, a failed assertion or the
    [throw]. *)
Definition defined {A} (r : result A) : Prop :=
  match r with
  | Ok _ | Err AssertionFailed | Err Thrown => True
  | Err UndefinedBehaviour | Err OutOfFuel => False
  end.

(** ** Inputs of the examples *)

(** A freshly constructed object on which [compute] has stored its input. *)
Definition Implementation_for (points : list Point) : Implementation :=
  mkImplementation 0 [] [] infinity neg_infinity infinity neg_infinity ∅ [] [] points.

(** Three sites on the circle of centre [(0,0)] and radius [5], all above the
    centre: the circumcentre is outside their triangle. *)
Definition sites_obtuse : list Point :=
  [mkPoint (-4) 3; mkPoint 0 5; mkPoint 3 4].

(** The circle event of [sites_obtuse]: sites 0, 1, 2 as A, B, C. *)
Definition event_obtuse : CircleEvent :=
  mkCircleEvent (mkIntersection (Some 0) (Some 1)) (mkIntersection (Some 1) (Some 2))
    (solveCircle (mkPoint (-4) 3) (mkPoint 0 5) (mkPoint 3 4)).

(** [sites_obtuse] and a fourth site on the ordinate [-5] of the lowest point
    of their circle. *)
Definition sites_tie : list Point :=
  [mkPoint (-4) 3; mkPoint 0 5; mkPoint 3 4; mkPoint 100 (-5)].

(** Sites A, B, C on the same circle for which the breakpoint (A,B) reaches
    the centre at the sweep position [-5] and the breakpoint (B,C) does not. *)
Definition sites_diverging : list Point :=
  [mkPoint (-3) (-4); mkPoint 3 (-4); mkPoint 3 4].

(** Two triples of sites whose circles have the same lowest ordinate [-5]. *)
Definition sites_equal_key : list Point :=
  [mkPoint (-3) 4; mkPoint 3 4; mkPoint 3 (-4);
   mkPoint 7 4; mkPoint 13 4; mkPoint 13 (-4)].

(** Three sites; the ordinate of the last one, [2 + 7 * 2^-26], is not a
    binary32 number. *)
Definition sites_narrowing : list Point :=
  [mkPoint 0 4; mkPoint 1 3; mkPoint 0x1.fffcp+1 0x1.000000ep+1].

(** Six sites with integer coordinates.  The circles through the sites
    5, 4, 2 and through the sites 0, 4, 5 have the centres [(11.5, 4.5)] and
    [(-1.5, 4.5)] and the same radius, hence the same key. *)
Definition sites_lost_arc : list Point :=
  [mkPoint (-2) 11; mkPoint 6 2; mkPoint 6 8; mkPoint (-7) 0; mkPoint 5 5; mkPoint 5 4].

(** The state [compute] ends in on [sites_obtuse], after the three sites
    and the circle event. *)
Definition state_after_obtuse : Implementation :=
  match compute 4 sites_obtuse with
  | Ok s => s
  | Err _ => Implementation_for sites_obtuse
  end.

(** ** Further definitions *)

(** [struct Boundary]. *)
Record Boundary : Type := mkBoundary {
  start_pt_left : ptr;
  start_pt_right : ptr;
  circle_pt : ptr
}.

(** [Boundary::operator==]. *)
Definition Boundary_eqb (lhs rhs : Boundary) : bool :=
  (ptr_eqb lhs.(start_pt_left) rhs.(start_pt_left)
   && ptr_eqb lhs.(start_pt_right) rhs.(start_pt_right))
  || (ptr_eqb lhs.(start_pt_left) rhs.(start_pt_right)
      && ptr_eqb lhs.(start_pt_right) rhs.(start_pt_left)).

(** [Boundary::operator<]. *)
Definition Boundary_lt (points : list Point) (lhs rhs : Boundary) : result bool :=
  ll ← deref points lhs.(start_pt_left);
  lr ← deref points lhs.(start_pt_right);
  rl ← deref points rhs.(start_pt_left);
  rr ← deref points rhs.(start_pt_right);
  mret (fmin ll.(y) lr.(y) <? fmin rl.(y) rr.(y))%float.

(** Three sites whose circle has the lowest ordinate [-0.7336257298...],
    which is below its binary32 rounding. *)
Definition sites_rounding : list Point :=
  [mkPoint 0 0; mkPoint 1 3; mkPoint 3 0].

(** An entry of the beach line between two arcs. *)
Definition is_inner (b : Intersection) : bool :=
  negb (is_null b.(pt_left)) && negb (is_null b.(pt_right)).

(** Entries between two arcs, closed by the entry of the rightmost arc. *)
Fixpoint beach_tail (l : list Intersection) : bool :=
  match l with
  | [] => false
  | b :: l' =>
      match l' with
      | [] => negb (is_null b.(pt_left)) && is_null b.(pt_right)
      | _ :: _ => is_inner b && beach_tail l'
      end
  end.

(** The beach line is empty, or runs from the entry of the leftmost arc (no
    left site) to the entry of the rightmost arc (no right site), with two
    sites in every entry between. *)
Definition beach_ends (l : list Intersection) : bool :=
  match l with
  | [] => true
  | b :: l' => is_null b.(pt_left) && negb (is_null b.(pt_right)) && beach_tail l'
  end.

(** The four pointers of an event are sites of the input. *)
Definition event_sites (points : list Point) (e : CircleEvent) : Prop :=
  valid_ptr points e.(left_int).(pt_left) /\ valid_ptr points e.(left_int).(pt_right)
  /\ valid_ptr points e.(right_int).(pt_left) /\ valid_ptr points e.(right_int).(pt_right).

(** What every state of a run on [points] satisfies. *)
Definition state_ok (points : list Point) (s : Implementation) : Prop :=
  s.(m_points) = points
  /\ beach_ends s.(m_beach) = true
  /\ Forall (wf_int points) s.(m_beach)
  /\ Forall (event_sites points) s.(m_events)
  /\ queue_sorted s.(m_events)
  /\ store_ok s.

(** [ensures r Q]: the outcome [r] is a result that satisfies [Q], a failed
    assertion or the [throw]; it is not undefined behaviour. *)
Definition ensures {A} (r : result A) (Q : A -> Prop) : Prop :=
  match r with
  | Ok a => Q a
  | Err AssertionFailed | Err Thrown => True
  | Err UndefinedBehaviour | Err OutOfFuel => False
  end.

(** The part of the state the graph construction leaves alone. *)
Definition same_sweep (s s1 : Implementation) : Prop :=
  s1.(sweep_y) = s.(sweep_y) /\ s1.(m_beach) = s.(m_beach)
  /\ s1.(m_events) = s.(m_events) /\ s1.(m_points) = s.(m_points).


(** The state of the run on [sites_obtuse] after its three sites, with the
    circle event of the three still in the queue. *)
Definition state_obtuse_sites : Implementation :=
  match compute_steps 3 sites_obtuse with
  | Ok (_, s) => s
  | Err _ => Implementation_for sites_obtuse
  end.

(** The graph under construction and the bounding box, which the beach line
    and the queue never touch. *)
Definition same_graph (s s1 : Implementation) : Prop :=
  s1.(m_nodes) = s.(m_nodes) /\ s1.(m_node_objs) = s.(m_node_objs)
  /\ s1.(m_edges) = s.(m_edges).

Definition same_box (s s1 : Implementation) : Prop :=
  s1.(m_min_x) = s.(m_min_x) /\ s1.(m_max_x) = s.(m_max_x)
  /\ s1.(m_min_y) = s.(m_min_y) /\ s1.(m_max_y) = s.(m_max_y).

(** The members of the node [n] of the store (empty sets for a position
    outside the store). *)
Definition node_edges (s : Implementation) (n : nat) : gset nat :=
  match nth_error s.(m_node_objs) n with
  | Some o => Node.edges o
  | None => ∅
  end.

Definition node_neighbors (s : Implementation) (n : nat) : gset nat :=
  match nth_error s.(m_node_objs) n with
  | Some o => Node.neighbors o
  | None => ∅
  end.

Definition node_parents (s : Implementation) (n : nat) : gset nat :=
  match nth_error s.(m_node_objs) n with
  | Some o => Node.parents o
  | None => ∅
  end.

(** The edge [e] of [es] has the ends [n] and [m], in either order. *)
Definition edge_joins (es : list Edge.t) (e n m : nat) : Prop :=
  exists edge,
    nth_error es e = Some edge
    /\ (Edge.nodes edge = (n, m) \/ Edge.nodes edge = (m, n)).

(** Consistency of the graph under construction: the ends of every edge are
    nodes of the store; a node lists exactly the edges it is an end of; its
    neighbours are exactly the other ends of those edges; the parents of an
    edge are the common parents of its ends; no edge has neighbours yet. *)
Definition graph_ok (s : Implementation) : Prop :=
  (forall e n m, edge_joins s.(m_edges) e n m ->
     n < length s.(m_node_objs) /\ m < length s.(m_node_objs))
  /\ (forall n e, e ∈ node_edges s n <-> exists m, edge_joins s.(m_edges) e n m)
  /\ (forall n m, m ∈ node_neighbors s n <-> exists e, edge_joins s.(m_edges) e n m)
  /\ (forall e edge, nth_error s.(m_edges) e = Some edge ->
        Edge.parents edge
        = node_parents s (Edge.nodes edge).1 ∩ node_parents s (Edge.nodes edge).2
        /\ Edge.neighbors edge = ∅).

(** ** The constructor [Voronoi::Voronoi] *)

(** The members the constructor fills: the node pointers copied out of the
    map of [Implementation], the node objects they point to, and the edge
    objects, whose neighbours the constructor sets. *)
Record Voronoi : Type := mkVoronoi {
  V_nodes : list nat;
  V_node_objs : list Node.t;
  V_edges : list Edge.t
}.

(** The first loop: every entry of the map is asserted to be non-null and
    pushed.  The iteration order of a [std::unordered_map] is unspecified;
    the model takes the order of [map_to_list]. *)
Fixpoint collect_nodes (l : list ((ptr * ptr * ptr) * option nat)) : result (list nat) :=
  match l with
  | [] => mret []
  | (_, second) :: l' =>
      assert (match second with Some _ => true | None => false end);;
      match second with
      | Some n => rest ← collect_nodes l'; mret (n :: rest)
      | None => Err UndefinedBehaviour
      end
  end.

(** The body of the second loop for the edge at position [e]: the edges of
    its two ends, except the edge itself, are inserted into its
    neighbours. *)
Definition edge_with_neighbors (impl : Implementation) (e : nat) (edge : Edge.t)
  : result Edge.t :=
  n0 ← node_obj impl (Edge.nodes edge).1;
  n1 ← node_obj impl (Edge.nodes edge).2;
  mret (Edge.mk (Edge.parents edge) (Edge.nodes edge)
          (Edge.neighbors edge ∪ (Node.edges n0 ∖ {[e]}) ∪ (Node.edges n1 ∖ {[e]}))).

Fixpoint fill_edge_neighbors (impl : Implementation) (e : nat) (es : list Edge.t)
  : result (list Edge.t) :=
  match es with
  | [] => mret []
  | edge :: es' =>
      edge' ← edge_with_neighbors impl e edge;
      rest ← fill_edge_neighbors impl (S e) es';
      mret (edge' :: rest)
  end.

Definition Voronoi_new (fuel : nat) (points : list Point) : result Voronoi :=
  impl ← compute fuel points;
  nodes ← collect_nodes (map_to_list impl.(m_nodes));
  edges ← fill_edge_neighbors impl 0 impl.(m_edges);
  mret (mkVoronoi nodes impl.(m_node_objs) edges).

(** Two edges have an end in common. *)
Definition shares_end (a b : Edge.t) : Prop :=
  (Edge.nodes a).1 = (Edge.nodes b).1 \/ (Edge.nodes a).1 = (Edge.nodes b).2
  \/ (Edge.nodes a).2 = (Edge.nodes b).1 \/ (Edge.nodes a).2 = (Edge.nodes b).2.

(** The diagram of the run on [sites_obtuse]. *)
Definition diagram_obtuse : Voronoi :=
  match Voronoi_new 4 sites_obtuse with
  | Ok v => v
  | Err _ => mkVoronoi [] [] []
  end.

(** The site lies inside the bounding box of the state (no coordinate is
    strictly outside). *)
Definition in_box (s : Implementation) (p : Point) : Prop :=
  (p.(x) <? s.(m_min_x))%float = false /\ (s.(m_max_x) <? p.(x))%float = false
  /\ (p.(y) <? s.(m_min_y))%float = false /\ (s.(m_max_y) <? p.(y))%float = false.

(** No coordinate of the site is a NaN. *)
Definition no_nan (p : Point) : Prop :=
  isnan p.(x) = false /\ isnan p.(y) = false.

(** The map of interned nodes and the store correspond one to one: every key
    has a node of the store, different keys have different nodes, and every
    node of the store has a key. *)
Definition nodes_bijective (s : Implementation) : Prop :=
  (forall k v, s.(m_nodes) !! k = Some v ->
     exists n, v = Some n /\ n < length s.(m_node_objs))
  /\ (forall k k' n, s.(m_nodes) !! k = Some (Some n) ->
        s.(m_nodes) !! k' = Some (Some n) -> k = k')
  /\ (forall n, n < length s.(m_node_objs) ->
        exists k, s.(m_nodes) !! k = Some (Some n)).


(** The same state when the loop has taken the circle event off the queue. *)
Definition state_obtuse_popped : Implementation :=
  set_events (CircleQueue.pop_back state_obtuse_sites.(m_events)) state_obtuse_sites.

(** The intersection names at least one site: it is not the value of the
    default constructor [Intersection()]. *)
Definition has_site (a : Intersection) : bool :=
  negb (is_null a.(pt_left) && is_null a.(pt_right)).

(** * Properties *)

(** ** Comparisons of binary64 numbers *)

Lemma SFcompare_antisym (a b : spec_float) :
  SFcompare b a = option_map CompOpp (SFcompare a b).
Proof.
  destruct a as [sa|sa| |sa ma ea], b as [sb|sb| |sb mb eb]; simpl;
    try reflexivity;
    try (destruct sa; reflexivity); try (destruct sb; reflexivity);
    try (destruct sa, sb; reflexivity).
  destruct sa, sb; simpl; try reflexivity; f_equal;
    rewrite (Z.compare_antisym ea eb);
    destruct (ea ?= eb)%Z; simpl; try reflexivity;
    try (change (Pos.compare mb ma = CompOpp (Pos.compare ma mb));
         apply Pos.compare_antisym);
    change (CompOpp (Pos.compare mb ma) = CompOpp (CompOpp (Pos.compare ma mb)));
    f_equal; apply Pos.compare_antisym.
Qed.

Lemma ltb_asym (a b : float) : (a <? b)%float = true -> (b <? a)%float = false.
Proof.
  rewrite !ltb_spec. unfold SFltb. rewrite (SFcompare_antisym (Prim2SF a) (Prim2SF b)).
  destruct (SFcompare (Prim2SF a) (Prim2SF b)) as [[]|]; simpl; congruence.
Qed.

Lemma ltb_irrefl (a : float) : (a <? a)%float = false.
Proof.
  destruct (a <? a)%float eqn:E; [|reflexivity].
  pose proof (ltb_asym _ _ E). congruence.
Qed.

Lemma ltb_leb (a b : float) : (a <? b)%float = true -> (a <=? b)%float = true.
Proof.
  rewrite ltb_spec, leb_spec. unfold SFltb, SFleb.
  destruct (SFcompare (Prim2SF a) (Prim2SF b)) as [[]|]; simpl; congruence.
Qed.

Lemma ltb_not_leb (a b : float) : (a <? b)%float = true -> (b <=? a)%float = false.
Proof.
  rewrite ltb_spec, leb_spec. unfold SFltb, SFleb.
  rewrite (SFcompare_antisym (Prim2SF a) (Prim2SF b)).
  destruct (SFcompare (Prim2SF a) (Prim2SF b)) as [[]|]; simpl; congruence.
Qed.

Lemma eqb_not_ltb (a b : float) : (a =? b)%float = true -> (b <? a)%float = false.
Proof.
  rewrite FloatAxioms.eqb_spec, ltb_spec. unfold SFeqb, SFltb.
  rewrite (SFcompare_antisym (Prim2SF a) (Prim2SF b)).
  destruct (SFcompare (Prim2SF a) (Prim2SF b)) as [[]|]; simpl; congruence.
Qed.

Lemma SFltb_trans (a b c : spec_float) :
  SFltb a b = true -> SFltb b c = true -> SFltb a c = true.
Proof.
  unfold SFltb.
  destruct a as [sa|sa| |sa ma ea], b as [sb|sb| |sb mb eb], c as [sc|sc| |sc mc ec];
    simpl; try discriminate; try reflexivity;
    repeat match goal with s : bool |- _ => destruct s end;
    simpl; try discriminate; try reflexivity.
  all: change (PosDef.Pos.compare_cont Eq ?p ?q) with (Pos.compare p q).
  all: destruct (Z.compare_spec ea eb), (Z.compare_spec eb ec), (Z.compare_spec ea ec);
    try discriminate; try reflexivity; try lia; subst.
  all: destruct (Pos.compare_spec ma mb), (Pos.compare_spec mb mc), (Pos.compare_spec ma mc);
    simpl; try discriminate; try reflexivity; try lia.
Qed.

Lemma ltb_trans (a b c : float) :
  (a <? b)%float = true -> (b <? c)%float = true -> (a <? c)%float = true.
Proof. rewrite !ltb_spec. apply SFltb_trans. Qed.

(** ** The error monad *)

Lemma bind_Ok {A B} (m : result A) (k : A -> result B) (b : B) :
  m ≫= k = Ok b -> exists a, m = Ok a /\ k a = Ok b.
Proof. destruct m as [a|f]; simpl; [eauto|discriminate]. Qed.

Lemma assert_Ok (c : bool) (u : unit) : assert c = Ok u -> c = true.
Proof. destruct c; [reflexivity|discriminate]. Qed.

Lemma ptr_eqb_eq (a b : ptr) : ptr_eqb a b = true <-> a = b.
Proof.
  destruct a as [i|], b as [j|]; simpl; split; intros H;
    try discriminate; try reflexivity.
  - apply Nat.eqb_eq in H. congruence.
  - inversion H. apply Nat.eqb_refl.
Qed.

(** ** Parabola intersection at equal height (C8) *)

(** C8, as the code has it: for two sites [p] and [r] with
    [|p.y - r.y| < epsilon], neither of them within [epsilon] of the sweep
    line, [getIntersection] computes [q.x = (p.x + r.x) * 0.5] and [q.y] from
    the parabola of [p]; it returns that point when both coordinates are
    finite, and is stopped by its [isinf]/[isnan] assertions otherwise. *)
Theorem getIntersection_equal_height (sweep : float) (p r : Point) (sign : float) :
  (abs (p.(y) - r.(y)) <? epsilon)%float = true ->
  (abs (p.(y) - sweep) <? epsilon)%float = false ->
  (abs (r.(y) - sweep) <? epsilon)%float = false ->
  let qx := ((p.(x) + r.(x)) * 0.5)%float in
  let q :=
    mkPoint qx
      (0.5 * (sqr p.(x) + sqr p.(y) - 2 * p.(x) * qx + sqr qx - sqr sweep)
       / (p.(y) - sweep))%float in
  getIntersection_pts sweep p r sign
  = if finite_point q then Ok q else Err AssertionFailed.
Proof.
  intros Heq Hp Hr qx q.
  unfold getIntersection_pts, getIntersection_q.
  rewrite Hp, Hr, (ltb_asym _ _ Heq).
  fold qx. fold q. unfold finite_point.
  destruct (isinf q.(x)), (isinf q.(y)), (isnan q.(x)), (isnan q.(y)); reflexivity.
Qed.

(** The equal-height branch on the sites [(-3,-4)] and [(3,-4)] with the
    sweep line at [-5]: the midpoint abscissa [0]. *)
Lemma getIntersection_equal_height_witness :
  getIntersection_pts (-5) (mkPoint (-3) (-4)) (mkPoint 3 (-4)) 1 = Ok (mkPoint 0 0).
Proof.
  exact (getIntersection_equal_height (-5) (mkPoint (-3) (-4)) (mkPoint 3 (-4)) 1
           eq_refl eq_refl eq_refl).
Defined.

(** C8 as stated fails where the sum of the abscissas overflows: the two
    sites are at the same height, away from the sweep line, and no point is
    returned. *)
Lemma getIntersection_equal_height_overflow :
  let p := mkPoint 0x1p+1023 0 in
  let r := mkPoint 0x1p+1023 0 in
  let sweep := (-1)%float in
  (abs (p.(y) - r.(y)) <? epsilon)%float = true
  /\ (abs (p.(y) - sweep) <? epsilon)%float = false
  /\ (abs (r.(y) - sweep) <? epsilon)%float = false
  /\ getIntersection_pts sweep p r 1 = Err AssertionFailed.
Proof. repeat split; vm_compute; reflexivity. Qed.

(** ** Vertex interning (C10, C2) *)

Lemma ptr_gtb_cases (a b : ptr) :
  (ptr_gtb a b = true /\ ptr_gtb b a = false /\ a <> b)
  \/ (ptr_gtb a b = false /\ ptr_gtb b a = true /\ a <> b)
  \/ (ptr_gtb a b = false /\ ptr_gtb b a = false /\ a = b).
Proof.
  destruct a as [i|], b as [j|]; simpl; try (right; right; repeat split; reflexivity).
  - destruct (Nat.ltb_spec j i), (Nat.ltb_spec i j); try lia.
    + left. repeat split. intros E. inversion E. lia.
    + right. left. repeat split. intros E. inversion E. lia.
    + right. right. repeat split. f_equal. lia.
  - left. repeat split. discriminate.
  - right. left. repeat split. discriminate.
Qed.

Lemma ptr_gtb_trans (a b c : ptr) :
  ptr_gtb a b = true -> ptr_gtb b c = true -> ptr_gtb a c = true.
Proof.
  destruct a as [i|], b as [j|], c as [k|]; simpl; try discriminate; try reflexivity.
  intros H1 H2. apply Nat.ltb_lt in H1, H2. apply Nat.ltb_lt. lia.
Qed.

(** [orderPoints] sorts: the result does not depend on the order of the
    arguments. *)
Lemma orderPoints_perm (t t' : ptr * ptr * ptr) :
  In t' (perms3 t) -> orderPoints t' = orderPoints t.
Proof.
  destruct t as [[a b] c]. simpl.
  assert (Hab := ptr_gtb_cases a b).
  assert (Hbc := ptr_gtb_cases b c).
  assert (Hac := ptr_gtb_cases a c).
  assert (T := ptr_gtb_trans).
  intros [<-|[<-|[<-|[<-|[<-|[<-|[]]]]]]]; unfold orderPoints;
    destruct Hab as [(E1 & E1' & N1)|[(E1 & E1' & N1)|(E1 & E1' & N1)]];
    destruct Hbc as [(E2 & E2' & N2)|[(E2 & E2' & N2)|(E2 & E2' & N2)]];
    destruct Hac as [(E3 & E3' & N3)|[(E3 & E3' & N3)|(E3 & E3' & N3)]];
    subst;
    repeat match goal with
      | H : ?u = ?v |- context [?u] => rewrite H
      end;
    try reflexivity;
    try congruence;
    try (pose proof (T _ _ _ E1 E2); congruence);
    try (pose proof (T _ _ _ E2' E1'); congruence);
    try (pose proof (T _ _ _ E1' E3); congruence);
    try (pose proof (T _ _ _ E3' E1); congruence);
    try (pose proof (T _ _ _ E3 E2'); congruence);
    try (pose proof (T _ _ _ E2 E3'); congruence).
Qed.

Lemma deref_valid (points : list Point) (a : ptr) :
  valid_ptr points a -> exists p, deref points a = Ok p.
Proof.
  destruct a as [i|]; simpl; [|tauto].
  intros H. destruct (nth_error points i) eqn:E; [eauto|].
  apply nth_error_None in E. lia.
Qed.

Lemma parent_index_valid (points : list Point) (a : ptr) :
  valid_ptr points a -> exists i, a = Some i /\ parent_index a = Ok (i / sizeof_Point).
Proof. destruct a as [i|]; simpl; [eauto|tauto]. Qed.

Lemma orderPoints_valid (points : list Point) (a b c a' b' c' : ptr) :
  orderPoints (a, b, c) = (a', b', c') ->
  valid_ptr points a -> valid_ptr points b -> valid_ptr points c ->
  valid_ptr points a' /\ valid_ptr points b' /\ valid_ptr points c'.
Proof.
  unfold orderPoints.
  repeat match goal with
    | |- context [if ?t then _ else _] => destruct t; cbn
    end;
    intros E; inversion E; subst; tauto.
Qed.

Lemma nodes_ok_insert (s : Implementation) (k : ptr * ptr * ptr) (n : nat)
    (objs : list Node.t) :
  nodes_ok s -> nodes_ok (set_nodes (<[k := Some n]> s.(m_nodes)) objs s).
Proof.
  intros H k' v. simpl. destruct (decide (k = k')) as [->|Hne].
  - rewrite lookup_insert_eq. congruence.
  - rewrite lookup_insert_ne by assumption. apply H.
Qed.

(** A call for a key that has a node returns it and leaves the state alone. *)
Lemma getNode3_hit (a b c : ptr) (s : Implementation) (n : nat) :
  s.(m_nodes) !! orderPoints (a, b, c) = Some (Some n) ->
  getNode3 a b c s = Ok (n, s).
Proof.
  unfold getNode3. destruct (orderPoints (a, b, c)) as [[a' b'] c'].
  intros ->. reflexivity.
Qed.

(** A call on valid pointers returns a node, recorded under the sorted key;
    the map keeps its other entries. *)
Lemma getNode3_returns (a b c : ptr) (s : Implementation) :
  nodes_ok s ->
  valid_ptr s.(m_points) a -> valid_ptr s.(m_points) b -> valid_ptr s.(m_points) c ->
  exists n s1,
    getNode3 a b c s = Ok (n, s1)
    /\ s1.(m_nodes) !! orderPoints (a, b, c) = Some (Some n)
    /\ nodes_ok s1
    /\ s1.(m_points) = s.(m_points)
    /\ (forall k v, s.(m_nodes) !! k = Some v -> s1.(m_nodes) !! k = Some v).
Proof.
  intros Hok Ha Hb Hc. unfold getNode3.
  destruct (orderPoints (a, b, c)) as [[a' b'] c'] eqn:E.
  destruct (orderPoints_valid _ _ _ _ _ _ _ E Ha Hb Hc) as (Ha' & Hb' & Hc').
  destruct (m_nodes s !! (a', b', c')) as [[n|]|] eqn:L.
  - exists n, s. repeat split; auto.
  - exfalso. exact (Hok _ _ L eq_refl).
  - destruct (deref_valid _ _ Ha') as [pa ->], (deref_valid _ _ Hb') as [pb ->],
      (deref_valid _ _ Hc') as [pc ->].
    destruct (parent_index_valid _ _ Ha') as (ia & _ & ->),
      (parent_index_valid _ _ Hb') as (ib & _ & ->),
      (parent_index_valid _ _ Hc') as (ic & _ & ->).
    simpl. eexists _, _. split; [reflexivity|]. simpl. repeat split.
    + apply lookup_insert_eq.
    + apply nodes_ok_insert, Hok.
    + intros k v Hk. rewrite lookup_insert_ne; [assumption|congruence].
Qed.

Lemma pair_key_sym (a b : ptr) : pair_key b a = pair_key a b.
Proof.
  unfold pair_key.
  destruct (ptr_gtb_cases a b) as [(E & E' & _)|[(E & E' & _)|(E & E' & ->)]];
    rewrite ?E, ?E'; reflexivity.
Qed.

Lemma getNode2_hit (a b : ptr) (s : Implementation) (n : nat) :
  s.(m_nodes) !! pair_key a b = Some (Some n) ->
  getNode2 a b s = Ok (n, s).
Proof.
  unfold getNode2, pair_key. destruct (ptr_gtb a b); cbv beta iota; intros ->; reflexivity.
Qed.

Lemma getNode2_returns (a b : ptr) (s : Implementation) :
  nodes_ok s ->
  valid_ptr s.(m_points) a -> valid_ptr s.(m_points) b ->
  exists n s1,
    getNode2 a b s = Ok (n, s1)
    /\ s1.(m_nodes) !! pair_key a b = Some (Some n)
    /\ nodes_ok s1
    /\ s1.(m_points) = s.(m_points)
    /\ (forall k v, s.(m_nodes) !! k = Some v -> s1.(m_nodes) !! k = Some v).
Proof.
  intros Hok Ha Hb. unfold getNode2, pair_key.
  assert (exists a' b', (if ptr_gtb a b then (b, a) else (a, b)) = (a', b')
                        /\ valid_ptr s.(m_points) a' /\ valid_ptr s.(m_points) b')
    as (a' & b' & E & Ha' & Hb')
    by (destruct (ptr_gtb a b); eauto).
  replace (if ptr_gtb a b then (b, a, None) else (a, b, None)) with (a', b', @None nat)
    by (destruct (ptr_gtb a b); congruence).
  rewrite E.
  destruct (m_nodes s !! (a', b', None)) as [[n|]|] eqn:L.
  - exists n, s. repeat split; auto.
  - exfalso. exact (Hok _ _ L eq_refl).
  - destruct (deref_valid _ _ Ha') as [pa ->], (deref_valid _ _ Hb') as [pb ->].
    destruct (parent_index_valid _ _ Ha') as (ia & _ & ->),
      (parent_index_valid _ _ Hb') as (ib & _ & ->).
    simpl. eexists _, _. split; [reflexivity|]. simpl. repeat split.
    + apply lookup_insert_eq.
    + apply nodes_ok_insert, Hok.
    + intros k v Hk. rewrite lookup_insert_ne; [assumption|congruence].
Qed.

Lemma nodes_ok_init (points : list Point) :
  nodes_ok (mkImplementation 0 [] [] infinity neg_infinity infinity neg_infinity ∅ [] []
              points).
Proof. intros k v. simpl. rewrite lookup_empty. discriminate. Qed.

(** C10: interning is insensitive to the order of the sites and never leaves
    a null node.  From a state whose map has no null node (the empty map of a
    fresh object is one), and for sites of the input vector: a call of
    [getNode] with the triple in any order returns a node, the map still has
    no null node, and a call with the triple in any other order, in any state
    whose map has the same entry for the sorted key, returns the same node
    and changes nothing; the same holds for the two orders of a pair. *)
Theorem getNode_interning (s : Implementation) (a b c : ptr) :
  nodes_ok s ->
  valid_ptr s.(m_points) a -> valid_ptr s.(m_points) b -> valid_ptr s.(m_points) c ->
  (forall t1 t2, In t1 (perms3 (a, b, c)) -> In t2 (perms3 (a, b, c)) ->
     exists node s1,
       getNode3 t1.1.1 t1.1.2 t1.2 s = Ok (node, s1)
       /\ nodes_ok s1
       /\ s1.(m_nodes) !! orderPoints (a, b, c) = Some (Some node)
       /\ forall s2,
            s2.(m_nodes) !! orderPoints (a, b, c) = s1.(m_nodes) !! orderPoints (a, b, c) ->
            getNode3 t2.1.1 t2.1.2 t2.2 s2 = Ok (node, s2))
  /\ (forall u1 u2, In u1 [(a, b); (b, a)] -> In u2 [(a, b); (b, a)] ->
     exists node s1,
       getNode2 u1.1 u1.2 s = Ok (node, s1)
       /\ nodes_ok s1
       /\ s1.(m_nodes) !! pair_key a b = Some (Some node)
       /\ forall s2,
            s2.(m_nodes) !! pair_key a b = s1.(m_nodes) !! pair_key a b ->
            getNode2 u2.1 u2.2 s2 = Ok (node, s2)).
Proof.
  intros Hok Ha Hb Hc. split.
  - intros [[a1 b1] c1] [[a2 b2] c2] H1 H2.
    pose proof (orderPoints_perm _ _ H1) as E1.
    pose proof (orderPoints_perm _ _ H2) as E2.
    assert (valid_ptr s.(m_points) a1 /\ valid_ptr s.(m_points) b1
            /\ valid_ptr s.(m_points) c1) as (Ha1 & Hb1 & Hc1).
    { simpl in H1.
      destruct H1 as [E|[E|[E|[E|[E|[E|[]]]]]]]; inversion E; subst; tauto. }
    destruct (getNode3_returns a1 b1 c1 s Hok Ha1 Hb1 Hc1) as (n & s1 & R & L & Hok1 & _).
    exists n, s1. cbn [fst snd]. rewrite E1 in L. repeat split; auto.
    intros s2 Hs2. apply getNode3_hit. rewrite E2, Hs2. exact L.
  - intros [a1 b1] [a2 b2] H1 H2.
    assert (pair_key a1 b1 = pair_key a b /\ valid_ptr s.(m_points) a1
            /\ valid_ptr s.(m_points) b1) as (E1 & Ha1 & Hb1).
    { simpl in H1. destruct H1 as [E|[E|[]]]; inversion E; subst;
        auto using pair_key_sym. }
    assert (pair_key a2 b2 = pair_key a b) as E2.
    { simpl in H2. destruct H2 as [E|[E|[]]]; inversion E; subst;
        auto using pair_key_sym. }
    destruct (getNode2_returns a1 b1 s Hok Ha1 Hb1) as (n & s1 & R & L & Hok1 & _).
    exists n, s1. cbn [fst snd]. rewrite E1 in L. repeat split; auto.
    intros s2 Hs2. apply getNode2_hit. rewrite E2, Hs2. exact L.
Qed.

(** The theorem on a new object holding [sites_obtuse] and its three sites. *)
Lemma getNode_interning_witness :
  (forall t1 t2,
     In t1 (perms3 (Some 0, Some 1, Some 2)) -> In t2 (perms3 (Some 0, Some 1, Some 2)) ->
     exists node s1,
       getNode3 t1.1.1 t1.1.2 t1.2 (Implementation_for sites_obtuse) = Ok (node, s1)
       /\ nodes_ok s1
       /\ s1.(m_nodes) !! orderPoints (Some 0, Some 1, Some 2) = Some (Some node)
       /\ forall s2,
            s2.(m_nodes) !! orderPoints (Some 0, Some 1, Some 2)
            = s1.(m_nodes) !! orderPoints (Some 0, Some 1, Some 2) ->
            getNode3 t2.1.1 t2.1.2 t2.2 s2 = Ok (node, s2))
  /\ (forall u1 u2,
       In u1 [(Some 0, Some 1); (Some 1, Some 0)] ->
       In u2 [(Some 0, Some 1); (Some 1, Some 0)] ->
       exists node s1,
         getNode2 u1.1 u1.2 (Implementation_for sites_obtuse) = Ok (node, s1)
         /\ nodes_ok s1
         /\ s1.(m_nodes) !! pair_key (Some 0) (Some 1) = Some (Some node)
         /\ forall s2,
              s2.(m_nodes) !! pair_key (Some 0) (Some 1)
              = s1.(m_nodes) !! pair_key (Some 0) (Some 1) ->
              getNode2 u2.1 u2.2 s2 = Ok (node, s2)).
Proof.
  apply (getNode_interning (Implementation_for sites_obtuse) (Some 0) (Some 1) (Some 2)).
  - apply nodes_ok_init.
  - simpl. lia.
  - simpl. lia.
  - simpl. lia.
Defined.

(** ** Edges of a circle event (C3) *)

Lemma bind_ret_l {A B} (a : A) (k : A -> result B) : Ok a ≫= k = k a.
Proof. reflexivity. Qed.

Lemma nodes_nonnull_ok (s : Implementation) :
  nodes_nonnull s.(m_nodes) = true -> nodes_ok s.
Proof.
  unfold nodes_nonnull, nodes_ok. rewrite forallb_forall. intros H k v L ->.
  apply elem_of_map_to_list, list_elem_of_In in L. specialize (H _ L). discriminate.
Qed.

Lemma nodes_ok_nonnull (s : Implementation) :
  nodes_ok s -> nodes_nonnull s.(m_nodes) = true.
Proof.
  unfold nodes_nonnull, nodes_ok. intros H. apply forallb_forall. intros [k v] L.
  apply list_elem_of_In, elem_of_map_to_list in L. simpl.
  destruct v; [reflexivity|]. exfalso. exact (H _ _ L eq_refl).
Qed.

Lemma nodes_in_store_ok (s : Implementation) :
  nodes_in_store s = true -> store_ok s.
Proof.
  unfold nodes_in_store, store_ok. rewrite forallb_forall. intros H k n L.
  apply elem_of_map_to_list, list_elem_of_In in L. specialize (H _ L). simpl in H.
  apply Nat.ltb_lt in H. exact H.
Qed.

Lemma deref_Ok_valid (points : list Point) (a : ptr) (p : Point) :
  deref points a = Ok p -> valid_ptr points a.
Proof.
  destruct a as [i|]; simpl; [|discriminate].
  destruct (nth_error points i) eqn:E; [|discriminate].
  intros _. apply nth_error_Some. congruence.
Qed.

Lemma store_ok_insert (s : Implementation) (k : ptr * ptr * ptr) (o : Node.t) :
  store_ok s ->
  store_ok (set_nodes (<[k := Some (length s.(m_node_objs))]> s.(m_nodes))
              (s.(m_node_objs) ++ [o]) s).
Proof.
  intros H k' n. simpl. rewrite length_app. simpl.
  destruct (decide (k = k')) as [->|Hne].
  - rewrite lookup_insert_eq. intros E. inversion E. lia.
  - rewrite lookup_insert_ne by assumption. intros L. specialize (H _ _ L). lia.
Qed.

(** What a returning call of [getNode] leaves besides the map. *)
Lemma getNode3_store (a b c : ptr) (s s1 : Implementation) (n : nat) :
  getNode3 a b c s = Ok (n, s1) -> store_ok s ->
  store_ok s1 /\ n < length s1.(m_node_objs) /\ s1.(m_edges) = s.(m_edges)
  /\ length s.(m_node_objs) <= length s1.(m_node_objs).
Proof.
  unfold getNode3. destruct (orderPoints (a, b, c)) as [[a' b'] c'].
  destruct (m_nodes s !! (a', b', c')) as [[m|]|] eqn:L.
  - intros E Hs. inversion E; subst. repeat split; auto. exact (Hs _ _ L).
  - discriminate.
  - intros E Hs.
    repeat (apply bind_Ok in E; destruct E as (? & _ & E)).
    inversion E; subst. split; [apply store_ok_insert, Hs|].
    simpl. rewrite length_app. simpl. repeat split; lia.
Qed.

Lemma getNode2_store (a b : ptr) (s s1 : Implementation) (n : nat) :
  getNode2 a b s = Ok (n, s1) -> store_ok s ->
  store_ok s1 /\ n < length s1.(m_node_objs) /\ s1.(m_edges) = s.(m_edges)
  /\ length s.(m_node_objs) <= length s1.(m_node_objs).
Proof.
  unfold getNode2. destruct (if ptr_gtb a b then (b, a) else (a, b)) as [a' b'].
  destruct (m_nodes s !! (a', b', None)) as [[m|]|] eqn:L.
  - intros E Hs. inversion E; subst. repeat split; auto. exact (Hs _ _ L).
  - discriminate.
  - intros E Hs.
    repeat (apply bind_Ok in E; destruct E as (? & _ & E)).
    inversion E; subst. split; [apply store_ok_insert, Hs|].
    simpl. rewrite length_app. simpl. repeat split; lia.
Qed.

Lemma node_obj_valid (s : Implementation) (n : nat) :
  n < length s.(m_node_objs) -> exists o, node_obj s n = Ok o.
Proof.
  intros H. unfold node_obj. destruct (nth_error (m_node_objs s) n) eqn:E; [eauto|].
  apply nth_error_None in E. lia.
Qed.

Lemma addEdge_returns (nodeA nodeB : nat) (s : Implementation) :
  nodeA < length s.(m_node_objs) -> nodeB < length s.(m_node_objs) ->
  exists e s1,
    addEdge nodeA nodeB s = Ok (e, s1)
    /\ map Edge.nodes s1.(m_edges) = map Edge.nodes s.(m_edges) ++ [(nodeA, nodeB)]
    /\ s1.(m_node_objs) = s.(m_node_objs)
    /\ s1.(m_nodes) = s.(m_nodes).
Proof.
  intros Ha Hb. unfold addEdge.
  destruct (node_obj_valid _ _ Ha) as [oa ->], (node_obj_valid _ _ Hb) as [ob ->].
  rewrite !bind_ret_l. eexists _, _. split; [reflexivity|]. simpl.
  rewrite map_app. auto.
Qed.

(** [addTriplet] appends the three edges towards its first argument. *)
Lemma addTriplet_edges (center nodeA nodeB nodeC : nat) (s : Implementation) :
  center < length s.(m_node_objs) -> nodeA < length s.(m_node_objs) ->
  nodeB < length s.(m_node_objs) -> nodeC < length s.(m_node_objs) ->
  exists s',
    addTriplet center nodeA nodeB nodeC s = Ok s'
    /\ map Edge.nodes s'.(m_edges)
       = map Edge.nodes s.(m_edges) ++ [(nodeA, center); (nodeB, center); (nodeC, center)]
    /\ s'.(m_nodes) = s.(m_nodes).
Proof.
  intros Hc Ha Hb HC. unfold addTriplet.
  destruct (addEdge_returns nodeA center s Ha Hc) as (e1 & s1 & -> & M1 & O1 & N1).
  rewrite bind_ret_l. cbv beta iota.
  rewrite <- O1 in Hc, Ha, Hb, HC.
  destruct (addEdge_returns nodeB center s1 Hb Hc) as (e2 & s2 & -> & M2 & O2 & N2).
  rewrite bind_ret_l. cbv beta iota.
  rewrite <- O2 in Hc, Ha, Hb, HC.
  destruct (addEdge_returns nodeC center s2 HC Hc) as (e3 & s3 & -> & M3 & O3 & N3).
  rewrite bind_ret_l. cbv beta iota.
  eexists. split; [reflexivity|]. simpl.
  rewrite M3, M2, M1, <- !app_assoc. simpl. split; [reflexivity|congruence].
Qed.

Lemma opposite_sign_tests (d e f : float) :
  opposite_sign d e f = true ->
  ((d <=? 0) = true /\ (0 <=? d) = false /\ (e <=? 0) = false /\ (0 <=? e) = true
   /\ (f <=? 0) = false /\ (0 <=? f) = true)%float
  \/ ((d <=? 0) = false /\ (0 <=? d) = true /\ (e <=? 0) = true /\ (0 <=? e) = false
      /\ (f <=? 0) = true /\ (0 <=? f) = false)%float.
Proof.
  unfold opposite_sign. rewrite orb_true_iff, !andb_true_iff.
  intros [((Hd & He) & Hf)|((Hd & He) & Hf)]; [left|right];
    repeat split; auto using ltb_leb, ltb_not_leb.
Qed.

(** C3, as the code has it: at a circle event whose circumcentre lies outside
    the triangle (the [perp] value of one side strictly opposite in sign to
    the other two), exactly three edges are emitted, and all three end at the
    pair vertex of that side, V_far: one from the interior vertex V_ABC and
    one from each of the other two pair vertices.  V_ABC is joined to V_far
    only. *)
Theorem processEvent_outside_edges (event : CircleEvent) (s : Implementation)
    (a b c : Point) (sd : side) :
  let ptA := event.(left_int).(pt_left) in
  let ptB := event.(left_int).(pt_right) in
  let ptC := event.(right_int).(pt_right) in
  nodes_nonnull s.(m_nodes) = true ->
  nodes_in_store s = true ->
  deref s.(m_points) ptA = Ok a ->
  deref s.(m_points) ptB = Ok b ->
  deref s.(m_points) ptC = Ok c ->
  odd_one_out (perp event.(circle).(center) a b) (perp event.(circle).(center) b c)
    (perp event.(circle).(center) c a) = Some sd ->
  exists s' nodeCenter nodeAB nodeBC nodeCA,
    processEvent_graph event s = Ok s'
    /\ s'.(m_nodes) !! orderPoints (ptA, ptB, ptC) = Some (Some nodeCenter)
    /\ s'.(m_nodes) !! pair_key ptA ptB = Some (Some nodeAB)
    /\ s'.(m_nodes) !! pair_key ptB ptC = Some (Some nodeBC)
    /\ s'.(m_nodes) !! pair_key ptA ptC = Some (Some nodeCA)
    /\ map Edge.nodes s'.(m_edges)
       = map Edge.nodes s.(m_edges)
         ++ match sd with
            | SideBC => [(nodeCenter, nodeBC); (nodeCA, nodeBC); (nodeAB, nodeBC)]
            | SideCA => [(nodeCenter, nodeCA); (nodeAB, nodeCA); (nodeBC, nodeCA)]
            | SideAB => [(nodeCenter, nodeAB); (nodeBC, nodeAB); (nodeCA, nodeAB)]
            end.
Proof.
  intros ptA ptB ptC Hnn Hst Ha Hb Hc Hodd.
  pose proof (nodes_nonnull_ok _ Hnn) as Hok.
  pose proof (nodes_in_store_ok _ Hst) as Hso.
  pose proof (deref_Ok_valid _ _ _ Ha) as Va.
  pose proof (deref_Ok_valid _ _ _ Hb) as Vb.
  pose proof (deref_Ok_valid _ _ _ Hc) as Vc.
  unfold processEvent_graph. fold ptA ptB ptC. rewrite Hnn. simpl assert.
  rewrite bind_ret_l.
  destruct (getNode3_returns ptA ptB ptC s Hok Va Vb Vc)
    as (nC & s1 & R1 & L1 & Hok1 & P1 & K1).
  destruct (getNode3_store _ _ _ _ _ _ R1 Hso) as (Hso1 & B1 & E1 & G1).
  rewrite R1, bind_ret_l. cbv beta iota.
  rewrite <- P1 in Va, Vb, Vc.
  destruct (getNode2_returns ptA ptB s1 Hok1 Va Vb)
    as (nAB & s2 & R2 & L2 & Hok2 & P2 & K2).
  destruct (getNode2_store _ _ _ _ _ R2 Hso1) as (Hso2 & B2 & E2 & G2).
  rewrite R2, bind_ret_l. cbv beta iota.
  rewrite <- P2 in Va, Vb, Vc.
  destruct (getNode2_returns ptB ptC s2 Hok2 Vb Vc)
    as (nBC & s3 & R3 & L3 & Hok3 & P3 & K3).
  destruct (getNode2_store _ _ _ _ _ R3 Hso2) as (Hso3 & B3 & E3 & G3).
  rewrite R3, bind_ret_l. cbv beta iota.
  rewrite <- P3 in Va, Vb, Vc.
  destruct (getNode2_returns ptA ptC s3 Hok3 Va Vc)
    as (nCA & s4 & R4 & L4 & Hok4 & P4 & K4).
  destruct (getNode2_store _ _ _ _ _ R4 Hso3) as (Hso4 & B4 & E4 & G4).
  rewrite R4, bind_ret_l. cbv beta iota.
  rewrite (nodes_ok_nonnull _ Hok4). simpl assert. rewrite bind_ret_l.
  assert (m_points s4 = m_points s) as P by congruence.
  rewrite P, Ha, Hb, Hc, !bind_ret_l.
  assert (map Edge.nodes (m_edges s4) = map Edge.nodes (m_edges s)) as E
    by congruence.
  assert (nC < length (m_node_objs s4)) as BC' by lia.
  assert (nAB < length (m_node_objs s4)) as BAB by lia.
  assert (nBC < length (m_node_objs s4)) as BBC by lia.
  pose proof (K4 _ _ (K3 _ _ (K2 _ _ L1))) as L1'.
  pose proof (K4 _ _ (K3 _ _ L2)) as L2'.
  pose proof (K4 _ _ L3) as L3'.
  unfold odd_one_out in Hodd.
  repeat match type of Hodd with
    | (if ?t then _ else _) = _ => destruct t eqn:?
    end; inversion Hodd; subst sd;
  match goal with
  | H : opposite_sign _ _ _ = true |- _ =>
      destruct (opposite_sign_tests _ _ _ H)
        as [(T1 & T2 & T3 & T4 & T5 & T6)|(T1 & T2 & T3 & T4 & T5 & T6)]
  end;
  rewrite T1, T2, T3, T4, T5, T6; cbn [andb orb];
  match goal with
  | |- context [addTriplet ?h ?n1 ?n2 ?n3 s4] =>
      let Hh := fresh in let H1 := fresh in let H2 := fresh in let H3 := fresh in
      assert (h < length (m_node_objs s4)) as Hh by assumption;
      assert (n1 < length (m_node_objs s4)) as H1 by assumption;
      assert (n2 < length (m_node_objs s4)) as H2 by assumption;
      assert (n3 < length (m_node_objs s4)) as H3 by assumption;
      destruct (addTriplet_edges h n1 n2 n3 s4 Hh H1 H2 H3) as (s' & R & M & N)
  end;
  exists s', nC, nAB, nBC, nCA; rewrite N, M, E; repeat split; assumption.
Qed.

(** The theorem at the circle event of [sites_obtuse], on an object that has
    no vertex yet: the side CA is the odd one, the three edges end at V_CA. *)
Lemma processEvent_outside_edges_witness :
  exists s' nodeCenter nodeAB nodeBC nodeCA,
    processEvent_graph event_obtuse (Implementation_for sites_obtuse) = Ok s'
    /\ s'.(m_nodes) !! orderPoints (Some 0, Some 1, Some 2) = Some (Some nodeCenter)
    /\ s'.(m_nodes) !! pair_key (Some 0) (Some 1) = Some (Some nodeAB)
    /\ s'.(m_nodes) !! pair_key (Some 1) (Some 2) = Some (Some nodeBC)
    /\ s'.(m_nodes) !! pair_key (Some 0) (Some 2) = Some (Some nodeCA)
    /\ map Edge.nodes s'.(m_edges)
       = [(nodeCenter, nodeCA); (nodeAB, nodeCA); (nodeBC, nodeCA)].
Proof.
  refine (processEvent_outside_edges event_obtuse (Implementation_for sites_obtuse)
            (mkPoint (-4) 3) (mkPoint 0 5) (mkPoint 3 4) SideCA _ _ _ _ _ _);
    vm_compute; reflexivity.
Defined.

(** C3 as stated fails on [sites_obtuse] (sites 0, 1, 2 are A, B, C; the
    vertices V_ABC, V_AB, V_BC, V_CA are the nodes 0, 1, 2, 3; the side CA has
    the odd sign): the run emits an edge from V_CA to V_AB and none from
    V_ABC to V_AB. *)
Lemma obtuse_event_edges_counterexample :
  exists s3 s,
    compute_steps 3 sites_obtuse = Ok (3, s3)
    /\ CircleQueue.back s3.(m_events) = Ok event_obtuse
    /\ odd_one_out
         (perp event_obtuse.(circle).(center) (mkPoint (-4) 3) (mkPoint 0 5))
         (perp event_obtuse.(circle).(center) (mkPoint 0 5) (mkPoint 3 4))
         (perp event_obtuse.(circle).(center) (mkPoint 3 4) (mkPoint (-4) 3))
       = Some SideCA
    /\ compute 4 sites_obtuse = Ok s
    /\ s.(m_nodes) !! (Some 0, Some 1, Some 2) = Some (Some 0)
    /\ s.(m_nodes) !! (Some 0, Some 1, None) = Some (Some 1)
    /\ s.(m_nodes) !! (Some 1, Some 2, None) = Some (Some 2)
    /\ s.(m_nodes) !! (Some 0, Some 2, None) = Some (Some 3)
    /\ map Edge.nodes s.(m_edges) = [(0, 3); (1, 3); (2, 3)]
    /\ connected s.(m_edges) 3 1
    /\ ~ connected s.(m_edges) 0 1.
Proof.
  eexists. eexists.
  split; [vm_compute; reflexivity|].
  split; [vm_compute; reflexivity|].
  split; [vm_compute; reflexivity|].
  split; [vm_compute; reflexivity|].
  split; [vm_compute; reflexivity|].
  split; [vm_compute; reflexivity|].
  split; [vm_compute; reflexivity|].
  split; [vm_compute; reflexivity|].
  split; [vm_compute; reflexivity|].
  unfold connected. split.
  - right. vm_compute. tauto.
  - vm_compute. intros [H|H];
      repeat (destruct H as [H|H]; [discriminate H|]); exact H.
Qed.

(** ** Stale circle events (C4) *)

Lemma defined_bind {A B} (m : result A) (k : A -> result B) :
  defined m -> (forall a, m = Ok a -> defined (k a)) -> defined (m ≫= k).
Proof. destruct m as [a|f]; simpl; auto. Qed.

Lemma defined_assert (c : bool) : defined (assert c).
Proof. destruct c; exact I. Qed.

Lemma defined_cases {A} (r : result A) :
  defined r -> (exists a, r = Ok a) \/ r = Err AssertionFailed \/ r = Err Thrown.
Proof. destruct r as [a|[]]; simpl; intros H; try tauto; eauto. Qed.

Lemma deref_wf (points : list Point) (i : nat) :
  wf_ptr points (Some i) -> exists p, deref points (Some i) = Ok p.
Proof. intros H. apply deref_valid. exact H. Qed.

Lemma getIntersection_pts_defined sweep p r sign :
  defined (getIntersection_pts sweep p r sign).
Proof.
  unfold getIntersection_pts.
  repeat (apply defined_bind; [apply defined_assert|intros _ _]). exact I.
Qed.

Lemma getSign_defined points inter :
  wf_int points inter -> defined (getSign points inter).
Proof.
  destruct inter as [[a|] [b|]]; intros [Ha Hb]; unfold getSign; simpl; try exact I.
  destruct (deref_wf _ _ Ha) as [p Hp], (deref_wf _ _ Hb) as [q Hq].
  simpl in Hp, Hq. rewrite Hp, Hq. exact I.
Qed.

Lemma getIntersection_defined points sweep inter :
  wf_int points inter -> defined (getIntersection points sweep inter).
Proof.
  intros H. pose proof (getSign_defined _ _ H) as Hs. revert Hs.
  destruct inter as [[a|] [b|]]; destruct H as [Ha Hb];
    unfold getIntersection, getSign; simpl; try (intros; exact I).
  destruct (deref_wf _ _ Ha) as [p Hp], (deref_wf _ _ Hb) as [q Hq].
  simpl in Hp, Hq. rewrite Hp, Hq. simpl. intros _. apply getIntersection_pts_defined.
Qed.

Lemma BeachCompare_defined points sweep lhs rhs :
  wf_int points lhs -> wf_int points rhs -> defined (BeachCompare points sweep lhs rhs).
Proof.
  intros Hl Hr. unfold BeachCompare.
  repeat match goal with
    | |- defined (if ?c then _ else _) => destruct c eqn:?
    | |- defined (mret _) => exact I
    | |- defined (_ ≫= _) => apply defined_bind; [|intros ? ?]
    | |- defined (assert _) => apply defined_assert
    | |- defined (getSign _ _) => apply getSign_defined; assumption
    | |- defined (getIntersection _ _ _) => apply getIntersection_defined; assumption
    end.
  all: destruct lhs as [[la|] [lb|]], rhs as [[ra|] [rb|]]; simpl in *; try discriminate.
  all: destruct Hl as [Hla Hlb], Hr as [Hra Hrb].
  - destruct (deref_wf _ _ Hla) as [p Hp]. simpl in Hp. rewrite Hp. exact I.
  - destruct (deref_wf _ _ Hra) as [p Hp]. simpl in Hp. rewrite Hp. exact I.
Qed.

Section Search.
Context {A : Type} (comp : A -> A -> result bool) (P : A -> Prop).
Hypothesis comp_defined : forall a b, P a -> P b -> defined (comp a b).

Lemma lower_bound_defined (k : A) (l : list A) :
  P k -> Forall P l -> defined (lower_bound comp k l).
Proof.
  intros Hk. induction 1 as [|e l He Hl IH]; simpl; [exact I|].
  apply defined_bind; [auto|]. intros [] _; [|exact I].
  apply defined_bind; [exact IH|]. intros; exact I.
Qed.

Lemma check_order_defined (l : list A) :
  Forall P l -> defined (check_order comp l).
Proof.
  induction 1 as [|a l Ha Hl IH]; simpl; [exact I|].
  destruct l as [|b l']; [exact I|].
  inversion Hl; subst.
  apply defined_bind; [auto|]. intros [] _; [exact IH|exact I].
Qed.

Lemma set_find_defined (k : A) (l : list A) :
  P k -> Forall P l -> defined (set_find comp k l).
Proof.
  intros Hk Hl. unfold set_find.
  apply defined_bind; [apply lower_bound_defined; assumption|].
  intros i _. destruct (nth_error l i) as [e|] eqn:E; [|exact I].
  apply defined_bind; [|intros; exact I].
  apply comp_defined; [assumption|].
  rewrite Forall_forall in Hl. apply Hl, list_elem_of_In.
  eapply nth_error_In; eassumption.
Qed.

Lemma set_find_Some (k : A) (l : list A) (i : nat) :
  set_find comp k l = Ok (Some i) -> exists e, nth_error l i = Some e.
Proof.
  unfold set_find. intros H. apply bind_Ok in H. destruct H as (j & _ & H).
  destruct (nth_error l j) as [e|] eqn:E; [|discriminate].
  apply bind_Ok in H. destruct H as ([] & _ & H); inversion H; subst. eauto.
Qed.
End Search.

Lemma beach_at_last (l : list Intersection) (i : nat) (e : Intersection) :
  nth_error l i = Some e -> nth_error l (i + 1) = None -> last l = Some e.
Proof.
  revert i. induction l as [|a l IH]; intros i Hi Hn; [destruct i; discriminate|].
  destruct i as [|i]; simpl in *.
  - inversion Hi; subst. destruct l; [reflexivity|discriminate].
  - destruct l as [|b l']; [destruct i; discriminate|].
    change (last (a :: b :: l')) with (last (b :: l')). eapply IH; eassumption.
Qed.

Lemma beach_at_Some (l : list Intersection) (i : nat) (e : Intersection) :
  nth_error l i = Some e -> beach_at l i = Ok e.
Proof. unfold beach_at. intros ->. reflexivity. Qed.

Lemma Intersection_eta (a b : Intersection) :
  ptr_eqb a.(pt_right) b.(pt_right) = true -> ptr_eqb a.(pt_left) b.(pt_left) = true ->
  a = b.
Proof.
  destruct a, b. simpl. rewrite !ptr_eqb_eq. congruence.
Qed.

(** C4, as the code has it: [processEvent] has no path that skips a stale
    event.  On a beach line whose entries refer to sites of the input and
    whose last entry is the right sentinel, an event that names a left
    breakpoint with a right site, and whose two breakpoints are not both
    entries of the beach line, never completes: the computation is stopped
    by the ordering check ([throw]) or by one of the assertions. *)
Theorem processEvent_stale_stops (event : CircleEvent) (s : Implementation) :
  Forall (wf_int s.(m_points)) s.(m_beach) ->
  wf_int s.(m_points) event.(left_int) ->
  (forall b, last s.(m_beach) = Some b -> b.(pt_right) = None) ->
  event.(left_int).(pt_right) <> None ->
  ~ (In event.(left_int) s.(m_beach) /\ In event.(right_int) s.(m_beach)) ->
  processEvent event s = Err AssertionFailed \/ processEvent event s = Err Thrown.
Proof.
  intros Hwf Hev Hlast Hnn Hstale.
  assert (forall r : result Implementation,
            r = Err AssertionFailed \/ r = Err Thrown ->
            r ≫= processEvent_graph event = Err AssertionFailed
            \/ r ≫= processEvent_graph event = Err Thrown) as Hlift
    by (intros r [-> | ->]; auto).
  unfold processEvent. apply Hlift. clear Hlift.
  unfold processEvent_beach.
  destruct (ptr_eqb (pt_right (left_int event)) (pt_left (right_int event)));
    [|left; reflexivity].
  simpl assert. rewrite !bind_ret_l.
  pose proof (check_order_defined _ _ (BeachCompare_defined _ (sweep_y s)) _ Hwf) as D1.
  destruct (defined_cases _ D1) as [[[] ->]|[-> | ->]]; [|auto|auto].
  rewrite bind_ret_l.
  pose proof (set_find_defined _ _ (BeachCompare_defined _ (sweep_y s)) _ _ Hev Hwf) as D2.
  destruct (defined_cases _ D2) as [[it Hit]|[-> | ->]]; [|auto|auto].
  rewrite Hit, bind_ret_l.
  destruct it as [i|]; [|left; reflexivity].
  destruct (set_find_Some _ _ _ _ Hit) as [e He].
  destruct i as [|i]; [left; reflexivity|].
  simpl assert. rewrite bind_ret_l.
  assert (exists ln, nth_error (m_beach s) (S i - 1) = Some ln) as [ln Hln].
  { destruct (nth_error (m_beach s) (S i - 1)) eqn:E; [eauto|].
    apply nth_error_None in E. assert (S i < length (m_beach s)); [|lia].
    apply nth_error_Some. congruence. }
  rewrite (beach_at_Some _ _ _ Hln), bind_ret_l.
  rewrite (beach_at_Some _ _ _ He), bind_ret_l.
  destruct (ptr_eqb (pt_right e) (pt_right (left_int event))) eqn:E1;
    [|left; reflexivity].
  simpl assert. rewrite bind_ret_l.
  destruct (ptr_eqb (pt_left e) (pt_left (left_int event))) eqn:E2;
    [|left; reflexivity].
  simpl assert. rewrite bind_ret_l.
  pose proof (Intersection_eta _ _ E1 E2) as ->.
  destruct (nth_error (m_beach s) (S i + 1)) as [r|] eqn:Hr.
  2:{ exfalso. apply Hnn. apply Hlast. eapply beach_at_last; eassumption. }
  rewrite (beach_at_Some _ _ _ Hr), bind_ret_l.
  destruct (ptr_eqb (pt_right r) (pt_right (right_int event))) eqn:E3;
    [|left; reflexivity].
  simpl assert. rewrite bind_ret_l.
  destruct (ptr_eqb (pt_left r) (pt_left (right_int event))) eqn:E4;
    [|left; reflexivity].
  pose proof (Intersection_eta _ _ E3 E4) as ->.
  exfalso. apply Hstale. split; eapply nth_error_In; eassumption.
Qed.

Lemma compute_obtuse : compute 4 sites_obtuse = Ok state_after_obtuse.
Proof. vm_compute. reflexivity. Qed.

(** The theorem on the final state of the run on [sites_obtuse] and the event
    that run has already consumed. *)
Lemma processEvent_stale_stops_witness :
  processEvent event_obtuse state_after_obtuse = Err AssertionFailed
  \/ processEvent event_obtuse state_after_obtuse = Err Thrown.
Proof.
  apply (processEvent_stale_stops event_obtuse state_after_obtuse).
  - vm_compute. repeat constructor.
  - vm_compute. repeat constructor.
  - vm_compute. intros b E. inversion E. reflexivity.
  - vm_compute. discriminate.
  - vm_compute. intros [H _].
    repeat (destruct H as [H|H]; [discriminate H|]). exact H.
Defined.

(** C4 as stated fails on that state: the two breakpoints of the event are
    gone from the beach line, and processing the event is an assertion
    failure, not a step without effect. *)
Lemma stale_event_counterexample :
  compute 4 sites_obtuse = Ok state_after_obtuse
  /\ ~ In event_obtuse.(left_int) state_after_obtuse.(m_beach)
  /\ ~ In event_obtuse.(right_int) state_after_obtuse.(m_beach)
  /\ processEvent event_obtuse state_after_obtuse = Err AssertionFailed.
Proof.
  split; [exact compute_obtuse|].
  split; [|split].
  - vm_compute. intros H.
    repeat (destruct H as [H|H]; [discriminate H|]). exact H.
  - vm_compute. intros H.
    repeat (destruct H as [H|H]; [discriminate H|]). exact H.
  - vm_compute. reflexivity.
Qed.

(** ** The choice between a site and a circle event (C5) *)

Lemma back_nonempty (q : list CircleEvent) (evt : CircleEvent) :
  CircleQueue.back q = Ok evt -> CircleQueue.empty q = false.
Proof. destruct q; [discriminate|reflexivity]. Qed.

(** C5, as the code has it: when a next site and a pending circle event
    exist and the ordinate of the site equals the key of the top event, the
    loop pops and processes the circle event; the cursor into the sites does
    not move. *)
Theorem tie_processes_circle_event (points : list Point) (ordered : list nat)
    (ii : nat) (s : Implementation) (evt : CircleEvent) (i : nat) (pt : Point) :
  CircleQueue.back s.(m_events) = Ok evt ->
  nth_error ordered ii = Some i ->
  nth_error points i = Some pt ->
  (pt.(y) =? event_key evt.(circle))%float = true ->
  choose_next points ordered ii s = Ok (CircleEv evt)
  /\ compute_step points ordered ii s
     = (s' ← processEvent evt (set_events (CircleQueue.pop_back s.(m_events)) s);
        assert (nodes_nonnull s'.(m_nodes));;
        mret (ii, s')).
Proof.
  intros Hback Hii Hpt Htie.
  assert (choose_next points ordered ii s = Ok (CircleEv evt)) as Hc.
  { unfold choose_next. rewrite (back_nonempty _ _ Hback).
    assert (ii < length ordered) as Hlt by (apply nth_error_Some; congruence).
    destruct (Nat.eqb_spec ii (length ordered)) as [E|_]; [lia|].
    rewrite Hback, bind_ret_l. unfold vector_at. rewrite Hii, bind_ret_l.
    rewrite Hpt, bind_ret_l. rewrite (eqb_not_ltb _ _ Htie). reflexivity. }
  split; [exact Hc|].
  unfold compute_step. rewrite Hc, bind_ret_l.
  destruct (processEvent evt (set_events (CircleQueue.pop_back (m_events s)) s));
    reflexivity.
Qed.

(** The theorem in the run on [sites_tie], after the three upper sites. *)
Lemma tie_processes_circle_event_witness :
  exists s3,
    compute_steps 3 sites_tie = Ok (3, s3)
    /\ choose_next sites_tie (sort_sites sites_tie) 3 s3 = Ok (CircleEv event_obtuse)
    /\ compute_step sites_tie (sort_sites sites_tie) 3 s3
       = (s' ← processEvent event_obtuse
                 (set_events (CircleQueue.pop_back s3.(m_events)) s3);
          assert (nodes_nonnull s'.(m_nodes));;
          mret (3, s')).
Proof.
  eexists. split; [vm_compute; reflexivity|].
  refine (tie_processes_circle_event sites_tie (sort_sites sites_tie) 3 _ event_obtuse 3
            (mkPoint 100 (-5)) _ _ _ _); vm_compute; reflexivity.
Defined.

(** C5 as stated fails in the run on [sites_tie]: after three iterations the
    fourth site (ordinate [-5]) and a circle event of key [-5] are both
    pending, and the loop chooses the circle event. *)
Lemma tie_counterexample :
  exists s3,
    compute_steps 3 sites_tie = Ok (3, s3)
    /\ nth_error (sort_sites sites_tie) 3 = Some 3
    /\ nth_error sites_tie 3 = Some (mkPoint 100 (-5))
    /\ CircleQueue.back s3.(m_events) = Ok event_obtuse
    /\ event_key event_obtuse.(circle) = (-5)%float
    /\ choose_next sites_tie (sort_sites sites_tie) 3 s3 = Ok (CircleEv event_obtuse)
    /\ choose_next sites_tie (sort_sites sites_tie) 3 s3 <> Ok (SiteEvent 3).
Proof.
  eexists.
  split; [vm_compute; reflexivity|].
  split; [vm_compute; reflexivity|].
  split; [vm_compute; reflexivity|].
  split; [vm_compute; reflexivity|].
  split; [vm_compute; reflexivity|].
  split; [vm_compute; reflexivity|].
  vm_compute. discriminate.
Qed.

(** ** The empty input (C6) *)

(** C6 fails in the code: on the empty sequence [compute] reads
    [ordered.back()] of an empty vector (the initialiser of the unused
    [last_y]) before it reaches its loop. *)
Theorem compute_empty_input (fuel : nat) : compute fuel [] = Err UndefinedBehaviour.
Proof. reflexivity. Qed.

(** Without that read the loop would not run and the diagram would be empty. *)
Lemma compute_loop_empty_input (fuel : nat) :
  compute_loop fuel [] (sort_sites []) 0 (Implementation_for [])
  = Ok (Implementation_for []).
Proof. destruct fuel; reflexivity. Qed.

(** ** The convergence test of the event queue (C1) *)

(** C1 fails in the code: both probes of [CircleQueue::insert] evaluate the
    left breakpoint.  On [sites_diverging] (A, B, C are the sites 0, 1, 2; the
    circle has centre [(0,0)], radius [5] and key [-5]) the breakpoint (A,B)
    is at the centre for the sweep position [-5], the breakpoint (B,C) is at
    [(6,0)], farther from the centre than the radius, and the event is
    inserted. *)
Theorem insert_ignores_right_breakpoint :
  let left := mkIntersection (Some 0) (Some 1) in
  let right := mkIntersection (Some 1) (Some 2) in
  let evt :=
    mkCircleEvent left right
      (solveCircle (mkPoint (-3) (-4)) (mkPoint 3 (-4)) (mkPoint 3 4)) in
  event_key evt.(circle) = (-5)%float
  /\ evt.(circle).(radius) = 5%float
  /\ getIntersection sites_diverging (to_float32 (event_key evt.(circle))) left
     = Ok (mkPoint 0 0)
  /\ getIntersection sites_diverging (to_float32 (event_key evt.(circle))) right
     = Ok (mkPoint 6 0)
  /\ distance2d (mkPoint 6 0) evt.(circle).(center) = 6%float
  /\ (evt.(circle).(radius) <? distance2d (mkPoint 6 0) evt.(circle).(center))%float = true
  /\ CircleQueue.insert sites_diverging [] 0 left right = Ok [evt].
Proof. repeat split; vm_compute; reflexivity. Qed.

(** The decision of [insert] after the earlier filters, in general: the
    event goes into the queue exactly when the left breakpoint is within the
    radius of the centre; the right breakpoint is not looked at. *)
Lemma insert_decided_by_left (points : list Point) (q : list CircleEvent) (sweep : float)
    (left right : Intersection) (a b c left_pt : Point) :
  let evt := mkCircleEvent left right (solveCircle a b c) in
  is_null left.(pt_left) = false ->
  is_null left.(pt_right) = false ->
  is_null right.(pt_left) = false ->
  is_null right.(pt_right) = false ->
  (ptr_eqb left.(pt_left) right.(pt_left) && ptr_eqb left.(pt_right) right.(pt_right)
   || ptr_eqb left.(pt_left) right.(pt_right) && ptr_eqb left.(pt_right) right.(pt_left))
  = false ->
  deref points left.(pt_left) = Ok a ->
  deref points left.(pt_right) = Ok b ->
  deref points right.(pt_right) = Ok c ->
  (sweep <? event_key evt.(circle))%float = false ->
  getIntersection points (to_float32 (event_key evt.(circle))) left = Ok left_pt ->
  CircleQueue.insert points q sweep left right
  = Ok (if (evt.(circle).(radius) <? distance2d left_pt evt.(circle).(center))%float
        then q else CircleQueue.queue_insert evt q).
Proof.
  intros evt H1 H2 H3 H4 H5 Ha Hb Hc Hs Hl. unfold CircleQueue.insert.
  rewrite H1, H4, H5, H2, H3. simpl assert. rewrite !bind_ret_l.
  rewrite Ha, Hb, Hc, !bind_ret_l. fold evt. rewrite Hs, Hl, !bind_ret_l.
  destruct (radius (circle evt) <? distance2d left_pt (center (circle evt)))%float;
    reflexivity.
Qed.

(** ** Parent indices of a vertex (C2) *)

Lemma orderPoints_Some (i j k : nat) :
  exists i' j' k',
    orderPoints (Some i, Some j, Some k) = (Some i', Some j', Some k')
    /\ ({[i' / sizeof_Point]} ∪ {[j' / sizeof_Point]} ∪ {[k' / sizeof_Point]} : gset nat)
       = {[i / sizeof_Point]} ∪ {[j / sizeof_Point]} ∪ {[k / sizeof_Point]}.
Proof.
  unfold orderPoints.
  repeat match goal with
    | |- context [if ?t then _ else _] => destruct t; cbn
    end;
    eexists _, _, _;
    (split; [reflexivity|];
     apply set_eq; intros z; rewrite !elem_of_union, !elem_of_singleton; tauto).
Qed.

(** The parent set a new triple vertex gets: each site position divided by
    [sizeof(Point)]. *)
Lemma getNode3_parents (i j k : nat) (s s1 : Implementation) (n : nat) :
  s.(m_nodes) !! orderPoints (Some i, Some j, Some k) = None ->
  getNode3 (Some i) (Some j) (Some k) s = Ok (n, s1) ->
  exists o,
    nth_error s1.(m_node_objs) n = Some o
    /\ Node.parents o
       = {[i / sizeof_Point]} ∪ {[j / sizeof_Point]} ∪ {[k / sizeof_Point]}.
Proof.
  unfold getNode3.
  destruct (orderPoints_Some i j k) as (i' & j' & k' & -> & Hset).
  intros -> H.
  repeat (apply bind_Ok in H; destruct H as (? & ? & H)).
  unfold parent_index, ptr_diff in *.
  repeat match goal with
    | E : mret ?v ≫= _ = Ok ?w |- _ =>
        change (Ok (v / sizeof_Point) = Ok w) in E; apply (f_equal
          (fun r => match r with Ok u => u | Err _ => w end)) in E; subst w
    end.
  apply (f_equal (fun r => match r with Ok u => u | Err _ => (n, s1) end)) in H.
  change ((length (m_node_objs s),
           set_nodes (<[(Some i', Some j', Some k') := Some (length (m_node_objs s))]>
                        (m_nodes s))
             (m_node_objs s ++
              [Node.mk (x (center (solveCircle x0 x1 x2)))
                 (y (center (solveCircle x0 x1 x2)))
                 ({[i' / sizeof_Point]} ∪ {[j' / sizeof_Point]} ∪ {[k' / sizeof_Point]})
                 ∅ ∅]) s) = (n, s1)) in H.
  apply pair_equal_spec in H. destruct H as [<- <-].
  eexists. split.
  - simpl. rewrite nth_error_app2 by lia. rewrite Nat.sub_diag. reflexivity.
  - exact Hset.
Qed.

(** C2 fails in the code: the pointer difference, already a position, is
    divided by [sizeof(Point)].  On [sites_obtuse] the vertex of the sites at
    positions 0, 1, 2 and the vertex of the pair at positions 1, 2 both get
    the parent set [{0}]. *)
Theorem getNode_parents_example :
  exists n3 s1 o3 n2 s2 o2,
    getNode3 (Some 0) (Some 1) (Some 2) (Implementation_for sites_obtuse) = Ok (n3, s1)
    /\ nth_error s1.(m_node_objs) n3 = Some o3
    /\ Node.parents o3 = {[0]}
    /\ Node.parents o3 <> {[0; 1; 2]}
    /\ getNode2 (Some 1) (Some 2) s1 = Ok (n2, s2)
    /\ nth_error s2.(m_node_objs) n2 = Some o2
    /\ Node.parents o2 = {[0]}
    /\ Node.parents o2 <> {[1; 2]}.
Proof.
  do 6 eexists.
  split; [vm_compute; reflexivity|].
  split; [vm_compute; reflexivity|].
  split; [vm_compute; reflexivity|].
  split; [vm_compute; discriminate|].
  split; [vm_compute; reflexivity|].
  split; [vm_compute; reflexivity|].
  split; [vm_compute; reflexivity|].
  vm_compute; discriminate.
Qed.

(** ** Events with the same key (C9) *)

(** An event whose key is neither below nor above the key of the only event
    of the queue is not stored. *)
Lemma queue_insert_equal_key (e1 e2 : CircleEvent) :
  CircleEvent_lt e2 e1 = false -> CircleEvent_lt e1 e2 = false ->
  CircleQueue.queue_insert e2 [e1] = [e1].
Proof.
  intros H21 H12. unfold CircleQueue.queue_insert, set_insert. simpl.
  unfold CircleEvent_comp. rewrite H21. simpl. rewrite H12. reflexivity.
Qed.

(** The order of the queue looks at the key only. *)
Lemma CircleEvent_lt_key (e1 e2 e1' e2' : CircleEvent) :
  event_key e1.(circle) = event_key e1'.(circle) ->
  event_key e2.(circle) = event_key e2'.(circle) ->
  CircleEvent_lt e1 e2 = CircleEvent_lt e1' e2'.
Proof. unfold CircleEvent_lt. intros -> ->. reflexivity. Qed.

(** The order of the queue is a strict order on keys. *)
#[local] Instance key_lt_trans : Transitive key_lt.
Proof. intros a b c. unfold key_lt, CircleEvent_lt. apply ltb_trans. Qed.

Lemma key_lt_irrefl_eq (a b : CircleEvent) :
  event_key a.(circle) = event_key b.(circle) -> CircleEvent_lt a b = false.
Proof. unfold CircleEvent_lt. intros ->. apply ltb_irrefl. Qed.

Lemma key_lt_asym (a b : CircleEvent) : key_lt a b -> CircleEvent_lt b a = false.
Proof. unfold key_lt, CircleEvent_lt. apply ltb_asym. Qed.

(** The position [upper_bound] finds splits the queue. *)
Lemma upper_bound_split (k : CircleEvent) (l : list CircleEvent) :
  exists l1 l2,
    l = l1 ++ l2
    /\ upper_bound CircleEvent_comp k l = Ok (length l1)
    /\ Forall (fun e => CircleEvent_lt k e = false) l1
    /\ match l2 with e :: _ => key_lt k e | [] => True end.
Proof.
  induction l as [|e l IH].
  - exists [], []. repeat split; constructor.
  - simpl.
    destruct (CircleEvent_lt k e) eqn:E.
    + exists [], (e :: l). repeat split; [constructor|exact E].
    + destruct IH as (l1 & l2 & -> & -> & F & H).
      exists (e :: l1), l2. repeat split; [constructor; assumption|exact H].
Qed.

(** What [m_queue.insert] does: nothing, or the event goes between two
    neighbours it is strictly between. *)
Lemma queue_insert_cases (k : CircleEvent) (l : list CircleEvent) :
  CircleQueue.queue_insert k l = l
  \/ exists l1 l2,
       l = l1 ++ l2
       /\ CircleQueue.queue_insert k l = l1 ++ k :: l2
       /\ match last l1 with Some p => key_lt p k | None => True end
       /\ match l2 with e :: _ => key_lt k e | [] => True end.
Proof.
  destruct (upper_bound_split k l) as (l1 & l2 & -> & U & F & H).
  unfold CircleQueue.queue_insert, set_insert. rewrite U, bind_ret_l.
  destruct l1 as [|a l1'] using rev_ind.
  - right. exists [], l2. simpl. repeat split. exact H.
  - clear IHl1'. rewrite length_app. simpl. rewrite Nat.add_1_r.
    rewrite <- app_assoc. simpl.
    rewrite nth_error_app2 by lia. rewrite Nat.sub_diag. simpl.
    destruct (CircleEvent_lt a k) eqn:E; [|left; reflexivity].
    right. exists (l1' ++ [a]), l2. rewrite <- app_assoc. simpl.
    repeat split; [|rewrite last_snoc; exact E|exact H].
    unfold insert_at.
    change (l1' ++ a :: l2) with (l1' ++ [a] ++ l2). rewrite app_assoc.
    replace (S (length l1')) with (length (l1' ++ [a]))
      by (rewrite length_app; simpl; lia).
    rewrite take_app_length, drop_app_length. rewrite <- app_assoc. reflexivity.
Qed.

(** [m_queue.insert] keeps the keys strictly increasing. *)
Lemma queue_insert_sorted (k : CircleEvent) (q : list CircleEvent) :
  queue_sorted q -> queue_sorted (CircleQueue.queue_insert k q).
Proof.
  unfold queue_sorted. intros S.
  destruct (queue_insert_cases k q) as [->|(l1 & l2 & -> & -> & Hp & Hn)]; [exact S|].
  apply StronglySorted_app in S. destruct S as (C & S1 & S2).
  apply StronglySorted_app_2.
  - intros x1 x2 H1 H2. apply elem_of_cons in H2. destruct H2 as [->|H2]; [|auto].
    destruct l1 as [|p l1' _] using rev_ind; [inversion H1|].
    rewrite last_snoc in Hp.
    apply elem_of_app in H1. destruct H1 as [H1|H1].
    + transitivity p; [|exact Hp].
      eapply StronglySorted_app_1_elem_of; [exact S1|exact H1|constructor].
    + apply list_elem_of_singleton in H1. subst. exact Hp.
  - exact S1.
  - apply StronglySorted_cons. split; [|exact S2].
    destruct l2 as [|e l2']; [constructor|].
    apply StronglySorted_cons in S2. destruct S2 as [F S2].
    constructor; [exact Hn|].
    eapply Forall_impl; [exact F|]. intros y Hy. simpl in Hy. transitivity e; assumption.
Qed.

(** A queue with strictly increasing keys has no key twice. *)
Lemma queue_sorted_keys (q : list CircleEvent) :
  queue_sorted q -> NoDup (map (fun e => event_key e.(circle)) q).
Proof.
  induction 1 as [|e q S IH F]; simpl; constructor; [|exact IH].
  intros Hin. apply list_elem_of_In, in_map_iff in Hin. destruct Hin as (e' & K & Hin).
  rewrite List.Forall_forall in F. specialize (F _ Hin).
  unfold key_lt in F. rewrite (key_lt_irrefl_eq e e') in F by (symmetry; exact K).
  discriminate.
Qed.

(** An event whose key is the key of a stored event is dropped. *)
Lemma queue_insert_same_key (q : list CircleEvent) (e1 e2 : CircleEvent) :
  queue_sorted q -> In e1 q ->
  event_key e1.(circle) = event_key e2.(circle) ->
  CircleQueue.queue_insert e2 q = q.
Proof.
  unfold queue_sorted. intros S Hin K.
  destruct (queue_insert_cases e2 q) as [->|(l1 & l2 & -> & -> & Hp & Hn)]; [reflexivity|].
  exfalso. apply StronglySorted_app in S. destruct S as (C & S1 & S2).
  assert (forall a, key_lt a e2 -> key_lt a e1) as T1
    by (unfold key_lt, CircleEvent_lt; intros a; rewrite K; auto).
  assert (forall a, key_lt e2 a -> key_lt e1 a) as T2
    by (unfold key_lt, CircleEvent_lt; intros a; rewrite K; auto).
  assert (forall a, key_lt e1 a -> a = e1 -> False) as Irr.
  { intros a H ->. unfold key_lt in H. rewrite key_lt_irrefl_eq in H by reflexivity.
    discriminate. }
  apply in_app_or in Hin. destruct Hin as [Hin|Hin].
  - destruct l1 as [|p l1' _] using rev_ind; [inversion Hin|].
    rewrite last_snoc in Hp. apply T1 in Hp.
    apply in_app_or in Hin. destruct Hin as [Hin|[->|[]]].
    + assert (key_lt e1 p) as H.
      { eapply StronglySorted_app_1_elem_of; [exact S1| |constructor].
        apply list_elem_of_In. exact Hin. }
      pose proof (key_lt_asym _ _ H) as H'. unfold key_lt in Hp. congruence.
    + exact (Irr _ Hp eq_refl).
  - destruct l2 as [|e l2']; [inversion Hin|].
    apply T2 in Hn. destruct Hin as [->|Hin]; [exact (Irr _ Hn eq_refl)|].
    apply StronglySorted_cons in S2. destruct S2 as [F _].
    rewrite List.Forall_forall in F. specialize (F _ Hin).
    assert (key_lt e1 e1) as H by (transitivity e; assumption).
    exact (Irr _ H eq_refl).
Qed.

(** [CircleQueue::insert], [pop_back] and [CircleQueue::erase] keep the
    keys strictly increasing. *)
Lemma insert_sorted (points : list Point) (q q' : list CircleEvent) (sweep : float)
    (l r : Intersection) :
  queue_sorted q -> CircleQueue.insert points q sweep l r = Ok q' -> queue_sorted q'.
Proof.
  intros S. unfold CircleQueue.insert.
  repeat match goal with
    | |- (if ?c then _ else _) = _ -> _ => destruct c
    | |- mret _ = Ok _ -> _ => intros [= <-]; auto using queue_insert_sorted
    | |- _ ≫= _ = Ok _ -> _ =>
        let H := fresh in
        intros H; apply bind_Ok in H; destruct H as (? & _ & H); revert H; cbv beta
    end.
Qed.

Lemma pop_back_sorted (q : list CircleEvent) :
  queue_sorted q -> queue_sorted (CircleQueue.pop_back q).
Proof.
  unfold queue_sorted, CircleQueue.pop_back.
  destruct q as [|x q _] using rev_ind; [auto|].
  rewrite removelast_last. apply StronglySorted_app_1_l.
Qed.

(** The scan of [erase] only removes events. *)
Lemma erase_scan_elem (end_y : float) (l r : Intersection) (q : list CircleEvent)
    (e : CircleEvent) :
  e ∈ CircleQueue.erase_scan end_y l r q -> e ∈ q.
Proof.
  induction q as [|it q IH]; simpl; [auto|].
  destruct (event_key (circle it) <? end_y)%float; [auto|].
  destruct (Intersection_eqb l (left_int it) && Intersection_eqb r (right_int it)).
  - intros H. apply elem_of_cons. auto.
  - rewrite !elem_of_cons. intros [->|H]; auto.
Qed.

Lemma erase_scan_sorted (end_y : float) (l r : Intersection)
    (q : list CircleEvent) :
  queue_sorted q -> queue_sorted (CircleQueue.erase_scan end_y l r q).
Proof.
  unfold queue_sorted. induction 1 as [|it q S IH F]; simpl; [constructor|].
  destruct (event_key (circle it) <? end_y)%float; [constructor; assumption|].
  destruct (Intersection_eqb l (left_int it) && Intersection_eqb r (right_int it));
    [exact S|].
  constructor; [exact IH|].
  apply Forall_forall. intros e He. apply erase_scan_elem in He.
  rewrite Forall_forall in F. auto.
Qed.

Lemma erase_sorted (points : list Point) (q q' : list CircleEvent)
    (l r : Intersection) :
  queue_sorted q -> CircleQueue.erase points q l r = Ok q' -> queue_sorted q'.
Proof.
  intros S. unfold CircleQueue.erase. intros H.
  apply bind_Ok in H. destruct H as (_ & _ & H). revert H.
  destruct (is_null (pt_left l) || is_null (pt_right r)); [intros [= <-]; exact S|].
  intros H.
  apply bind_Ok in H. destruct H as (pa & _ & H).
  apply bind_Ok in H. destruct H as (pb & _ & H).
  apply bind_Ok in H. destruct H as (pc & _ & H).
  apply bind_Ok in H. destruct H as (i & _ & H).
  injection H as <-.
  unfold queue_sorted in *.
  rewrite <- (take_drop i q) in S. apply StronglySorted_app in S.
  destruct S as (C & S1 & S2).
  apply StronglySorted_app_2; [|exact S1|apply erase_scan_sorted; exact S2].
  intros e1 e2 H1 H2. apply erase_scan_elem in H2. auto.
Qed.

(** Two events over different triples of [sites_equal_key] pass every
    filter of [CircleQueue::insert] on their own, have the same key [-5],
    and inserting the second into the queue that holds the first leaves the
    queue unchanged. *)
Lemma equal_key_events_example :
  exists e1 e2,
    let l1 := mkIntersection (Some 0) (Some 1) in
    let r1 := mkIntersection (Some 1) (Some 2) in
    let l2 := mkIntersection (Some 3) (Some 4) in
    let r2 := mkIntersection (Some 4) (Some 5) in
    CircleQueue.insert sites_equal_key [] (-4) l1 r1 = Ok [e1]
    /\ CircleQueue.insert sites_equal_key [] (-4) l2 r2 = Ok [e2]
    /\ e1.(left_int) = l1 /\ e1.(right_int) = r1
    /\ e2.(left_int) = l2 /\ e2.(right_int) = r2
    /\ e1 <> e2
    /\ event_key e1.(circle) = (-5)%float
    /\ event_key e2.(circle) = (-5)%float
    /\ CircleEvent_lt e1 e2 = false
    /\ CircleEvent_lt e2 e1 = false
    /\ CircleQueue.queue_insert e2 [e1] = [e1]
    /\ CircleQueue.insert sites_equal_key [e1] (-4) l2 r2 = Ok [e1].
Proof.
  do 2 eexists. cbv zeta.
  split; [vm_compute; reflexivity|].
  split; [vm_compute; reflexivity|].
  split; [reflexivity|]. split; [reflexivity|].
  split; [reflexivity|]. split; [reflexivity|].
  split; [intros E; discriminate E|].
  split; [vm_compute; reflexivity|].
  split; [vm_compute; reflexivity|].
  split; [vm_compute; reflexivity|].
  split; [vm_compute; reflexivity|].
  split; [vm_compute; reflexivity|].
  vm_compute; reflexivity.
Qed.

(** C9: the order of the queue reads the key only, so the queue never holds
    two events with the same key, and an event whose key is already there is
    dropped.  There are such events: two events over different site triples
    with equal keys, the second of which leaves the queue holding the first
    unchanged.  In general inserting an event with the key of a stored one
    returns the same queue, the order gives the same answer on events with
    the same keys, the queue starts strictly increasing in the key and
    [insert], [erase] and [pop_back] keep it so, and the keys of such a
    queue are pairwise different. *)
Theorem equal_key_event_discarded :
  (exists e1 e2,
     CircleQueue.insert sites_equal_key [] (-4)
       (mkIntersection (Some 0) (Some 1)) (mkIntersection (Some 1) (Some 2)) = Ok [e1]
     /\ CircleQueue.insert sites_equal_key [] (-4)
          (mkIntersection (Some 3) (Some 4)) (mkIntersection (Some 4) (Some 5)) = Ok [e2]
     /\ e1 <> e2
     /\ e1.(left_int) <> e2.(left_int)
     /\ event_key e1.(circle) = event_key e2.(circle)
     /\ CircleQueue.insert sites_equal_key [e1] (-4)
          (mkIntersection (Some 3) (Some 4)) (mkIntersection (Some 4) (Some 5)) = Ok [e1])
  /\ (forall q e1 e2,
        queue_sorted q -> In e1 q ->
        event_key e1.(circle) = event_key e2.(circle) ->
        CircleQueue.queue_insert e2 q = q)
  /\ (forall a b a' b',
        event_key a.(circle) = event_key a'.(circle) ->
        event_key b.(circle) = event_key b'.(circle) ->
        CircleEvent_lt a b = CircleEvent_lt a' b')
  /\ queue_sorted (m_events Implementation_init)
  /\ (forall points q q' sweep l r,
        queue_sorted q -> CircleQueue.insert points q sweep l r = Ok q' ->
        queue_sorted q')
  /\ (forall points q q' l r,
        queue_sorted q -> CircleQueue.erase points q l r = Ok q' -> queue_sorted q')
  /\ (forall q, queue_sorted q -> queue_sorted (CircleQueue.pop_back q))
  /\ (forall q, queue_sorted q -> NoDup (map (fun e => event_key e.(circle)) q)).
Proof.
  split; [|split; [|split; [|split; [|split; [|split; [|split]]]]]].
  - destruct equal_key_events_example
      as (e1 & e2 & I1 & I2 & L1 & R1 & L2 & R2 & N & K1 & K2 & _ & _ & _ & I3).
    exists e1, e2. repeat split; try assumption.
    + rewrite L1, L2. discriminate.
    + congruence.
  - exact queue_insert_same_key.
  - exact CircleEvent_lt_key.
  - constructor.
  - exact insert_sorted.
  - exact erase_sorted.
  - exact pop_back_sorted.
  - exact queue_sorted_keys.
Qed.

(** ** Adjacency of the beach line (C7) *)

(** C7 fails in the code: the new breakpoints are placed by the comparator,
    and nothing keeps them next to the arc they belong to.  In the run on
    [sites_lost_arc] the nine first iterations leave a beach line that has
    the property, with the arc of site 4 still between (0,4) and (4,5): its
    circle event, over the sites 0, 4, 5, had the key of an event already in
    the queue and was not stored.  The tenth iteration processes the event
    of the breakpoints (3,0) and (0,4); at its sweep position the breakpoint
    (4,5) is left of the circumcentre, so the new breakpoint (3,4) goes
    behind it.  [processEvent] returns normally, the entry (0,3) is followed
    by (4,5), and [compute] ends normally on that beach line. *)
Theorem lost_event_breaks_adjacency :
  exists s9 evt s10,
    compute_steps 9 sites_lost_arc = Ok (6, s9)
    /\ s9.(m_beach)
       = [mkIntersection None (Some 0); mkIntersection (Some 0) (Some 3);
          mkIntersection (Some 3) (Some 0); mkIntersection (Some 0) (Some 4);
          mkIntersection (Some 4) (Some 5); mkIntersection (Some 5) (Some 1);
          mkIntersection (Some 1) (Some 2); mkIntersection (Some 2) (Some 0);
          mkIntersection (Some 0) None]
    /\ beach_adjacent s9.(m_beach) = true
    /\ s9.(m_events) = [evt]
    /\ evt.(left_int) = mkIntersection (Some 3) (Some 0)
    /\ evt.(right_int) = mkIntersection (Some 0) (Some 4)
    /\ processEvent evt (set_events [] s9) = Ok s10
    /\ compute_step sites_lost_arc (sort_sites sites_lost_arc) 6 s9 = Ok (6, s10)
    /\ s10.(m_beach)
       = [mkIntersection None (Some 0); mkIntersection (Some 0) (Some 3);
          mkIntersection (Some 4) (Some 5); mkIntersection (Some 3) (Some 4);
          mkIntersection (Some 5) (Some 1); mkIntersection (Some 1) (Some 2);
          mkIntersection (Some 2) (Some 0); mkIntersection (Some 0) None]
    /\ beach_adjacent s10.(m_beach) = false
    /\ compute 10 sites_lost_arc = Ok s10.
Proof.
  do 3 eexists.
  split; [vm_compute; reflexivity|].
  split; [vm_compute; reflexivity|].
  split; [vm_compute; reflexivity|].
  split; [vm_compute; reflexivity|].
  split; [vm_compute; reflexivity|].
  split; [vm_compute; reflexivity|].
  split; [vm_compute; reflexivity|].
  split; [vm_compute; reflexivity|].
  split; [vm_compute; reflexivity|].
  split; [vm_compute; reflexivity|].
  vm_compute; reflexivity.
Qed.

(** The positions behind the tenth iteration: at the sweep position of the
    event the new breakpoint (3,4) is at the circumcentre, abscissa about
    [-1.72], and the breakpoint (4,5) is at about [-2.01]. *)
Lemma lost_event_positions :
  exists evt p34 p45,
    (s9 ← compute_steps 9 sites_lost_arc; CircleQueue.back s9.2.(m_events)) = Ok evt
    /\ getIntersection sites_lost_arc (to_float32 (event_key evt.(circle)))
         (mkIntersection (Some 3) (Some 4)) = Ok p34
    /\ getIntersection sites_lost_arc (to_float32 (event_key evt.(circle)))
         (mkIntersection (Some 4) (Some 5)) = Ok p45
    /\ (p45.(x) <? -2)%float = true
    /\ (-1.75 <? p34.(x))%float = true.
Proof.
  do 3 eexists.
  split; [vm_compute; reflexivity|].
  split; [vm_compute; reflexivity|].
  split; [vm_compute; reflexivity|].
  split; vm_compute; reflexivity.
Qed.

(** The event that was lost: after four iterations the queue holds the
    event of the sites 5, 4, 2; the event of the breakpoints (0,4) and (4,5)
    passes the filters of [insert], has the same key, and is not stored. *)
Lemma lost_event_same_key :
  exists s4 e1 e2 e3,
    compute_steps 4 sites_lost_arc = Ok (4, s4)
    /\ s4.(m_events) = [e1; e2]
    /\ CircleQueue.insert sites_lost_arc [] 4
         (mkIntersection (Some 0) (Some 4)) (mkIntersection (Some 4) (Some 5)) = Ok [e3]
    /\ event_key e3.(circle) = event_key e1.(circle)
    /\ CircleQueue.insert sites_lost_arc [e1] 4
         (mkIntersection (Some 0) (Some 4)) (mkIntersection (Some 4) (Some 5)) = Ok [e1].
Proof.
  do 4 eexists.
  split; [vm_compute; reflexivity|].
  split; [vm_compute; reflexivity|].
  split; [vm_compute; reflexivity|].
  split; vm_compute; reflexivity.
Qed.

(** A second way to lose the property, on three sites.  The sweep position
    is stored as [float]; the
    ordinate [2 + 7 * 2^-26] of the third site of [sites_narrowing] narrows
    to [2], at distance more than [epsilon] from the site, so the two new
    breakpoints are not at the abscissa of the site but on either side of it,
    and the existing breakpoint (B,A) at abscissa [4] lies between them.  After
    that [processPoint], which returns normally, the entry (B,D) is followed
    by (B,A). *)
Lemma narrowed_sweep_breaks_adjacency :
  exists s2 s3,
    compute_steps 2 sites_narrowing = Ok (2, s2)
    /\ beach_adjacent s2.(m_beach) = true
    /\ nth_error (sort_sites sites_narrowing) 2 = Some 2
    /\ processPoint 2 s2 = Ok s3
    /\ s3.(sweep_y) = 2%float
    /\ s3.(m_beach)
       = [mkIntersection None (Some 0); mkIntersection (Some 0) (Some 1);
          mkIntersection (Some 1) (Some 2); mkIntersection (Some 1) (Some 0);
          mkIntersection (Some 2) (Some 1); mkIntersection (Some 0) None]
    /\ beach_adjacent s3.(m_beach) = false
    /\ compute 3 sites_narrowing = Ok s3.
Proof.
  do 2 eexists.
  split; [vm_compute; reflexivity|].
  split; [vm_compute; reflexivity|].
  split; [vm_compute; reflexivity|].
  split; [vm_compute; reflexivity|].
  split; [vm_compute; reflexivity|].
  split; [vm_compute; reflexivity|].
  split; [vm_compute; reflexivity|].
  vm_compute; reflexivity.
Qed.

(** The positions behind that run: at the narrowed sweep position [2] the
    breakpoint (B,A) is at abscissa [4], the site D left of it, and the
    breakpoints (B,D) and (D,B) are on the two sides of [4]. *)
Lemma narrowed_sweep_positions :
  exists bd db,
    to_float32 0x1.000000ep+1 = 2%float
    /\ (abs (0x1.000000ep+1 - 2) <? epsilon)%float = false
    /\ getIntersection sites_narrowing 2 (mkIntersection (Some 1) (Some 0))
       = Ok (mkPoint 4 7)
    /\ getIntersection sites_narrowing 2 (mkIntersection (Some 1) (Some 2)) = Ok bd
    /\ getIntersection sites_narrowing 2 (mkIntersection (Some 2) (Some 1)) = Ok db
    /\ (bd.(x) <? 0x1.fffcp+1)%float = true
    /\ (0x1.fffcp+1 <? 4)%float = true
    /\ (4 <? db.(x))%float = true.
Proof.
  do 2 eexists.
  split; [vm_compute; reflexivity|].
  split; [vm_compute; reflexivity|].
  split; [vm_compute; reflexivity|].
  split; [vm_compute; reflexivity|].
  split; [vm_compute; reflexivity|].
  split; [vm_compute; reflexivity|].
  split; [vm_compute; reflexivity|].
  vm_compute; reflexivity.
Qed.

(** * Further properties *)

Lemma ptr_eqb_refl (a : ptr) : ptr_eqb a a = true.
Proof. apply ptr_eqb_eq. reflexivity. Qed.

Lemma ptr_eqb_sym (a b : ptr) : ptr_eqb a b = ptr_eqb b a.
Proof.
  destruct (ptr_eqb a b) eqn:E.
  - apply ptr_eqb_eq in E. subst. symmetry. apply ptr_eqb_refl.
  - destruct (ptr_eqb b a) eqn:E'; [|reflexivity].
    apply ptr_eqb_eq in E'. subst. rewrite ptr_eqb_refl in E. discriminate.
Qed.

Lemma ptr_eqb_neq (a b : ptr) : ptr_eqb a b = false <-> a <> b.
Proof.
  split.
  - intros E ->. rewrite ptr_eqb_refl in E. discriminate.
  - intros N. destruct (ptr_eqb a b) eqn:E; [|reflexivity].
    apply ptr_eqb_eq in E. contradiction.
Qed.

Ltac ptr_cases :=
  repeat match goal with
    | |- context [ptr_eqb ?a ?b] =>
        let E := fresh "E" in
        destruct (ptr_eqb a b) eqn:E;
        [apply ptr_eqb_eq in E|apply ptr_eqb_neq in E]
    | H : context [ptr_eqb ?a ?b] |- _ =>
        let E := fresh "E" in
        destruct (ptr_eqb a b) eqn:E;
        [apply ptr_eqb_eq in E|apply ptr_eqb_neq in E]
    end.

Lemma points_match_In (lhs rhs : ptr * ptr * ptr) :
  points_match lhs rhs = true <-> In lhs (perms3 rhs).
Proof.
  destruct lhs as [[l0 l1] l2], rhs as [[r0 r1] r2].
  unfold points_match, perms3. split.
  - intros H. ptr_cases; subst; simpl in *; try discriminate; tauto.
  - intros [E|[E|[E|[E|[E|[E|[]]]]]]]; inversion E; subst;
      rewrite ?ptr_eqb_refl; simpl; rewrite ?orb_true_r; try reflexivity;
      ptr_cases; subst; reflexivity.
Qed.

Lemma perms3_refl (t : ptr * ptr * ptr) : In t (perms3 t).
Proof. destruct t as [[a b] c]. simpl. auto. Qed.

Lemma perms3_sym (t u : ptr * ptr * ptr) : In t (perms3 u) -> In u (perms3 t).
Proof.
  destruct t as [[a b] c], u as [[d e] f]. simpl.
  intros [E|[E|[E|[E|[E|[E|[]]]]]]]; inversion E; subst; tauto.
Qed.

Lemma perms3_trans (t u v : ptr * ptr * ptr) :
  In t (perms3 u) -> In u (perms3 v) -> In t (perms3 v).
Proof.
  destruct t as [[a b] c], u as [[d e] f], v as [[g h] i]. simpl.
  intros [E|[E|[E|[E|[E|[E|[]]]]]]] [F|[F|[F|[F|[F|[F|[]]]]]]];
    inversion E; inversion F; subst; tauto.
Qed.

(** X1: [points_match] decides whether two triples hold the same pointers in some
    order; it is an equivalence on triples. *)
Theorem points_match_permutation :
  (forall lhs rhs, points_match lhs rhs = true <-> In lhs (perms3 rhs))
  /\ (forall t, points_match t t = true)
  /\ (forall t u, points_match t u = points_match u t)
  /\ (forall t u v, points_match t u = true -> points_match u v = true ->
      points_match t v = true).
Proof.
  split; [exact points_match_In|]. split; [|split].
  - intros t. apply points_match_In, perms3_refl.
  - intros t u. destruct (points_match t u) eqn:E, (points_match u t) eqn:F;
      try reflexivity.
    + apply points_match_In, perms3_sym, points_match_In in E. congruence.
    + apply points_match_In, perms3_sym, points_match_In in F. congruence.
  - intros t u v H1 H2. apply points_match_In.
    apply points_match_In in H1, H2. eapply perms3_trans; eassumption.
Qed.

(** X2: [orderPoints] returns its three pointers in ascending address order, the
    null pointer first; the result is one of the six orders of the argument,
    is the same for all of them, and is left alone by a second call. *)
Theorem orderPoints_sorted (t : ptr * ptr * ptr) :
  ptr_gtb (orderPoints t).1.1 (orderPoints t).1.2 = false
  /\ ptr_gtb (orderPoints t).1.2 (orderPoints t).2 = false
  /\ In (orderPoints t) (perms3 t)
  /\ (forall t', In t' (perms3 t) -> orderPoints t' = orderPoints t)
  /\ orderPoints (orderPoints t) = orderPoints t.
Proof.
  assert (In (orderPoints t) (perms3 t)) as HP.
  { destruct t as [[a b] c]. unfold orderPoints.
    repeat match goal with
      | |- context [if ?c then _ else _] => destruct c; cbn
      end; tauto. }
  split; [|split; [|split; [exact HP|split]]].
  - destruct t as [[a b] c]. unfold orderPoints.
    destruct (ptr_gtb a b) eqn:E1.
    + destruct (ptr_gtb a c) eqn:E2.
      * destruct (ptr_gtb b c) eqn:E3; cbn.
        -- destruct (ptr_gtb_cases b c) as [(? & ? & ?)|[(? & ? & ?)|(? & ? & ?)]]; congruence.
        -- exact E3.
      * destruct (ptr_gtb b a) eqn:E3; cbn.
        -- destruct (ptr_gtb_cases a b) as [(? & ? & ?)|[(? & ? & ?)|(? & ? & ?)]]; congruence.
        -- exact E3.
    + destruct (ptr_gtb b c) eqn:E2.
      * destruct (ptr_gtb a c) eqn:E3; cbn.
        -- destruct (ptr_gtb_cases a c) as [(? & ? & ?)|[(? & ? & ?)|(? & ? & ?)]]; congruence.
        -- exact E3.
      * destruct (ptr_gtb a b) eqn:E3; cbn; [discriminate|exact E3].
  - destruct t as [[a b] c]. unfold orderPoints.
    assert (T := ptr_gtb_trans).
    destruct (ptr_gtb_cases a b) as [(E1 & E1' & N1)|[(E1 & E1' & N1)|(E1 & E1' & N1)]];
    destruct (ptr_gtb_cases b c) as [(E2 & E2' & N2)|[(E2 & E2' & N2)|(E2 & E2' & N2)]];
    destruct (ptr_gtb_cases a c) as [(E3 & E3' & N3)|[(E3 & E3' & N3)|(E3 & E3' & N3)]];
    subst;
    repeat match goal with
      | H : ?u = ?v |- context [?u] => rewrite H; cbn
      end;
    try assumption; try reflexivity; try congruence;
    try (pose proof (T _ _ _ E1 E2); congruence);
    try (pose proof (T _ _ _ E2' E1'); congruence);
    try (pose proof (T _ _ _ E1' E3); congruence);
    try (pose proof (T _ _ _ E3' E1); congruence);
    try (pose proof (T _ _ _ E3 E2'); congruence);
    try (pose proof (T _ _ _ E2 E3'); congruence).
  - intros t'. apply orderPoints_perm.
  - apply orderPoints_perm. exact HP.
Qed.

(** ** More on comparisons of binary64 numbers *)

Lemma leb_cases (a b : float) :
  (a <=? b)%float = true -> (a <? b)%float = true \/ (b <=? a)%float = true.
Proof.
  rewrite !leb_spec, ltb_spec. unfold SFleb, SFltb.
  rewrite (SFcompare_antisym (Prim2SF a) (Prim2SF b)).
  destruct (SFcompare (Prim2SF a) (Prim2SF b)) as [[]|]; simpl; auto.
Qed.

Lemma leb_false_ltb_false (a b : float) :
  (a <=? b)%float = false -> (a <? b)%float = false.
Proof.
  intros H. destruct (a <? b)%float eqn:E; [|reflexivity].
  apply ltb_leb in E. congruence.
Qed.

(** The comparison of the two signs of a pair of sites. *)
Lemma getSign_pts_ltb (pa pb : Point) :
  (getSign_pts pa pb <? getSign_pts pb pa)%float = (pb.(y) <? pa.(y))%float.
Proof.
  unfold getSign_pts.
  destruct (pa.(y) <=? pb.(y))%float eqn:E1, (pb.(y) <=? pa.(y))%float eqn:E2.
  - change (1 <? 1)%float with false. symmetry.
    destruct (pb.(y) <? pa.(y))%float eqn:E; [|reflexivity].
    apply ltb_not_leb in E. congruence.
  - change (1 <? -1)%float with false. symmetry. apply leb_false_ltb_false, E2.
  - change (-1 <? 1)%float with true. symmetry.
    destruct (leb_cases _ _ E2) as [H|H]; [exact H|congruence].
  - change (-1 <? -1)%float with false. symmetry. apply leb_false_ltb_false, E2.
Qed.

(** ** The order of the beach line *)

(** X3: An intersection is never before itself, whatever its pointers are: the
    comparison is decided before any site is read. *)
Theorem BeachCompare_irreflexive (points : list Point) (sweep : float)
    (a : Intersection) :
  BeachCompare points sweep a a = Ok false.
Proof.
  destruct a as [[l|] [r|]]; unfold BeachCompare; cbn; try reflexivity.
  rewrite !Nat.eqb_refl. reflexivity.
Qed.

(** X4: The two ends of the beach line: the entry without a left site is before
    every entry that has one, the entry without a right site is after every
    entry that has one, and none of these comparisons reads a site or the
    sweep position. *)
Theorem BeachCompare_sentinels (points : list Point) (sweep : float)
    (a b l r : nat) (l' r' : ptr) :
  BeachCompare points sweep (mkIntersection None (Some a)) (mkIntersection (Some l) r')
  = Ok true
  /\ BeachCompare points sweep (mkIntersection (Some l) r') (mkIntersection None (Some a))
     = Ok false
  /\ BeachCompare points sweep (mkIntersection l' (Some r)) (mkIntersection (Some b) None)
     = Ok true
  /\ BeachCompare points sweep (mkIntersection (Some b) None) (mkIntersection l' (Some r))
     = Ok false.
Proof.
  repeat split; unfold BeachCompare; cbn;
    try destruct r' as [?|]; try destruct l' as [?|]; reflexivity.
Qed.

Lemma BeachCompare_swapped_eq (points : list Point) (sweep : float) (a b : nat)
    (pa pb : Point) :
  nth_error points a = Some pa ->
  nth_error points b = Some pb ->
  BeachCompare points sweep (mkIntersection (Some a) (Some b))
    (mkIntersection (Some b) (Some a))
  = Ok (pb.(y) <? pa.(y))%float.
Proof.
  intros Ha Hb. unfold BeachCompare. cbn.
  destruct (Nat.eqb a b) eqn:E.
  - apply Nat.eqb_eq in E. subst b. rewrite Nat.eqb_refl. cbn.
    assert (pb = pa) by congruence. subst. rewrite ltb_irrefl. reflexivity.
  - rewrite (Nat.eqb_sym b a), E, !Nat.eqb_refl. cbn.
    unfold getSign. cbn. rewrite Ha, Hb. cbn.
    rewrite getSign_pts_ltb. reflexivity.
Qed.

(** X5: The two breakpoints between the arcs of two sites: [(a, b)] is before
    [(b, a)] exactly when site [b] is strictly below site [a]; the sweep
    position plays no role. *)
Theorem BeachCompare_swapped (points : list Point) (sweep : float) (a b : nat)
    (pa pb : Point) :
  nth_error points a = Some pa ->
  nth_error points b = Some pb ->
  BeachCompare points sweep (mkIntersection (Some a) (Some b))
    (mkIntersection (Some b) (Some a))
  = Ok (pb.(y) <? pa.(y))%float.
Proof. apply BeachCompare_swapped_eq. Qed.

Lemma BeachCompare_swapped_witness :
  BeachCompare sites_obtuse 0 (mkIntersection (Some 1) (Some 0))
    (mkIntersection (Some 0) (Some 1))
  = Ok true.
Proof.
  exact (BeachCompare_swapped sites_obtuse 0 1 0 (mkPoint 0 5) (mkPoint (-4) 3)
           eq_refl eq_refl).
Defined.

(** ** Boundaries *)

Lemma fmin_swap_ltb (u v : float) : (fmin u v <? fmin v u)%float = false.
Proof.
  unfold fmin.
  destruct (v <? u)%float eqn:E1.
  - rewrite (ltb_asym _ _ E1). apply ltb_irrefl.
  - destruct (u <? v)%float eqn:E2; [apply ltb_irrefl|exact E2].
Qed.

(** X7: Equality of boundaries looks at the two starting sites only, in either
    order: it is an equivalence, and two equal boundaries are never ordered
    by [operator<]. *)
Theorem Boundary_eqb_equivalence :
  (forall a, Boundary_eqb a a = true)
  /\ (forall a b, Boundary_eqb a b = Boundary_eqb b a)
  /\ (forall a b c, Boundary_eqb a b = true -> Boundary_eqb b c = true ->
      Boundary_eqb a c = true)
  /\ (forall a b c d, Boundary_eqb (mkBoundary a b c) (mkBoundary b a d) = true)
  /\ (forall points a b, Boundary_eqb a b = true -> Boundary_lt points a b <> Ok true).
Proof.
  repeat split.
  - intros [a b c]. unfold Boundary_eqb. cbn. rewrite !ptr_eqb_refl. reflexivity.
  - intros [a b c] [d e f]. unfold Boundary_eqb. cbn.
    rewrite (ptr_eqb_sym d a), (ptr_eqb_sym e b), (ptr_eqb_sym d b), (ptr_eqb_sym e a).
    destruct (ptr_eqb a d), (ptr_eqb b e), (ptr_eqb a e), (ptr_eqb b d); reflexivity.
  - intros [a b c] [d e f] [g h i]. unfold Boundary_eqb. cbn.
    intros H1 H2. ptr_cases; subst; cbn in *; try discriminate; try reflexivity;
      congruence.
  - intros a b c d. unfold Boundary_eqb. cbn. rewrite !ptr_eqb_refl.
    apply orb_true_r.
  - intros points [a b c] [d e f]. unfold Boundary_eqb, Boundary_lt. cbn.
    intros H L.
    destruct (deref points a) as [pa|] eqn:Da; [|discriminate].
    destruct (deref points b) as [pb|] eqn:Db; [|discriminate].
    cbn in L.
    assert ((d = a /\ e = b) \/ (d = b /\ e = a)) as [[-> ->]|[-> ->]].
    { ptr_cases; subst; cbn in *; try discriminate; auto. }
    + rewrite Da, Db in L. cbn in L. rewrite ltb_irrefl in L. discriminate.
    + rewrite Da, Db in L. cbn in L. rewrite fmin_swap_ltb in L. discriminate.
Qed.

Lemma Intersection_eqb_eq (a b : Intersection) : Intersection_eqb a b = true <-> a = b.
Proof.
  unfold Intersection_eqb. rewrite andb_true_iff, !ptr_eqb_eq.
  destruct a, b; simpl. split; [intros [-> ->]; reflexivity|intros E; inversion E; auto].
Qed.

Lemma Intersection_eqb_refl (a : Intersection) : Intersection_eqb a a = true.
Proof. apply Intersection_eqb_eq. reflexivity. Qed.

(** What a returning call of [CircleQueue::insert] did: nothing, or
    [m_queue.insert] of the event of the three sites, which is not above the
    sweep line. *)
Lemma insert_cases (points : list Point) (q q' : list CircleEvent) (sweep : float)
    (l r : Intersection) :
  CircleQueue.insert points q sweep l r = Ok q' ->
  q' = q
  \/ exists a b c,
       deref points l.(pt_left) = Ok a
       /\ deref points l.(pt_right) = Ok b
       /\ deref points r.(pt_right) = Ok c
       /\ is_null r.(pt_left) = false
       /\ (sweep <? event_key (solveCircle a b c))%float = false
       /\ q' = CircleQueue.queue_insert (mkCircleEvent l r (solveCircle a b c)) q.
Proof.
  unfold CircleQueue.insert.
  destruct (is_null (pt_left l)); [intros [= <-]; auto|].
  destruct (is_null (pt_right r)); [intros [= <-]; auto|].
  match goal with |- (if ?c then _ else _) = _ -> _ => destruct c end;
    [intros [= <-]; auto|].
  intros H.
  apply bind_Ok in H. destruct H as (_ & _ & H).
  apply bind_Ok in H. destruct H as (_ & _ & H).
  apply bind_Ok in H. destruct H as (u & Hn & H).
  apply assert_Ok, negb_true_iff in Hn.
  apply bind_Ok in H. destruct H as (_ & _ & H).
  apply bind_Ok in H. destruct H as (a & Da & H).
  apply bind_Ok in H. destruct H as (b & Db & H).
  apply bind_Ok in H. destruct H as (c & Dc & H).
  cbv zeta in H. cbn [circle] in H.
  destruct (sweep <? event_key (solveCircle a b c))%float eqn:S;
    [injection H as <-; auto|].
  apply bind_Ok in H. destruct H as (pl & _ & H).
  apply bind_Ok in H. destruct H as (pr & _ & H).
  match type of H with (if ?c then _ else _) = _ => destruct c end;
    injection H as <-; [auto|].
  right. exists a, b, c. auto 10.
Qed.

(** X8: An insertion keeps every event of the queue in its place; it stores at
    most one more, the event of the two breakpoints with the circle through
    their three sites, strictly between the keys of its new neighbours, and
    only when that circle does not reach above the sweep line. *)
Theorem insert_adds_at_most_one (points : list Point) (q q' : list CircleEvent)
    (sweep : float) (l r : Intersection) :
  CircleQueue.insert points q sweep l r = Ok q' ->
  q' = q
  \/ exists l1 l2 a b c,
       let e := mkCircleEvent l r (solveCircle a b c) in
       q = l1 ++ l2
       /\ q' = l1 ++ e :: l2
       /\ deref points l.(pt_left) = Ok a
       /\ deref points l.(pt_right) = Ok b
       /\ deref points r.(pt_right) = Ok c
       /\ (sweep <? event_key e.(circle))%float = false
       /\ match last l1 with Some p => key_lt p e | None => True end
       /\ match l2 with n :: _ => key_lt e n | [] => True end.
Proof.
  intros H. apply insert_cases in H.
  destruct H as [->|(a & b & c & Da & Db & Dc & _ & S & ->)]; [auto|].
  destruct (queue_insert_cases (mkCircleEvent l r (solveCircle a b c)) q)
    as [->|(l1 & l2 & E & -> & Hp & Hn)]; [auto|].
  right. exists l1, l2, a, b, c. cbv zeta. auto 10.
Qed.

Lemma insert_adds_at_most_one_witness :
  let l := mkIntersection (Some 0) (Some 1) in
  let r := mkIntersection (Some 1) (Some 2) in
  let e0 := mkCircleEvent l r (solveCircle (mkPoint (-3) 4) (mkPoint 3 4) (mkPoint 3 (-4))) in
  [e0] = []
  \/ exists l1 l2 a b c,
       let e := mkCircleEvent l r (solveCircle a b c) in
       [] = l1 ++ l2
       /\ [e0] = l1 ++ e :: l2
       /\ deref sites_equal_key l.(pt_left) = Ok a
       /\ deref sites_equal_key l.(pt_right) = Ok b
       /\ deref sites_equal_key r.(pt_right) = Ok c
       /\ (-4 <? event_key e.(circle))%float = false
       /\ match last l1 with Some p => key_lt p e | None => True end
       /\ match l2 with n :: _ => key_lt e n | [] => True end.
Proof.
  intros l r e0.
  apply (insert_adds_at_most_one sites_equal_key [] [e0] (-4) l r).
  vm_compute. reflexivity.
Defined.

(** The loop of [erase] removes at most one event, one that carries the two
    breakpoints. *)
Lemma erase_scan_cases (end_y : float) (l r : Intersection) (q : list CircleEvent) :
  CircleQueue.erase_scan end_y l r q = q
  \/ exists l1 e l2,
       q = l1 ++ e :: l2 /\ CircleQueue.erase_scan end_y l r q = l1 ++ l2
       /\ e.(left_int) = l /\ e.(right_int) = r.
Proof.
  induction q as [|it q IH]; simpl; [auto|].
  destruct (event_key (circle it) <? end_y)%float; [auto|].
  destruct (Intersection_eqb l (left_int it) && Intersection_eqb r (right_int it)) eqn:E.
  - right. apply andb_true_iff in E. destruct E as [E1 E2].
    apply Intersection_eqb_eq in E1, E2. exists [], it, q. auto.
  - destruct IH as [->|(l1 & e & l2 & -> & -> & H1 & H2)]; [auto|].
    right. exists (it :: l1), e, l2. auto.
Qed.

Lemma erase_cases (points : list Point) (q q' : list CircleEvent)
    (l r : Intersection) :
  CircleQueue.erase points q l r = Ok q' ->
  q' = q
  \/ exists l1 e l2,
       q = l1 ++ e :: l2 /\ q' = l1 ++ l2 /\ e.(left_int) = l /\ e.(right_int) = r.
Proof.
  unfold CircleQueue.erase. intros H.
  apply bind_Ok in H. destruct H as (_ & _ & H). revert H.
  destruct (is_null (pt_left l) || is_null (pt_right r)); [intros [= <-]; auto|].
  intros H.
  apply bind_Ok in H. destruct H as (pa & _ & H).
  apply bind_Ok in H. destruct H as (pb & _ & H).
  apply bind_Ok in H. destruct H as (pc & _ & H).
  apply bind_Ok in H. destruct H as (i & _ & H).
  injection H as <-.
  match goal with
  | |- context [CircleQueue.erase_scan ?y l r ?t] =>
      destruct (erase_scan_cases y l r t) as [->|(l1 & e & l2 & E & -> & H1 & H2)]
  end.
  - left. apply take_drop.
  - right. exists (take i q ++ l1), e, l2.
    rewrite <- !app_assoc, <- E, take_drop. auto.
Qed.

(** X9: [erase] removes at most one event, and only an event stored for the two
    breakpoints it was called with; every other event stays in its place. *)
Theorem erase_removes_at_most_one (points : list Point) (q q' : list CircleEvent)
    (l r : Intersection) :
  CircleQueue.erase points q l r = Ok q' ->
  q' = q
  \/ exists l1 e l2,
       q = l1 ++ e :: l2 /\ q' = l1 ++ l2 /\ e.(left_int) = l /\ e.(right_int) = r.
Proof. apply erase_cases. Qed.

(** In a queue with strictly increasing keys, [lower_bound] of a key that is
    stored is the position of the event with that key. *)
Lemma lower_bound_cons (d a : CircleEvent) (l : list CircleEvent) :
  lower_bound CircleEvent_comp d (a :: l)
  = if CircleEvent_lt a d
    then i ← lower_bound CircleEvent_comp d l; mret (S i)
    else mret 0.
Proof. reflexivity. Qed.

Lemma lower_bound_stored (d e : CircleEvent) (l1 l2 : list CircleEvent) :
  queue_sorted (l1 ++ e :: l2) ->
  event_key d.(circle) = event_key e.(circle) ->
  lower_bound CircleEvent_comp d (l1 ++ e :: l2) = Ok (length l1).
Proof.
  intros S K. induction l1 as [|a l1 IH].
  - cbn [app length]. rewrite lower_bound_cons.
    rewrite (key_lt_irrefl_eq e d) by (symmetry; exact K). reflexivity.
  - cbn [app length] in *. apply StronglySorted_cons in S. destruct S as [F S].
    rewrite lower_bound_cons.
    assert (key_lt a e) as Hae.
    { rewrite Forall_forall in F. apply F. apply elem_of_app. right. left. }
    rewrite (CircleEvent_lt_key a d a e eq_refl K). rewrite Hae.
    rewrite (IH S). reflexivity.
Qed.

(** What [erase] does to the queue an insertion has just grown. *)
Lemma erase_after_insert (points : list Point) (q q' : list CircleEvent)
    (sweep : float) (l r : Intersection) :
  queue_sorted q ->
  CircleQueue.insert points q sweep l r = Ok q' ->
  q' <> q ->
  exists a b c,
    deref points l.(pt_left) = Ok a
    /\ deref points l.(pt_right) = Ok b
    /\ deref points r.(pt_right) = Ok c
    /\ CircleQueue.erase points q' l r
       = Ok (if (event_key (solveCircle a b c)
                 <? to_float32 (event_key (solveCircle a b c)))%float
             then q' else q).
Proof.
  intros S H N.
  apply insert_cases in H.
  destruct H as [->|(a & b & c & Da & Db & Dc & _ & _ & ->)]; [contradiction|].
  exists a, b, c. repeat split; try assumption.
  pose proof (queue_insert_sorted (mkCircleEvent l r (solveCircle a b c)) q S) as S'.
  destruct (queue_insert_cases (mkCircleEvent l r (solveCircle a b c)) q)
    as [E|(l1 & l2 & -> & E & _ & _)]; [contradiction|].
  rewrite E in *. clear E N.
  unfold CircleQueue.erase.
  assert (is_null (pt_left l) = false) as ->
    by (destruct (pt_left l); [reflexivity|discriminate]).
  assert (is_null (pt_right l) = false) as ->
    by (destruct (pt_right l); [reflexivity|discriminate]).
  assert (is_null (pt_right r) = false) as ->
    by (destruct (pt_right r); [reflexivity|discriminate]).
  simpl. rewrite Da, Db, Dc. simpl.
  erewrite (lower_bound_stored _ (mkCircleEvent l r (solveCircle a b c)) l1 l2 S');
    [|reflexivity].
  simpl. rewrite take_app_length, drop_app_length. simpl.
  destruct (event_key (solveCircle a b c) <? to_float32 (event_key (solveCircle a b c)))%float.
  - reflexivity.
  - rewrite !Intersection_eqb_refl. reflexivity.
Qed.

(** X10: Insertion followed by [erase] with the same two breakpoints gives the
    queue back, provided the key of the event is not below its own rounding
    to binary32 (the precision of [end_y] in [erase]). *)
Theorem insert_erase_round_trip (points : list Point) (q q' : list CircleEvent)
    (sweep : float) (l r : Intersection) (a b c : Point) :
  queue_sorted q ->
  CircleQueue.insert points q sweep l r = Ok q' ->
  q' <> q ->
  deref points l.(pt_left) = Ok a ->
  deref points l.(pt_right) = Ok b ->
  deref points r.(pt_right) = Ok c ->
  (event_key (solveCircle a b c) <? to_float32 (event_key (solveCircle a b c)))%float
  = false ->
  CircleQueue.erase points q' l r = Ok q.
Proof.
  intros S H N Da Db Dc R.
  destruct (erase_after_insert points q q' sweep l r S H N)
    as (a' & b' & c' & Da' & Db' & Dc' & E).
  assert (a' = a) by congruence. assert (b' = b) by congruence.
  assert (c' = c) by congruence. subst. rewrite R in E. exact E.
Qed.

Lemma insert_erase_round_trip_witness :
  let l := mkIntersection (Some 0) (Some 1) in
  let r := mkIntersection (Some 1) (Some 2) in
  let e := mkCircleEvent l r (solveCircle (mkPoint (-3) 4) (mkPoint 3 4) (mkPoint 3 (-4))) in
  CircleQueue.erase sites_equal_key [e] l r = Ok [].
Proof.
  intros l r e.
  apply (insert_erase_round_trip sites_equal_key [] [e] (-4) l r
           (mkPoint (-3) 4) (mkPoint 3 4) (mkPoint 3 (-4))).
  - constructor.
  - vm_compute. reflexivity.
  - discriminate.
  - reflexivity.
  - reflexivity.
  - reflexivity.
  - vm_compute. reflexivity.
Defined.

(** X11: [erase] compares the keys with [end_y], a [float]: when the key of the
    event just stored is below its own rounding to binary32, the loop of
    [erase] stops at that event without removing it, and the queue is
    returned as it is. *)
Theorem erase_misses_rounded_up_key (points : list Point) (q q' : list CircleEvent)
    (sweep : float) (l r : Intersection) (a b c : Point) :
  queue_sorted q ->
  CircleQueue.insert points q sweep l r = Ok q' ->
  q' <> q ->
  deref points l.(pt_left) = Ok a ->
  deref points l.(pt_right) = Ok b ->
  deref points r.(pt_right) = Ok c ->
  (event_key (solveCircle a b c) <? to_float32 (event_key (solveCircle a b c)))%float
  = true ->
  CircleQueue.erase points q' l r = Ok q'.
Proof.
  intros S H N Da Db Dc R.
  destruct (erase_after_insert points q q' sweep l r S H N)
    as (a' & b' & c' & Da' & Db' & Dc' & E).
  assert (a' = a) by congruence. assert (b' = b) by congruence.
  assert (c' = c) by congruence. subst. rewrite R in E. exact E.
Qed.

Lemma erase_misses_rounded_up_key_witness :
  let l := mkIntersection (Some 0) (Some 1) in
  let r := mkIntersection (Some 1) (Some 2) in
  let e := mkCircleEvent l r (solveCircle (mkPoint 0 0) (mkPoint 1 3) (mkPoint 3 0)) in
  CircleQueue.erase sites_rounding [e] l r = Ok [e].
Proof.
  intros l r e.
  apply (erase_misses_rounded_up_key sites_rounding [] [e] 0 l r
           (mkPoint 0 0) (mkPoint 1 3) (mkPoint 3 0)).
  - constructor.
  - vm_compute. reflexivity.
  - discriminate.
  - reflexivity.
  - reflexivity.
  - reflexivity.
  - vm_compute. reflexivity.
Defined.



Lemma erase_removes_at_most_one_witness :
  let l := mkIntersection (Some 0) (Some 1) in
  let r := mkIntersection (Some 1) (Some 2) in
  let e := mkCircleEvent l r (solveCircle (mkPoint (-3) 4) (mkPoint 3 4) (mkPoint 3 (-4))) in
  [] = [e]
  \/ exists l1 e' l2,
       [e] = l1 ++ e' :: l2 /\ [] = l1 ++ l2 /\ e'.(left_int) = l /\ e'.(right_int) = r.
Proof.
  intros l r e.
  apply (erase_removes_at_most_one sites_equal_key [e] [] l r).
  vm_compute. reflexivity.
Defined.

Lemma beach_tail_split (l : list Intersection) :
  beach_tail l = true <->
  exists mid b, l = mid ++ [mkIntersection (Some b) None]
                /\ Forall (fun e => is_inner e = true) mid.
Proof.
  induction l as [|e l IH]; simpl.
  - split; [discriminate|]. intros (mid & b & E & _). destruct mid; discriminate.
  - destruct l as [|e' l'].
    + split.
      * destruct e as [[a|] [b|]]; simpl; try discriminate. intros _.
        exists [], a. split; [reflexivity|constructor].
      * intros (mid & b & E & F). destruct mid as [|m mid'].
        -- inversion E. reflexivity.
        -- inversion E. destruct mid'; discriminate.
    + rewrite andb_true_iff, IH. split.
      * intros (I & mid & b & E & F). exists (e :: mid), b. rewrite E.
        split; [reflexivity|constructor; assumption].
      * intros (mid & b & E & F). destruct mid as [|m mid']; [inversion E|].
        inversion E; subst. inversion F; subst. split; [assumption|].
        exists mid', b. split; [congruence|assumption].
Qed.

Lemma beach_ends_split (l : list Intersection) :
  beach_ends l = true <->
  l = []
  \/ exists a mid b,
       l = mkIntersection None (Some a) :: mid ++ [mkIntersection (Some b) None]
       /\ Forall (fun e => is_inner e = true) mid.
Proof.
  destruct l as [|e l]; simpl.
  - split; auto.
  - rewrite andb_true_iff, beach_tail_split. split.
    + intros (H & mid & b & -> & F). destruct e as [[?|] [a|]]; try discriminate.
      right. exists a, mid, b. auto.
    + intros [H|(a & mid & b & E & F)]; [discriminate|].
      inversion E; subst. split; [reflexivity|]. eauto.
Qed.

Lemma is_inner_Some (e : Intersection) :
  is_inner e = true <-> exists a b, e = mkIntersection (Some a) (Some b).
Proof.
  destruct e as [[a|] [b|]]; simpl; split; try discriminate; eauto;
    intros (? & ? & E); discriminate.
Qed.

(** *** Comparisons with the two ends *)

Lemma BeachCompare_left_end_lt points sweep a l r' :
  BeachCompare points sweep (mkIntersection None (Some a)) (mkIntersection (Some l) r')
  = Ok true.
Proof. unfold BeachCompare; cbn. destruct r'; reflexivity. Qed.

Lemma BeachCompare_lt_left_end points sweep a l r' :
  BeachCompare points sweep (mkIntersection (Some l) r') (mkIntersection None (Some a))
  = Ok false.
Proof. unfold BeachCompare; cbn. destruct r'; reflexivity. Qed.

Lemma BeachCompare_lt_right_end points sweep b l' r :
  BeachCompare points sweep (mkIntersection l' (Some r)) (mkIntersection (Some b) None)
  = Ok true.
Proof. unfold BeachCompare; cbn. destruct l'; reflexivity. Qed.

Lemma BeachCompare_right_end_lt points sweep b l' r :
  BeachCompare points sweep (mkIntersection (Some b) None) (mkIntersection l' (Some r))
  = Ok false.
Proof. unfold BeachCompare; cbn. destruct l'; reflexivity. Qed.

(** *** Searches of a sequence *)

Section Positions.
Context {A : Type} (comp : A -> A -> result bool).

Lemma lower_bound_cons_eq (k e : A) (l : list A) :
  lower_bound comp k (e :: l)
  = (b ← comp e k; if (b : bool) then i ← lower_bound comp k l; mret (S i) else mret 0).
Proof. reflexivity. Qed.

Lemma upper_bound_cons_eq (k e : A) (l : list A) :
  upper_bound comp k (e :: l)
  = (b ← comp k e; if (b : bool) then mret 0 else i ← upper_bound comp k l; mret (S i)).
Proof. reflexivity. Qed.

Lemma lower_bound_le (k : A) (l : list A) (i : nat) :
  lower_bound comp k l = Ok i -> i <= length l.
Proof.
  revert i. induction l as [|e l IH]; intros i; simpl.
  - intros [= <-]. lia.
  - intros H. apply bind_Ok in H. destruct H as ([] & _ & H).
    + apply bind_Ok in H. destruct H as (j & Hj & H). injection H as <-.
      specialize (IH _ Hj). lia.
    + injection H as <-. lia.
Qed.

Lemma upper_bound_le (k : A) (l : list A) (i : nat) :
  upper_bound comp k l = Ok i -> i <= length l.
Proof.
  revert i. induction l as [|e l IH]; intros i; simpl.
  - intros [= <-]. lia.
  - intros H. apply bind_Ok in H. destruct H as ([] & _ & H).
    + injection H as <-. lia.
    + apply bind_Ok in H. destruct H as (j & Hj & H). injection H as <-.
      specialize (IH _ Hj). lia.
Qed.

(** A last element the key is not after stops [lower_bound]; a last element
    after the key stops [upper_bound]. *)
Lemma lower_bound_before_last (k last : A) (l : list A) (i : nat) :
  comp last k = Ok false ->
  lower_bound comp k (l ++ [last]) = Ok i -> i <= length l.
Proof.
  intros Hl. revert i. induction l as [|e l IH]; intros i; simpl.
  - rewrite Hl. simpl. intros [= <-]. lia.
  - intros H. apply bind_Ok in H. destruct H as ([] & _ & H).
    + apply bind_Ok in H. destruct H as (j & Hj & H). injection H as <-.
      specialize (IH _ Hj). lia.
    + injection H as <-. lia.
Qed.

Lemma upper_bound_before_last (k last : A) (l : list A) (i : nat) :
  comp k last = Ok true ->
  upper_bound comp k (l ++ [last]) = Ok i -> i <= length l.
Proof.
  intros Hl. revert i. induction l as [|e l IH]; intros i; simpl.
  - rewrite Hl. simpl. intros [= <-]. lia.
  - intros H. apply bind_Ok in H. destruct H as ([] & _ & H).
    + injection H as <-. lia.
    + apply bind_Ok in H. destruct H as (j & Hj & H). injection H as <-.
      specialize (IH _ Hj). lia.
Qed.

(** What a returning insertion did. *)
Lemma set_insert_cases (k : A) (l l' : list A) (pos : nat) (success : bool) :
  set_insert comp k l = Ok (l', pos, success) ->
  (success = false /\ l' = l)
  \/ (success = true /\ upper_bound comp k l = Ok pos /\ l' = insert_at pos k l).
Proof.
  unfold set_insert. intros H. apply bind_Ok in H. destruct H as (u & Hu & H).
  destruct u as [|j].
  - injection H as <- <- <-. right. auto.
  - destruct (nth_error l j) as [e|]; [|discriminate].
    apply bind_Ok in H. destruct H as ([] & _ & H); injection H as <- <- <-; auto.
Qed.

Variable P : A -> Prop.
Hypothesis comp_defined : forall a b, P a -> P b -> defined (comp a b).

Lemma upper_bound_defined (k : A) (l : list A) :
  P k -> Forall P l -> defined (upper_bound comp k l).
Proof.
  intros Hk. induction 1 as [|e l He Hl IH]; simpl; [exact I|].
  apply defined_bind; [auto|]. intros [] _; [exact I|].
  apply defined_bind; [exact IH|]. intros; exact I.
Qed.

Lemma set_insert_defined (k : A) (l : list A) :
  P k -> Forall P l -> defined (set_insert comp k l).
Proof.
  intros Hk Hl. unfold set_insert.
  apply defined_bind; [apply upper_bound_defined; assumption|].
  intros [|j] Hu; [exact I|].
  apply upper_bound_le in Hu.
  destruct (nth_error l j) as [e|] eqn:E.
  - apply defined_bind.
    + apply comp_defined; [|assumption].
      rewrite Forall_forall in Hl. apply Hl, list_elem_of_In.
      eapply nth_error_In; eassumption.
    + intros [] _; exact I.
  - apply nth_error_None in E. lia.
Qed.

End Positions.

Lemma ensures_ret {A} (a : A) (Q : A -> Prop) : Q a -> ensures (mret a) Q.
Proof. intros H. exact H. Qed.

Lemma ensures_bind {A B} (m : result A) (k : A -> result B) (Q1 : A -> Prop)
    (Q2 : B -> Prop) :
  ensures m Q1 -> (forall a, Q1 a -> ensures (k a) Q2) -> ensures (m ≫= k) Q2.
Proof. destruct m as [a|[]]; simpl; auto; tauto. Qed.

Lemma ensures_assert (c : bool) : ensures (assert c) (fun _ => c = true).
Proof. destruct c; simpl; auto. Qed.

Lemma ensures_weaken {A} (r : result A) (Q1 Q2 : A -> Prop) :
  ensures r Q1 -> (forall a, Q1 a -> Q2 a) -> ensures r Q2.
Proof. destruct r as [a|[]]; simpl; auto. Qed.

Lemma ensures_defined {A} (r : result A) (Q : A -> Prop) :
  defined r -> (forall a, r = Ok a -> Q a) -> ensures r Q.
Proof. destruct r as [a|[]]; simpl; auto. Qed.

Lemma ensures_Ok {A} (r : result A) (Q : A -> Prop) (a : A) :
  ensures r Q -> r = Ok a -> Q a.
Proof. intros H ->. exact H. Qed.

Lemma ensures_is_defined {A} (r : result A) (Q : A -> Prop) : ensures r Q -> defined r.
Proof. destruct r as [a|[]]; simpl; auto. Qed.

Lemma ensures_deref (points : list Point) (i : nat) :
  i < length points -> ensures (deref points (Some i)) (fun p => nth_error points i = Some p).
Proof.
  intros H. simpl. destruct (nth_error points i) eqn:E; [reflexivity|].
  apply nth_error_None in E. lia.
Qed.

Lemma valid_wf (points : list Point) (a : ptr) : valid_ptr points a -> wf_ptr points a.
Proof. destruct a; simpl; auto. Qed.

Lemma wf_valid (points : list Point) (a : ptr) :
  wf_ptr points a -> is_null a = false -> valid_ptr points a.
Proof. destruct a; simpl; auto; discriminate. Qed.

Lemma ensures_deref_valid (points : list Point) (a : ptr) :
  valid_ptr points a -> ensures (deref points a) (fun _ => True).
Proof.
  destruct a as [i|]; [|intros []]. intros H.
  eapply ensures_weaken; [apply ensures_deref, H|auto].
Qed.

(** *** The beach line under insertion *)

Section Beach.
Variables (points : list Point) (sweep : float).
#[local] Abbreviation comp := (BeachCompare points sweep).

Lemma ensures_beach_lower_bound (k : Intersection) (l : list Intersection) :
  wf_int points k -> Forall (wf_int points) l ->
  ensures (lower_bound comp k l) (fun i => i <= length l).
Proof.
  intros Hk Hl. apply ensures_defined.
  - eapply lower_bound_defined; [|exact Hk|exact Hl].
    intros a b. apply BeachCompare_defined.
  - intros i. apply lower_bound_le.
Qed.

Lemma Forall_insert_at {A} (P : A -> Prop) (i : nat) (k : A) (l : list A) :
  P k -> Forall P l -> Forall P (insert_at i k l).
Proof.
  intros Hk Hl. unfold insert_at. apply Forall_app. split.
  - apply Forall_take, Hl.
  - constructor; [exact Hk|apply Forall_drop, Hl].
Qed.

Lemma Forall_erase_at {A} (P : A -> Prop) (i : nat) (l : list A) :
  Forall P l -> Forall P (erase_at i l).
Proof.
  intros Hl. unfold erase_at. apply Forall_app. split.
  - apply Forall_take, Hl.
  - apply Forall_drop, Hl.
Qed.

(** Inserting an entry with two sites into a beach line with its two ends
    keeps the ends. *)
Lemma ensures_beach_insert (kl kr : nat) (l : list Intersection) :
  let k := mkIntersection (Some kl) (Some kr) in
  l <> [] -> beach_ends l = true ->
  wf_int points k -> Forall (wf_int points) l ->
  ensures (set_insert comp k l)
    (fun '(l', _, _) =>
       l' <> [] /\ beach_ends l' = true /\ Forall (wf_int points) l').
Proof.
  intros k Hne He Hk Hl. subst k. apply ensures_defined.
  - eapply set_insert_defined; [|exact Hk|exact Hl].
    intros a b. apply BeachCompare_defined.
  - intros [[l' pos] success] H.
    apply set_insert_cases in H.
    destruct H as [[_ ->]|(_ & Hu & ->)]; [auto|].
    apply beach_ends_split in He.
    destruct He as [?|(a & mid & b & -> & Hmid)]; [contradiction|].
    rewrite upper_bound_cons_eq in Hu.
    rewrite BeachCompare_lt_left_end in Hu. simpl in Hu.
    apply bind_Ok in Hu. destruct Hu as (j & Hj & Hu). injection Hu as <-.
    apply upper_bound_before_last in Hj;
      [|apply BeachCompare_lt_right_end].
    split; [|split].
    + unfold insert_at. simpl. discriminate.
    + apply beach_ends_split. right.
      exists a, (take j mid ++ mkIntersection (Some kl) (Some kr) :: drop j mid), b. split.
      * unfold insert_at. simpl. f_equal.
        rewrite take_app_le, drop_app_le by exact Hj.
        rewrite <- app_assoc. reflexivity.
      * apply Forall_app. split; [apply Forall_take, Hmid|].
        constructor; [reflexivity|apply Forall_drop, Hmid].
    + apply Forall_insert_at; assumption.
Qed.

(** The position [processPoint] finds for a new site is behind the first
    entry and not behind the last one. *)
Lemma ensures_beach_locate (i a b : nat) (mid : list Intersection) :
  let l := mkIntersection None (Some a) :: mid ++ [mkIntersection (Some b) None] in
  wf_ptr points (Some i) -> Forall (wf_int points) l ->
  ensures (lower_bound comp (mkIntersection (Some i) (Some i)) l)
    (fun i2 => exists i1, i2 = S i1 /\ i1 <= length mid).
Proof.
  intros l Hi Hl. subst l. apply ensures_defined.
  - apply (lower_bound_defined _ (wf_int points));
      [intros x z; apply BeachCompare_defined|split; exact Hi|exact Hl].
  - intros i2 H. rewrite lower_bound_cons_eq in H.
    rewrite BeachCompare_left_end_lt in H. simpl in H.
    apply bind_Ok in H. destruct H as (i1 & H1 & H). injection H as <-.
    exists i1. split; [reflexivity|].
    eapply lower_bound_before_last; [|exact H1].
    apply BeachCompare_right_end_lt.
Qed.

End Beach.

(** *** The queue under [insert] and [erase] *)

Lemma lower_bound_event_total (d : CircleEvent) (q : list CircleEvent) :
  exists i, lower_bound CircleEvent_comp d q = Ok i.
Proof.
  induction q as [|e q [i IH]]; [simpl; eauto|].
  rewrite lower_bound_cons.
  destruct (CircleEvent_lt e d); [rewrite IH|]; simpl; eauto.
Qed.

Lemma ensures_getIntersection (points : list Point) (sweep : float) (inter : Intersection) :
  wf_int points inter -> ensures (getIntersection points sweep inter) (fun _ => True).
Proof.
  intros H. apply ensures_defined; [apply getIntersection_defined, H|auto].
Qed.

Lemma insert_defined (points : list Point) (q : list CircleEvent) (sweep : float)
    (l r : Intersection) :
  wf_int points l -> wf_int points r -> defined (CircleQueue.insert points q sweep l r).
Proof.
  intros [Hll Hlr] [Hrl Hrr]. unfold CircleQueue.insert.
  destruct (is_null (pt_left l)) eqn:N1; [exact I|].
  destruct (is_null (pt_right r)) eqn:N2; [exact I|].
  match goal with |- defined (if ?c then _ else _) => destruct c end; [exact I|].
  apply defined_bind; [apply defined_assert|intros _ _].
  apply defined_bind; [apply defined_assert|intros u3 N3].
  apply assert_Ok, negb_true_iff in N3.
  apply defined_bind; [apply defined_assert|intros _ _].
  apply defined_bind; [apply defined_assert|intros _ _].
  apply defined_bind;
    [eapply ensures_is_defined, ensures_deref_valid, wf_valid; eassumption|intros a _].
  apply defined_bind;
    [eapply ensures_is_defined, ensures_deref_valid, wf_valid; eassumption|intros b _].
  apply defined_bind;
    [eapply ensures_is_defined, ensures_deref_valid, wf_valid; eassumption|intros c _].
  cbv zeta.
  match goal with |- defined (if ?c then _ else _) => destruct c end; [exact I|].
  apply defined_bind; [apply getIntersection_defined; split; assumption|intros pl _].
  apply defined_bind; [apply getIntersection_defined; split; assumption|intros pr _].
  match goal with |- defined (if ?c then _ else _) => destruct c end; exact I.
Qed.

Lemma ensures_queue_insert (points : list Point) (q : list CircleEvent) (sweep : float)
    (l r : Intersection) :
  wf_int points l -> wf_int points r ->
  Forall (event_sites points) q -> queue_sorted q ->
  ensures (CircleQueue.insert points q sweep l r)
    (fun q' => Forall (event_sites points) q' /\ queue_sorted q').
Proof.
  intros Hl Hr Hq Hs. apply ensures_defined; [apply insert_defined; assumption|].
  intros q' H. split; [|eapply insert_sorted; eassumption].
  apply insert_cases in H.
  destruct H as [->|(a & b & c & Da & Db & Dc & Nr & _ & ->)]; [exact Hq|].
  assert (event_sites points (mkCircleEvent l r (solveCircle a b c))) as He.
  { repeat split; simpl; eauto using deref_Ok_valid.
    apply wf_valid; [apply Hr|exact Nr]. }
  destruct (queue_insert_cases (mkCircleEvent l r (solveCircle a b c)) q)
    as [->|(l1 & l2 & -> & -> & _ & _)]; [exact Hq|].
  apply Forall_app in Hq. destruct Hq as [H1 H2].
  apply Forall_app. split; [exact H1|constructor; assumption].
Qed.

Lemma erase_defined (points : list Point) (q : list CircleEvent) (l r : Intersection) :
  wf_int points l -> wf_int points r -> defined (CircleQueue.erase points q l r).
Proof.
  intros [Hll Hlr] [Hrl Hrr]. unfold CircleQueue.erase.
  apply defined_bind; [apply defined_assert|intros u1 N1].
  apply assert_Ok, negb_true_iff in N1.
  destruct (is_null (pt_left l)) eqn:N2; [exact I|].
  destruct (is_null (pt_right r)) eqn:N3; [exact I|]. cbn [orb].
  apply defined_bind;
    [eapply ensures_is_defined, ensures_deref_valid, wf_valid; eassumption|intros a _].
  apply defined_bind;
    [eapply ensures_is_defined, ensures_deref_valid, wf_valid; eassumption|intros b _].
  apply defined_bind;
    [eapply ensures_is_defined, ensures_deref_valid, wf_valid; eassumption|intros c _].
  cbv zeta.
  match goal with
  | |- context [lower_bound CircleEvent_comp ?d q] =>
      destruct (lower_bound_event_total d q) as [i ->]
  end.
  exact I.
Qed.

Lemma ensures_queue_erase (points : list Point) (q : list CircleEvent)
    (l r : Intersection) :
  wf_int points l -> wf_int points r ->
  Forall (event_sites points) q -> queue_sorted q ->
  ensures (CircleQueue.erase points q l r)
    (fun q' => Forall (event_sites points) q' /\ queue_sorted q').
Proof.
  intros Hl Hr Hq Hs. apply ensures_defined; [apply erase_defined; assumption|].
  intros q' H. split; [|eapply erase_sorted; eassumption].
  apply erase_cases in H.
  destruct H as [->|(l1 & e & l2 & -> & -> & _ & _)]; [exact Hq|].
  apply Forall_app in Hq. destruct Hq as [H1 H2]. inversion H2; subst.
  apply Forall_app. split; assumption.
Qed.

(** *** Site events *)

Lemma beach_first_site (points : list Point) (sweep : float) (i : nat) :
  ('(beach, _, _) ← set_insert (BeachCompare points sweep) (mkIntersection None (Some i)) [];
   '(beach, _, _) ← set_insert (BeachCompare points sweep) (mkIntersection (Some i) None) beach;
   mret beach)
  = Ok [mkIntersection None (Some i); mkIntersection (Some i) None].
Proof.
  unfold set_insert. simpl upper_bound. rewrite !bind_ret_l. cbv beta iota.
  rewrite upper_bound_cons_eq, BeachCompare_right_end_lt. reflexivity.
Qed.

Lemma nth_error_beach (a b : nat) (mid : list Intersection) (i1 : nat) :
  i1 <= length mid ->
  Forall (fun e => is_inner e = true) mid ->
  exists e u, nth_error (mkIntersection None (Some a) :: mid ++ [mkIntersection (Some b) None]) i1
            = Some e /\ pt_right e = Some u.
Proof.
  intros Hi Hmid. destruct i1 as [|j]; simpl; [eauto|].
  destruct (nth_error mid j) as [e|] eqn:E.
  - rewrite nth_error_app1 by (apply nth_error_Some; congruence). rewrite E.
    rewrite Forall_forall in Hmid.
    assert (is_inner e = true) as He
      by (apply Hmid, list_elem_of_In; eapply nth_error_In; eassumption).
    apply is_inner_Some in He. destruct He as (x & z & ->). eauto.
  - apply nth_error_None in E. lia.
Qed.

Lemma ensures_beach_at (points : list Point) (l : list Intersection) (i : nat) :
  i < length l -> Forall (wf_int points) l ->
  ensures (beach_at l i) (fun e => nth_error l i = Some e /\ wf_int points e).
Proof.
  intros Hi Hl. unfold beach_at. destruct (nth_error l i) as [e|] eqn:E.
  - simpl. split; [reflexivity|]. rewrite Forall_forall in Hl.
    apply Hl, list_elem_of_In. eapply nth_error_In; eassumption.
  - apply nth_error_None in E. lia.
Qed.

Lemma ensures_processPoint (points : list Point) (i : nat) (s : Implementation) :
  state_ok points s -> i < length points ->
  ensures (processPoint i s) (state_ok points).
Proof.
  intros (Hp & He & Hwf & Hev & Hs & Hst) Hi. unfold processPoint. rewrite Hp.
  eapply ensures_bind; [apply ensures_deref, Hi|]. intros pt Hpt. cbv zeta.
  cbn [m_beach set_sweep_y m_events].
  destruct (m_beach s) as [|b0 l0] eqn:Hb.
  - unfold set_insert. simpl upper_bound. rewrite !bind_ret_l. cbv beta iota.
    rewrite upper_bound_cons_eq, BeachCompare_right_end_lt. simpl.
    repeat split; simpl; try assumption.
    repeat constructor; simpl; lia.
  - rewrite <- Hb in *.
    assert (m_beach s <> []) as Hne by congruence. clear Hb b0 l0.
    pose proof He as Hsp. apply beach_ends_split in Hsp.
    destruct Hsp as [?|(a & mid & b & Hb & Hmid)]; [contradiction|].
    eapply ensures_bind.
    { rewrite Hb. apply ensures_beach_locate; [exact Hi|rewrite <- Hb; exact Hwf]. }
    intros i2 (i1 & -> & Hi1).
    assert (S i1 < length (m_beach s)) as Hlen
      by (rewrite Hb; simpl; rewrite length_app; simpl; lia).
    eapply ensures_bind; [apply (ensures_beach_at points); [lia|exact Hwf]|].
    intros it1 [Hit1 Wit1].
    destruct (nth_error_beach a b mid i1 Hi1 Hmid) as (e & u & E1 & E2).
    rewrite <- Hb in E1. assert (e = it1) by congruence. subst e. rewrite E2.
    assert (wf_int points (mkIntersection (Some u) (Some i))) as Wk1.
    { split; simpl; [|exact Hi]. destruct Wit1 as [_ W]. rewrite E2 in W. exact W. }
    assert (wf_int points (mkIntersection (Some i) (Some u))) as Wk2
      by (destruct Wk1; split; assumption).
    eapply ensures_bind;
      [apply (ensures_beach_insert points _ u i); assumption|].
    intros [[beach1 pos1] success1] (Hne1 & He1 & Hwf1).
    eapply ensures_bind; [apply ensures_assert|intros _ _].
    eapply ensures_bind.
    { instantiate (1 := fun q => Forall (event_sites points) q /\ queue_sorted q).
      destruct (negb (is_null (pt_left it1)));
        [apply ensures_queue_insert; assumption|apply ensures_ret; auto]. }
    intros q1 [Hev1 Hs1].
    eapply ensures_bind;
      [apply (ensures_beach_insert points _ i u); assumption|].
    intros [[beach2 pos2] success2] (Hne2 & He2 & Hwf2).
    eapply ensures_bind; [apply ensures_assert|intros _ _].
    eapply ensures_bind; [apply (ensures_beach_at points); [exact Hlen|exact Hwf]|].
    intros it2 [Hit2 Wit2].
    eapply ensures_bind.
    { instantiate (1 := fun q => Forall (event_sites points) q /\ queue_sorted q).
      destruct (negb (is_null (pt_right it2)));
        [apply ensures_queue_insert; assumption|apply ensures_ret; auto]. }
    intros q2 [Hev2 Hs2].
    eapply ensures_bind.
    { instantiate (1 := fun q => Forall (event_sites points) q /\ queue_sorted q).
      destruct (negb (is_null (pt_left it1)) && negb (is_null (pt_right it2)));
        [apply ensures_queue_erase; assumption|apply ensures_ret; auto]. }
    intros q3 [Hev3 Hs3].
    apply ensures_ret. repeat split; simpl; assumption.
Qed.

(** *** Circle events: the beach line and the queue *)

Lemma beach_not_last (l : list Intersection) (i : nat) (e : Intersection) :
  beach_ends l = true -> nth_error l i = Some e -> pt_right e <> None ->
  i + 1 < length l.
Proof.
  intros He Hi Hr. apply beach_ends_split in He.
  destruct He as [->|(a & mid & b & -> & Hmid)]; [destruct i; discriminate|].
  assert (i < length (mkIntersection None (Some a) :: mid ++ [mkIntersection (Some b) None]))
    as Hlt by (apply nth_error_Some; congruence).
  simpl in Hlt |- *. rewrite length_app in Hlt |- *. simpl in Hlt |- *.
  destruct (Nat.eq_dec i (S (length mid))) as [->|]; [|lia].
  exfalso. apply Hr. simpl in Hi.
  rewrite nth_error_app2 in Hi by lia. rewrite Nat.sub_diag in Hi.
  injection Hi as <-. reflexivity.
Qed.

Lemma erase_at_cons {A} (i : nat) (a : A) (l : list A) :
  erase_at (S i) (a :: l) = a :: erase_at i l.
Proof. reflexivity. Qed.

Lemma erase_at_app {A} (i : nat) (l k : list A) :
  i < length l -> erase_at i (l ++ k) = erase_at i l ++ k.
Proof.
  intros H. unfold erase_at.
  rewrite take_app_le, drop_app_le by lia. rewrite app_assoc. reflexivity.
Qed.

Lemma length_erase_at {A} (i : nat) (l : list A) :
  i < length l -> length (erase_at i l) = length l - 1.
Proof.
  intros H. unfold erase_at. rewrite length_app, length_take, length_drop. lia.
Qed.

(** Removing two neighbouring entries between the ends keeps the ends. *)
Lemma beach_erase_two (l : list Intersection) (i : nat) :
  beach_ends l = true -> i <> 0 -> i + 2 < length l ->
  erase_at i (erase_at i l) <> [] /\ beach_ends (erase_at i (erase_at i l)) = true.
Proof.
  intros He H0 Hi. apply beach_ends_split in He.
  destruct He as [->|(a & mid & b & -> & Hmid)]; [simpl in Hi; lia|].
  destruct i as [|j]; [contradiction|].
  simpl in Hi. rewrite length_app in Hi. simpl in Hi.
  rewrite erase_at_cons, erase_at_app by lia.
  rewrite erase_at_cons, erase_at_app by (rewrite length_erase_at; lia).
  split; [discriminate|].
  apply beach_ends_split. right. exists a, (erase_at j (erase_at j mid)), b.
  split; [reflexivity|]. apply Forall_erase_at, Forall_erase_at, Hmid.
Qed.

Lemma state_ok_store (points : list Point) (s : Implementation) (v : float)
    (b : list Intersection) (q : list CircleEvent) :
  store_ok s -> store_ok (set_events q (set_beach b (set_sweep_y v s))).
Proof. intros H. exact H. Qed.

Lemma ensures_processEvent_beach (points : list Point) (event : CircleEvent)
    (s : Implementation) :
  state_ok points s -> event_sites points event ->
  ensures (processEvent_beach event s) (state_ok points).
Proof.
  intros (Hp & He & Hwf & Hev & Hs & Hst) (Vll & Vlr & Vrl & Vrr).
  unfold processEvent_beach. cbv zeta. rewrite Hp.
  eapply ensures_bind; [apply ensures_assert|intros _ _].
  eapply ensures_bind; [apply ensures_assert|intros _ _].
  assert (wf_int points (left_int event)) as Wl by (split; apply valid_wf; assumption).
  assert (wf_int points (right_int event)) as Wr by (split; apply valid_wf; assumption).
  eapply ensures_bind.
  { apply ensures_defined with (Q := fun _ => True); [|auto].
    apply (check_order_defined _ (wf_int points)); [|exact Hwf].
    intros a b. apply BeachCompare_defined. }
  intros _ _.
  eapply ensures_bind.
  { apply ensures_defined
      with (Q := fun it => forall i, it = Some i -> i < length (m_beach s)).
    - apply (set_find_defined _ (wf_int points)); [|exact Wl|exact Hwf].
      intros a b. apply BeachCompare_defined.
    - intros it H i ->. apply set_find_Some in H. destruct H as [e H].
      apply nth_error_Some. congruence. }
  intros [i|] Hfind; [|exact I]. specialize (Hfind i eq_refl).
  eapply ensures_bind; [apply ensures_assert|intros tt1 H0].
  cbv beta in H0. apply negb_true_iff, Nat.eqb_neq in H0.
  eapply ensures_bind; [apply (ensures_beach_at points); [lia|exact Hwf]|].
  intros left_neighbor [Hln Wln].
  eapply ensures_bind; [apply (ensures_beach_at points); [lia|exact Hwf]|].
  intros left_it [Hli Wli].
  eapply ensures_bind; [apply ensures_assert|intros tt2 E1].
  eapply ensures_bind; [apply ensures_assert|intros tt3 E2].
  cbv beta in E1, E2. apply ptr_eqb_eq in E1, E2.
  assert (i + 1 < length (m_beach s)) as Hi1.
  { eapply beach_not_last; [exact He|exact Hli|].
    rewrite E1. destruct (pt_right (left_int event)); [discriminate|destruct Vlr]. }
  eapply ensures_bind; [apply (ensures_beach_at points); [lia|exact Hwf]|].
  intros right_it [Hri Wri].
  eapply ensures_bind; [apply ensures_assert|intros tt4 E3].
  eapply ensures_bind; [apply ensures_assert|intros tt5 E4].
  cbv beta in E3, E4. apply ptr_eqb_eq in E3, E4.
  assert (i + 2 < length (m_beach s)) as Hi2.
  { replace (i + 2) with ((i + 1) + 1) by lia.
    eapply beach_not_last; [exact He|exact Hri|].
    rewrite E3. destruct (pt_right (right_int event)); [discriminate|destruct Vrr]. }
  eapply ensures_bind; [apply (ensures_beach_at points); [lia|exact Hwf]|].
  intros right_neighbor [Hrn Wrn].
  eapply ensures_bind; [apply ensures_assert|intros _ _].
  eapply ensures_bind; [apply ensures_assert|intros _ _].
  eapply ensures_bind; [apply ensures_queue_erase; assumption|].
  intros q1 [Hev1 Hs1].
  eapply ensures_bind; [apply ensures_queue_erase; assumption|].
  intros q2 [Hev2 Hs2].
  destruct (beach_erase_two _ i He H0 Hi2) as [Hne' He'].
  assert (Forall (wf_int points) (erase_at i (erase_at i (m_beach s)))) as Hwf'
    by (apply Forall_erase_at, Forall_erase_at, Hwf).
  destruct (pt_left (left_int event)) as [kl|] eqn:Ekl; [|destruct Vll].
  destruct (pt_right (right_int event)) as [kr|] eqn:Ekr; [|destruct Vrr].
  assert (wf_int points (mkIntersection (Some kl) (Some kr))) as Wk
    by (split; assumption).
  eapply ensures_bind; [apply (ensures_beach_insert points _ kl kr); assumption|].
  intros [[beach pos] success] (Hne1 & He1 & Hwf1).
  eapply ensures_bind; [apply ensures_assert|intros _ _].
  eapply ensures_bind.
  { instantiate (1 := fun q => Forall (event_sites points) q /\ queue_sorted q).
    match goal with |- ensures (if ?c then _ else _) _ => destruct c end;
      [apply ensures_queue_insert; assumption|apply ensures_ret; auto]. }
  intros q3 [Hev3 Hs3].
  eapply ensures_bind.
  { instantiate (1 := fun q => Forall (event_sites points) q /\ queue_sorted q).
    match goal with |- ensures (if ?c then _ else _) _ => destruct c end;
      [apply ensures_queue_insert; assumption|apply ensures_ret; auto]. }
  intros q4 [Hev4 Hs4].
  apply ensures_ret. repeat split; simpl; assumption.
Qed.

(** *** Circle events: the graph *)

Lemma same_sweep_refl (s : Implementation) : same_sweep s s.
Proof. repeat split. Qed.

Lemma same_sweep_trans (s s1 s2 : Implementation) :
  same_sweep s s1 -> same_sweep s1 s2 -> same_sweep s s2.
Proof. unfold same_sweep. intros (? & ? & ? & ?) (? & ? & ? & ?). repeat split; congruence. Qed.

Lemma getNode3_same_sweep (a b c : ptr) (s s1 : Implementation) (n : nat) :
  getNode3 a b c s = Ok (n, s1) -> same_sweep s s1.
Proof.
  unfold getNode3. destruct (orderPoints (a, b, c)) as [[a' b'] c'].
  destruct (m_nodes s !! (a', b', c')) as [[m|]|].
  - intros [= <- <-]. apply same_sweep_refl.
  - discriminate.
  - intros E. repeat (apply bind_Ok in E; destruct E as (? & _ & E)).
    injection E as <- <-. repeat split.
Qed.

Lemma getNode2_same_sweep (a b : ptr) (s s1 : Implementation) (n : nat) :
  getNode2 a b s = Ok (n, s1) -> same_sweep s s1.
Proof.
  unfold getNode2. destruct (if ptr_gtb a b then (b, a) else (a, b)) as [a' b'].
  destruct (m_nodes s !! (a', b', None)) as [[m|]|].
  - intros [= <- <-]. apply same_sweep_refl.
  - discriminate.
  - intros E. repeat (apply bind_Ok in E; destruct E as (? & _ & E)).
    injection E as <- <-. repeat split.
Qed.

Lemma addEdge_frame (nodeA nodeB : nat) (s s1 : Implementation) (e : nat) :
  addEdge nodeA nodeB s = Ok (e, s1) ->
  same_sweep s s1 /\ s1.(m_nodes) = s.(m_nodes) /\ s1.(m_node_objs) = s.(m_node_objs).
Proof.
  unfold addEdge. intros E. repeat (apply bind_Ok in E; destruct E as (? & _ & E)).
  injection E as <- <-. repeat split.
Qed.

Lemma addTriplet_frame (center nodeA nodeB nodeC : nat) (s s' : Implementation) :
  addTriplet center nodeA nodeB nodeC s = Ok s' ->
  same_sweep s s' /\ s'.(m_nodes) = s.(m_nodes)
  /\ length s'.(m_node_objs) = length s.(m_node_objs).
Proof.
  unfold addTriplet. intros E.
  apply bind_Ok in E. destruct E as ([e1 s1] & H1 & E).
  apply bind_Ok in E. destruct E as ([e2 s2] & H2 & E).
  apply bind_Ok in E. destruct E as ([e3 s3] & H3 & E).
  injection E as <-.
  apply addEdge_frame in H1, H2, H3.
  destruct H1 as ((? & ? & ? & ?) & ? & ?), H2 as ((? & ? & ? & ?) & ? & ?),
    H3 as ((? & ? & ? & ?) & ? & ?).
  unfold same_sweep, add_neighbor_to, add_edge_to. simpl.
  rewrite !length_alter. repeat split; congruence.
Qed.

Lemma state_ok_same_sweep (points : list Point) (s s1 : Implementation) :
  state_ok points s -> same_sweep s s1 -> store_ok s1 -> state_ok points s1.
Proof.
  intros (Hp & He & Hwf & Hev & Hs & _) (_ & Eb & Ee & Ep) Hst.
  unfold state_ok. rewrite Eb, Ee, Ep. auto 10.
Qed.

Lemma ensures_getNode3 (a b c : ptr) (s : Implementation) :
  nodes_ok s -> store_ok s ->
  valid_ptr s.(m_points) a -> valid_ptr s.(m_points) b -> valid_ptr s.(m_points) c ->
  ensures (getNode3 a b c s)
    (fun '(n, s1) =>
       same_sweep s s1 /\ nodes_ok s1 /\ store_ok s1
       /\ n < length s1.(m_node_objs)
       /\ length s.(m_node_objs) <= length s1.(m_node_objs)).
Proof.
  intros Hok Hst Ha Hb Hc.
  destruct (getNode3_returns a b c s Hok Ha Hb Hc) as (n & s1 & E & _ & Hok1 & _).
  rewrite E. simpl.
  destruct (getNode3_store _ _ _ _ _ _ E Hst) as (? & ? & _ & ?).
  split; [eapply getNode3_same_sweep; eassumption|auto].
Qed.

Lemma ensures_getNode2 (a b : ptr) (s : Implementation) :
  nodes_ok s -> store_ok s ->
  valid_ptr s.(m_points) a -> valid_ptr s.(m_points) b ->
  ensures (getNode2 a b s)
    (fun '(n, s1) =>
       same_sweep s s1 /\ nodes_ok s1 /\ store_ok s1
       /\ n < length s1.(m_node_objs)
       /\ length s.(m_node_objs) <= length s1.(m_node_objs)).
Proof.
  intros Hok Hst Ha Hb.
  destruct (getNode2_returns a b s Hok Ha Hb) as (n & s1 & E & _ & Hok1 & _).
  rewrite E. simpl.
  destruct (getNode2_store _ _ _ _ _ E Hst) as (? & ? & _ & ?).
  split; [eapply getNode2_same_sweep; eassumption|auto].
Qed.

Lemma ensures_addTriplet (center nodeA nodeB nodeC : nat) (s : Implementation) :
  store_ok s ->
  center < length s.(m_node_objs) -> nodeA < length s.(m_node_objs) ->
  nodeB < length s.(m_node_objs) -> nodeC < length s.(m_node_objs) ->
  ensures (addTriplet center nodeA nodeB nodeC s)
    (fun s' => same_sweep s s' /\ store_ok s').
Proof.
  intros Hst Hc Ha Hb HC.
  destruct (addTriplet_edges center nodeA nodeB nodeC s Hc Ha Hb HC) as (s' & E & _ & _).
  rewrite E. simpl.
  destruct (addTriplet_frame _ _ _ _ _ _ E) as (F & N & L).
  split; [exact F|]. intros k n. rewrite N, L. apply Hst.
Qed.

Lemma ensures_processEvent_graph (points : list Point) (event : CircleEvent)
    (s : Implementation) :
  state_ok points s -> event_sites points event ->
  ensures (processEvent_graph event s) (state_ok points).
Proof.
  intros Hs (Vll & Vlr & Vrl & Vrr).
  pose proof Hs as (Hp & _ & _ & _ & _ & Hst).
  unfold processEvent_graph. cbv zeta.
  eapply ensures_bind; [apply ensures_assert|intros tt1 Hok].
  cbv beta in Hok. apply nodes_nonnull_ok in Hok.
  eapply ensures_bind;
    [apply ensures_getNode3; rewrite ?Hp; assumption|].
  intros [nodeCenter s1] (F1 & Hok1 & Hst1 & Hn1 & Hl1).
  pose proof F1 as (_ & _ & _ & Hp1).
  eapply ensures_bind;
    [apply ensures_getNode2; rewrite ?Hp1, ?Hp; assumption|].
  intros [nodeAB s2] (F2 & Hok2 & Hst2 & Hn2 & Hl2).
  pose proof F2 as (_ & _ & _ & Hp2).
  eapply ensures_bind;
    [apply ensures_getNode2; rewrite ?Hp2, ?Hp1, ?Hp; assumption|].
  intros [nodeBC s3] (F3 & Hok3 & Hst3 & Hn3 & Hl3).
  pose proof F3 as (_ & _ & _ & Hp3).
  eapply ensures_bind;
    [apply ensures_getNode2; rewrite ?Hp3, ?Hp2, ?Hp1, ?Hp; assumption|].
  intros [nodeCA s4] (F4 & Hok4 & Hst4 & Hn4 & Hl4).
  pose proof F4 as (_ & _ & _ & Hp4).
  eapply ensures_bind; [apply ensures_assert|intros _ _].
  assert (same_sweep s s4) as F
    by (eauto using same_sweep_trans).
  assert (m_points s4 = points) as Hp' by congruence.
  rewrite Hp'.
  eapply ensures_bind; [apply ensures_deref_valid; assumption|intros pa _].
  eapply ensures_bind; [apply ensures_deref_valid; assumption|intros pb _].
  eapply ensures_bind; [apply ensures_deref_valid; assumption|intros pc _].
  assert (forall c a b d,
            c < length (m_node_objs s4) -> a < length (m_node_objs s4) ->
            b < length (m_node_objs s4) -> d < length (m_node_objs s4) ->
            ensures (addTriplet c a b d s4) (state_ok points)) as HT.
  { intros c a b d Hc Ha Hb Hd.
    eapply ensures_weaken; [apply ensures_addTriplet; assumption|].
    intros s' [F' Hst']. eapply state_ok_same_sweep; [exact Hs| |exact Hst'].
    eapply same_sweep_trans; eassumption. }
  repeat match goal with
    | |- ensures (if ?c then _ else _) _ => destruct c
    end; apply HT; lia.
Qed.

Lemma ensures_processEvent (points : list Point) (event : CircleEvent)
    (s : Implementation) :
  state_ok points s -> event_sites points event ->
  ensures (processEvent event s) (state_ok points).
Proof.
  intros Hs Hev. unfold processEvent.
  eapply ensures_bind; [apply ensures_processEvent_beach; eassumption|].
  intros s1 Hs1. apply ensures_processEvent_graph; assumption.
Qed.

(** ** The driver *)

Lemma sort_insert_perm (points : list Point) (i : nat) (l : list nat) :
  sort_insert points i l ≡ₚ i :: l.
Proof.
  induction l as [|j l IH]; simpl; [reflexivity|].
  destruct (site_before points i j); [reflexivity|].
  rewrite IH. apply Permutation_swap.
Qed.

Lemma sort_sites_fold_perm (points : list Point) (l : list nat) :
  fold_right (fun i acc => sort_insert points i acc) [] l ≡ₚ l.
Proof.
  induction l as [|i l IH]; simpl; [reflexivity|].
  rewrite sort_insert_perm, IH. reflexivity.
Qed.

Lemma sort_sites_perm (points : list Point) :
  sort_sites points ≡ₚ seq 0 (length points).
Proof.
  unfold sort_sites. rewrite sort_sites_fold_perm. symmetry. apply Permutation_rev.
Qed.

Lemma sort_sites_bound (points : list Point) :
  Forall (fun i => i < length points) (sort_sites points).
Proof.
  rewrite sort_sites_perm. apply Forall_forall. intros i Hi.
  apply list_elem_of_In, in_seq in Hi. lia.
Qed.

Lemma sort_sites_length (points : list Point) :
  length (sort_sites points) = length points.
Proof. rewrite sort_sites_perm. apply length_seq. Qed.

Lemma bounding_box_frame (points : list Point) (s : Implementation) :
  same_sweep s (bounding_box points s)
  /\ (bounding_box points s).(m_nodes) = s.(m_nodes)
  /\ (bounding_box points s).(m_node_objs) = s.(m_node_objs)
  /\ (bounding_box points s).(m_edges) = s.(m_edges).
Proof.
  unfold bounding_box. revert s. induction points as [|p points IH]; intros s; simpl.
  - repeat split.
  - match goal with |- context [fold_left ?f points ?s0] => specialize (IH s0) end.
    destruct IH as ((? & ? & ? & ?) & ? & ? & ?). unfold same_sweep.
    repeat split; simpl in *; congruence.
Qed.

Lemma state_ok_start (points : list Point) :
  state_ok points
    (bounding_box points
       (mkImplementation Implementation_init.(sweep_y) Implementation_init.(m_beach)
          Implementation_init.(m_events) Implementation_init.(m_min_x)
          Implementation_init.(m_max_x) Implementation_init.(m_min_y)
          Implementation_init.(m_max_y) Implementation_init.(m_nodes)
          Implementation_init.(m_node_objs) Implementation_init.(m_edges) points)).
Proof.
  match goal with |- state_ok _ (bounding_box _ ?s0) =>
    destruct (bounding_box_frame points s0) as ((_ & Eb & Ee & Ep) & En & Eo & _)
  end.
  unfold state_ok, store_ok. rewrite Eb, Ee, Ep, En, Eo. simpl.
  repeat split; try constructor.
  intros k n. rewrite lookup_empty. discriminate.
Qed.

Lemma ensures_vector_at {A} (v : list A) (i : nat) (P : A -> Prop) :
  i < length v -> Forall P v -> ensures (vector_at v i) P.
Proof.
  intros Hi Hv. unfold vector_at. destruct (nth_error v i) as [a|] eqn:E.
  - simpl. rewrite Forall_forall in Hv. apply Hv, list_elem_of_In.
    eapply nth_error_In; eassumption.
  - apply nth_error_None in E. lia.
Qed.

Lemma ensures_back (q : list CircleEvent) (P : CircleEvent -> Prop) :
  CircleQueue.empty q = false -> Forall P q ->
  ensures (CircleQueue.back q) (fun e => P e /\ q = CircleQueue.pop_back q ++ [e]).
Proof.
  intros Hne Hq. unfold CircleQueue.back, CircleQueue.pop_back.
  destruct q as [|x q' _] using rev_ind; [discriminate|].
  rewrite last_snoc, removelast_last. simpl. split; [|reflexivity].
  apply Forall_app in Hq. destruct Hq as [_ Hx]. inversion Hx; assumption.
Qed.

Lemma ensures_choose_next (points : list Point) (ordered : list nat) (ii : nat)
    (s : Implementation) :
  state_ok points s ->
  Forall (fun i => i < length points) ordered ->
  ii <= length ordered ->
  negb (CircleQueue.empty s.(m_events)) || Nat.ltb ii (length ordered) = true ->
  ensures (choose_next points ordered ii s)
    (fun next =>
       match next with
       | SiteEvent i => i < length points /\ ii < length ordered
       | CircleEv evt =>
           event_sites points evt
           /\ s.(m_events) = CircleQueue.pop_back s.(m_events) ++ [evt]
       end).
Proof.
  intros (Hp & He & Hwf & Hev & Hs & Hst) Hord Hii Hguard. unfold choose_next.
  destruct (CircleQueue.empty (m_events s)) eqn:Hq.
  - simpl in Hguard. apply Nat.ltb_lt in Hguard.
    eapply ensures_bind; [apply ensures_vector_at; eassumption|].
    intros i Hi. simpl. auto.
  - destruct (Nat.eqb_spec ii (length ordered)) as [E|N].
    + eapply ensures_bind; [apply ensures_back; eassumption|].
      intros evt H. exact H.
    + assert (ii < length ordered) as Hlt by lia.
      eapply ensures_bind; [apply ensures_back; eassumption|].
      intros evt H.
      eapply ensures_bind; [apply ensures_vector_at; eassumption|].
      intros i Hi.
      eapply ensures_bind.
      { apply ensures_vector_at with (P := fun _ => True); [exact Hi|].
        apply Forall_forall. auto. }
      intros pt _.
      destruct (event_key (circle evt) <? y pt)%float; simpl; auto.
Qed.

Lemma state_ok_pop_back (points : list Point) (s : Implementation) (evt : CircleEvent) :
  state_ok points s ->
  s.(m_events) = CircleQueue.pop_back s.(m_events) ++ [evt] ->
  state_ok points (set_events (CircleQueue.pop_back s.(m_events)) s).
Proof.
  intros (Hp & He & Hwf & Hev & Hs & Hst) E.
  repeat split; simpl; try assumption.
  - rewrite E in Hev. apply Forall_app in Hev. tauto.
  - apply pop_back_sorted, Hs.
Qed.

Lemma ensures_compute_step (points : list Point) (ordered : list nat) (ii : nat)
    (s : Implementation) :
  state_ok points s ->
  Forall (fun i => i < length points) ordered ->
  ii <= length ordered ->
  negb (CircleQueue.empty s.(m_events)) || Nat.ltb ii (length ordered) = true ->
  ensures (compute_step points ordered ii s)
    (fun '(ii', s') => ii' <= length ordered /\ state_ok points s').
Proof.
  intros Hs Hord Hii Hguard. unfold compute_step.
  eapply ensures_bind; [apply ensures_choose_next; eassumption|].
  intros [i|evt] H.
  - destruct H as [Hi Hlt].
    eapply ensures_bind.
    { eapply ensures_bind; [apply ensures_processPoint; eassumption|].
      intros s1 Hs1. apply ensures_ret.
      instantiate (1 := fun '(ii', s') => ii' <= length ordered /\ state_ok points s').
      simpl. split; [lia|exact Hs1]. }
    intros [ii' s'] [Hii' Hs'].
    eapply ensures_bind; [apply ensures_assert|intros _ _].
    apply ensures_ret. auto.
  - destruct H as [Hev E].
    eapply ensures_bind.
    { eapply ensures_bind.
      - apply ensures_processEvent; [|exact Hev].
        apply state_ok_pop_back with (evt := evt); assumption.
      - intros s1 Hs1. apply ensures_ret.
        instantiate (1 := fun '(ii', s') => ii' <= length ordered /\ state_ok points s').
        simpl. split; [lia|exact Hs1]. }
    intros [ii' s'] [Hii' Hs'].
    eapply ensures_bind; [apply ensures_assert|intros _ _].
    apply ensures_ret. auto.
Qed.

(** A returning iteration keeps the invariant, with or without the guard of
    the loop. *)
Lemma compute_step_state_ok (points : list Point) (ordered : list nat) (ii ii' : nat)
    (s s' : Implementation) :
  state_ok points s ->
  Forall (fun i => i < length points) ordered ->
  ii <= length ordered ->
  compute_step points ordered ii s = Ok (ii', s') ->
  ii' <= length ordered /\ state_ok points s'.
Proof.
  intros Hs Hord Hii H.
  destruct (negb (CircleQueue.empty s.(m_events)) || Nat.ltb ii (length ordered)) eqn:G.
  - exact (ensures_Ok _ _ _ (ensures_compute_step _ _ _ _ Hs Hord Hii G) H).
  - exfalso. apply orb_false_iff in G. destruct G as [G1 G2].
    apply negb_false_iff in G1. apply Nat.ltb_ge in G2.
    unfold compute_step, choose_next in H. rewrite G1 in H.
    unfold vector_at in H.
    assert (nth_error ordered ii = None) as N by (apply nth_error_None; lia).
    rewrite N in H. discriminate H.
Qed.



Lemma compute_steps_state_ok (points : list Point) (n : nat) :
  forall ii s, compute_steps n points = Ok (ii, s) ->
               ii <= length points /\ state_ok points s.
Proof.
  induction n as [|n IH]; intros ii s; simpl.
  - intros [= <- <-]. split; [lia|apply state_ok_start].
  - intros H. apply bind_Ok in H. destruct H as ([ii0 s0] & H0 & H).
    destruct (IH _ _ H0) as [Hii0 Hs0].
    rewrite <- (sort_sites_length points) in Hii0 |- *.
    eapply compute_step_state_ok; [exact Hs0|apply sort_sites_bound|exact Hii0|exact H].
Qed.

Lemma compute_steps_obtuse : compute_steps 3 sites_obtuse = Ok (3, state_obtuse_sites).
Proof. vm_compute. reflexivity. Qed.



(** X14: After any number of iterations of the loop of [compute], the beach line
    is empty or runs from the entry without a left site to the entry without
    a right site, every entry between them has two sites, and every pointer
    in it is null or a site of the input. *)
Theorem beach_line_invariant (points : list Point) (n ii : nat) (s : Implementation) :
  compute_steps n points = Ok (ii, s) ->
  beach_ends s.(m_beach) = true /\ Forall (wf_int points) s.(m_beach).
Proof.
  intros H. apply compute_steps_state_ok in H.
  destruct H as (_ & _ & He & Hwf & _). auto.
Qed.

Lemma beach_line_invariant_witness :
  beach_ends state_obtuse_sites.(m_beach) = true
  /\ Forall (wf_int sites_obtuse) state_obtuse_sites.(m_beach).
Proof.
  exact (beach_line_invariant sites_obtuse 3 3 state_obtuse_sites compute_steps_obtuse).
Defined.

(** X15: After any number of iterations of the loop of [compute], every pointer
    of every queued event is a site of the input (none is null), the keys of
    the queue increase strictly, and no two queued events have the same
    key. *)
Theorem event_queue_invariant (points : list Point) (n ii : nat) (s : Implementation) :
  compute_steps n points = Ok (ii, s) ->
  Forall (event_sites points) s.(m_events)
  /\ queue_sorted s.(m_events)
  /\ NoDup (map (fun e => event_key e.(circle)) s.(m_events)).
Proof.
  intros H. apply compute_steps_state_ok in H.
  destruct H as (_ & _ & _ & _ & Hev & Hs & _). auto using queue_sorted_keys.
Qed.

Lemma event_queue_invariant_witness :
  Forall (event_sites sites_obtuse) state_obtuse_sites.(m_events)
  /\ queue_sorted state_obtuse_sites.(m_events)
  /\ NoDup (map (fun e => event_key e.(circle)) state_obtuse_sites.(m_events)).
Proof.
  exact (event_queue_invariant sites_obtuse 3 3 state_obtuse_sites compute_steps_obtuse).
Defined.

(** The loop of [compute] continues a run of iterations. *)
Lemma compute_loop_steps (points : list Point) (fuel : nat) :
  forall n ii s s',
    compute_steps n points = Ok (ii, s) ->
    compute_loop fuel points (sort_sites points) ii s = Ok s' ->
    exists m ii',
      compute_steps m points = Ok (ii', s')
      /\ negb (CircleQueue.empty s'.(m_events)) || Nat.ltb ii' (length (sort_sites points))
         = false.
Proof.
  induction fuel as [|fuel IH]; intros n ii s s' Hn; simpl.
  - destruct (negb (CircleQueue.empty (m_events s)) || _) eqn:G; [discriminate|].
    intros [= <-]. eauto.
  - destruct (negb (CircleQueue.empty (m_events s)) || _) eqn:G.
    + intros H. apply bind_Ok in H. destruct H as ([ii1 s1] & H1 & H).
      apply (IH (S n) ii1 s1); [|exact H].
      simpl. rewrite Hn. simpl. exact H1.
    + intros [= <-]. eauto.
Qed.

Lemma compute_Ok_steps (points : list Point) (fuel : nat)
    (s : Implementation) :
  compute fuel points = Ok s ->
  exists n, compute_steps n points = Ok (length points, s) /\ s.(m_events) = [].
Proof.
  unfold compute. cbv zeta. intros H.
  apply bind_Ok in H. destruct H as (i0 & _ & H).
  apply bind_Ok in H. destruct H as (p0 & _ & H).
  destruct (compute_loop_steps points fuel 0 0 _ s eq_refl H) as (m & ii' & Hm & G).
  apply orb_false_iff in G. destruct G as [G1 G2].
  apply negb_false_iff in G1. apply Nat.ltb_ge in G2.
  rewrite sort_sites_length in G2.
  destruct (compute_steps_state_ok _ _ _ _ Hm) as [Hle _].
  assert (ii' = length points) by lia. subst ii'.
  exists m. split; [exact Hm|]. destruct (m_events s); [reflexivity|discriminate].
Qed.

(** X16: A returning call of [compute] has run the loop some number of times, has
    consumed every site, and leaves the queue of circle events empty. *)
Theorem compute_returns_after_all_sites (points : list Point) (fuel : nat)
    (s : Implementation) :
  compute fuel points = Ok s ->
  exists n, compute_steps n points = Ok (length points, s) /\ s.(m_events) = [].
Proof. apply compute_Ok_steps. Qed.

Lemma compute_returns_after_all_sites_witness :
  exists n, compute_steps n sites_obtuse = Ok (length sites_obtuse, state_after_obtuse)
            /\ state_after_obtuse.(m_events) = [].
Proof.
  exact (compute_returns_after_all_sites sites_obtuse 4 state_after_obtuse compute_obtuse).
Defined.

(** ** What the two kinds of events change *)

(** Steps through the binds of a returning computation [H : m = Ok _]. *)
Ltac step_ok H :=
  repeat first
    [ match type of H with
      | Ok _ = Ok _ => injection H as <-
      | mret _ = Ok _ => injection H as <-
      | Err _ = Ok _ => discriminate H
      | _ ≫= _ = Ok _ =>
          let H1 := fresh "B" in
          apply bind_Ok in H; destruct H as (? & H1 & H); cbv beta in H
      | (if ?c then _ else _) = Ok _ => destruct c eqn:?
      | (match ?x with _ => _ end) = Ok _ => destruct x eqn:?
      | (let '(_, _) := ?x in _) = Ok _ => destruct x eqn:?
      end ].

Lemma length_insert_at {A} (i : nat) (k : A) (l : list A) :
  length (insert_at i k l) = S (length l).
Proof.
  unfold insert_at. rewrite length_app. simpl. rewrite length_take, length_drop. lia.
Qed.

Lemma beach_at_valid (l : list Intersection) (i : nat) (e : Intersection) :
  beach_at l i = Ok e -> i < length l.
Proof.
  unfold beach_at. destruct (nth_error l i) eqn:E; [|discriminate].
  intros _. apply nth_error_Some. congruence.
Qed.

Lemma set_insert_success_length {A} (comp : A -> A -> result bool) (k : A)
    (l l' : list A) (pos : nat) :
  set_insert comp k l = Ok (l', pos, true) -> length l' = S (length l).
Proof.
  intros H. apply set_insert_cases in H.
  destruct H as [[? _]|(_ & _ & ->)]; [discriminate|]. apply length_insert_at.
Qed.

(** A site event adds two entries to the beach line and leaves the graph
    and the bounding box alone. *)
Lemma processPoint_effect (i : nat) (s s' : Implementation) :
  processPoint i s = Ok s' ->
  same_graph s s' /\ same_box s s' /\ s'.(m_points) = s.(m_points)
  /\ length s'.(m_beach) = length s.(m_beach) + 2.
Proof.
  unfold processPoint. intros H.
  apply bind_Ok in H. destruct H as (pt & _ & H). cbv beta zeta in H.
  cbn [m_beach set_sweep_y m_events m_points] in H.
  destruct (m_beach s) as [|b0 l0].
  - unfold set_insert in H. simpl upper_bound in H. rewrite !bind_ret_l in H.
    cbv beta iota in H.
    rewrite upper_bound_cons_eq, BeachCompare_right_end_lt in H. simpl in H.
    injection H as <-. repeat split.
  - apply bind_Ok in H. destruct H as (i2 & _ & H).
    destruct i2 as [|i1]; [discriminate|].
    apply bind_Ok in H. destruct H as (it1 & _ & H).
    apply bind_Ok in H. destruct H as ([[b1 p1] c1] & H1 & H).
    apply bind_Ok in H. destruct H as (u1 & A1 & H). apply assert_Ok in A1. subst c1.
    apply bind_Ok in H. destruct H as (q1 & _ & H).
    apply bind_Ok in H. destruct H as ([[b2 p2] c2] & H2 & H).
    apply bind_Ok in H. destruct H as (u2 & A2 & H). apply assert_Ok in A2. subst c2.
    apply bind_Ok in H. destruct H as (it2 & _ & H).
    apply bind_Ok in H. destruct H as (q2 & _ & H).
    apply bind_Ok in H. destruct H as (q3 & _ & H).
    injection H as <-. repeat split. simpl.
    apply set_insert_success_length in H1, H2. simpl in H1. lia.
Qed.

(** The first part of a circle event removes one entry of the beach line
    (two are erased, one is inserted) and leaves the graph and the bounding
    box alone. *)
Lemma processEvent_beach_effect (event : CircleEvent) (s s' : Implementation) :
  processEvent_beach event s = Ok s' ->
  same_graph s s' /\ same_box s s' /\ s'.(m_points) = s.(m_points)
  /\ S (length s'.(m_beach)) = length s.(m_beach).
Proof.
  unfold processEvent_beach. cbv zeta. intros H.
  do 3 (apply bind_Ok in H; destruct H as (? & _ & H)).
  apply bind_Ok in H. destruct H as (it & _ & H).
  destruct it as [i|]; [|discriminate].
  apply bind_Ok in H. destruct H as (? & _ & H).
  apply bind_Ok in H. destruct H as (left_neighbor & _ & H).
  apply bind_Ok in H. destruct H as (left_it & _ & H).
  do 2 (apply bind_Ok in H; destruct H as (? & _ & H)).
  apply bind_Ok in H. destruct H as (right_it & _ & H).
  do 2 (apply bind_Ok in H; destruct H as (? & _ & H)).
  apply bind_Ok in H. destruct H as (right_neighbor & Hrn & H).
  do 2 (apply bind_Ok in H; destruct H as (? & _ & H)).
  apply bind_Ok in H. destruct H as (q1 & _ & H).
  apply bind_Ok in H. destruct H as (q2 & _ & H).
  apply bind_Ok in H. destruct H as ([[b1 p1] c1] & H1 & H).
  apply bind_Ok in H. destruct H as (u1 & A1 & H). apply assert_Ok in A1. subst c1.
  apply bind_Ok in H. destruct H as (q3 & _ & H).
  apply bind_Ok in H. destruct H as (q4 & _ & H).
  injection H as <-. repeat split. simpl.
  apply set_insert_success_length in H1. apply beach_at_valid in Hrn.
  rewrite H1, !length_erase_at; rewrite ?length_erase_at; lia.
Qed.

(** ** The graph under construction *)

Lemma nth_error_lookup {A} (l : list A) (i : nat) : nth_error l i = l !! i.
Proof. revert i. induction l as [|a l IH]; intros [|i]; simpl; auto. Qed.

Lemma nth_error_alter {A} (f : A -> A) (l : list A) (i j : nat) :
  nth_error (alter f i l) j
  = if decide (i = j) then f <$> nth_error l j else nth_error l j.
Proof.
  rewrite !nth_error_lookup. destruct (decide (i = j)) as [->|N].
  - apply list_lookup_alter_eq.
  - apply list_lookup_alter_ne, N.
Qed.

Lemma add_edge_to_obs (n e : nat) (s : Implementation) (k : nat) :
  n < length s.(m_node_objs) ->
  node_edges (add_edge_to n e s) k
  = (if decide (n = k) then node_edges s k ∪ {[e]} else node_edges s k)
  /\ node_neighbors (add_edge_to n e s) k = node_neighbors s k
  /\ node_parents (add_edge_to n e s) k = node_parents s k.
Proof.
  intros Hn. unfold node_edges, node_neighbors, node_parents, add_edge_to. simpl.
  rewrite nth_error_alter. destruct (decide (n = k)) as [->|N]; [|auto].
  destruct (nth_error (m_node_objs s) k) eqn:E; simpl; [auto|].
  apply nth_error_None in E. lia.
Qed.

Lemma add_neighbor_to_obs (n m : nat) (s : Implementation) (k : nat) :
  n < length s.(m_node_objs) ->
  node_neighbors (add_neighbor_to n m s) k
  = (if decide (n = k) then node_neighbors s k ∪ {[m]} else node_neighbors s k)
  /\ node_edges (add_neighbor_to n m s) k = node_edges s k
  /\ node_parents (add_neighbor_to n m s) k = node_parents s k.
Proof.
  intros Hn. unfold node_edges, node_neighbors, node_parents, add_neighbor_to. simpl.
  rewrite nth_error_alter. destruct (decide (n = k)) as [->|N]; [|auto].
  destruct (nth_error (m_node_objs s) k) eqn:E; simpl; [auto|].
  apply nth_error_None in E. lia.
Qed.

Lemma add_edge_to_frame (n e : nat) (s : Implementation) :
  (add_edge_to n e s).(m_edges) = s.(m_edges)
  /\ length (add_edge_to n e s).(m_node_objs) = length s.(m_node_objs).
Proof. unfold add_edge_to. simpl. rewrite length_alter. auto. Qed.

Lemma add_neighbor_to_frame (n m : nat) (s : Implementation) :
  (add_neighbor_to n m s).(m_edges) = s.(m_edges)
  /\ length (add_neighbor_to n m s).(m_node_objs) = length s.(m_node_objs).
Proof. unfold add_neighbor_to. simpl. rewrite length_alter. auto. Qed.

(** What [addEdge] appends. *)
Lemma addEdge_Ok (nodeA nodeB : nat) (s s1 : Implementation) (e : nat) :
  addEdge nodeA nodeB s = Ok (e, s1) ->
  e = length s.(m_edges)
  /\ s1.(m_edges)
     = s.(m_edges)
       ++ [Edge.mk (node_parents s nodeA ∩ node_parents s nodeB) (nodeA, nodeB) ∅]
  /\ s1.(m_node_objs) = s.(m_node_objs)
  /\ nodeA < length s.(m_node_objs) /\ nodeB < length s.(m_node_objs).
Proof.
  unfold addEdge, node_obj, node_parents. intros H.
  destruct (nth_error (m_node_objs s) nodeA) as [a|] eqn:Ea; [|discriminate].
  destruct (nth_error (m_node_objs s) nodeB) as [b|] eqn:Eb; [|discriminate].
  simpl in H. injection H as <- <-. simpl. repeat split.
  - apply nth_error_Some. congruence.
  - apply nth_error_Some. congruence.
Qed.

Lemma node_edges_add_edge_to (n e : nat) (s : Implementation) (k : nat) :
  n < length s.(m_node_objs) ->
  node_edges (add_edge_to n e s) k
  = if decide (n = k) then node_edges s k ∪ {[e]} else node_edges s k.
Proof. intros H. apply add_edge_to_obs, H. Qed.

Lemma node_neighbors_add_neighbor_to (n m : nat) (s : Implementation) (k : nat) :
  n < length s.(m_node_objs) ->
  node_neighbors (add_neighbor_to n m s) k
  = if decide (n = k) then node_neighbors s k ∪ {[m]} else node_neighbors s k.
Proof. intros H. apply add_neighbor_to_obs, H. Qed.

Lemma node_edges_add_neighbor_to (n m : nat) (s : Implementation) (k : nat) :
  node_edges (add_neighbor_to n m s) k = node_edges s k.
Proof.
  unfold node_edges, add_neighbor_to. simpl. rewrite nth_error_alter.
  destruct (decide (n = k)); [|reflexivity].
  destruct (nth_error (m_node_objs s) k); reflexivity.
Qed.

Lemma node_neighbors_add_edge_to (n e : nat) (s : Implementation) (k : nat) :
  node_neighbors (add_edge_to n e s) k = node_neighbors s k.
Proof.
  unfold node_neighbors, add_edge_to. simpl. rewrite nth_error_alter.
  destruct (decide (n = k)); [|reflexivity].
  destruct (nth_error (m_node_objs s) k); reflexivity.
Qed.

Lemma node_parents_add_edge_to (n e : nat) (s : Implementation) (k : nat) :
  node_parents (add_edge_to n e s) k = node_parents s k.
Proof.
  unfold node_parents, add_edge_to. simpl. rewrite nth_error_alter.
  destruct (decide (n = k)); [|reflexivity].
  destruct (nth_error (m_node_objs s) k); reflexivity.
Qed.

Lemma node_parents_add_neighbor_to (n m : nat) (s : Implementation) (k : nat) :
  node_parents (add_neighbor_to n m s) k = node_parents s k.
Proof.
  unfold node_parents, add_neighbor_to. simpl. rewrite nth_error_alter.
  destruct (decide (n = k)); [|reflexivity].
  destruct (nth_error (m_node_objs s) k); reflexivity.
Qed.

Lemma length_objs_add_edge_to (n e : nat) (s : Implementation) :
  length (add_edge_to n e s).(m_node_objs) = length s.(m_node_objs).
Proof. apply add_edge_to_frame. Qed.

Lemma length_objs_add_neighbor_to (n m : nat) (s : Implementation) :
  length (add_neighbor_to n m s).(m_node_objs) = length s.(m_node_objs).
Proof. apply add_neighbor_to_frame. Qed.

Lemma m_edges_add_edge_to (n e : nat) (s : Implementation) :
  (add_edge_to n e s).(m_edges) = s.(m_edges).
Proof. reflexivity. Qed.

Lemma m_edges_add_neighbor_to (n m : nat) (s : Implementation) :
  (add_neighbor_to n m s).(m_edges) = s.(m_edges).
Proof. reflexivity. Qed.

Lemma node_obs_same_objs (s s1 : Implementation) (k : nat) :
  s1.(m_node_objs) = s.(m_node_objs) ->
  node_edges s1 k = node_edges s k /\ node_neighbors s1 k = node_neighbors s k
  /\ node_parents s1 k = node_parents s k.
Proof. unfold node_edges, node_neighbors, node_parents. intros ->. auto. Qed.

(** What a returning [addTriplet] leaves: three more edges, from each of
    the three nodes to the hub, listed by both of their ends, and the hub
    and the three nodes as mutual neighbours. *)
Lemma addTriplet_Ok (center nodeA nodeB nodeC : nat) (s s' : Implementation) :
  addTriplet center nodeA nodeB nodeC s = Ok s' ->
  let L := length s.(m_edges) in
  (center < length s.(m_node_objs) /\ nodeA < length s.(m_node_objs)
   /\ nodeB < length s.(m_node_objs) /\ nodeC < length s.(m_node_objs))
  /\ length s'.(m_node_objs) = length s.(m_node_objs)
  /\ s'.(m_edges)
     = s.(m_edges)
       ++ [Edge.mk (node_parents s nodeA ∩ node_parents s center) (nodeA, center) ∅;
           Edge.mk (node_parents s nodeB ∩ node_parents s center) (nodeB, center) ∅;
           Edge.mk (node_parents s nodeC ∩ node_parents s center) (nodeC, center) ∅]
  /\ (forall k, node_parents s' k = node_parents s k)
  /\ (forall k,
        node_edges s' k
        = node_edges s k
          ∪ (if decide (nodeA = k) then {[L]} else ∅)
          ∪ (if decide (nodeB = k) then {[L + 1]} else ∅)
          ∪ (if decide (nodeC = k) then {[L + 2]} else ∅)
          ∪ (if decide (center = k) then {[L; L + 1; L + 2]} else ∅))
  /\ (forall k,
        node_neighbors s' k
        = node_neighbors s k
          ∪ (if decide (nodeA = k) then {[center]} else ∅)
          ∪ (if decide (nodeB = k) then {[center]} else ∅)
          ∪ (if decide (nodeC = k) then {[center]} else ∅)
          ∪ (if decide (center = k) then {[nodeA; nodeB; nodeC]} else ∅)).
Proof.
  intros H L. unfold addTriplet in H.
  apply bind_Ok in H. destruct H as ([e1 s1] & H1 & H).
  apply bind_Ok in H. destruct H as ([e2 s2] & H2 & H).
  apply bind_Ok in H. destruct H as ([e3 s3] & H3 & H).
  injection H as <-.
  apply addEdge_Ok in H1, H2, H3.
  destruct H1 as (-> & E1 & O1 & A1 & C1).
  destruct H2 as (-> & E2 & O2 & A2 & C2).
  destruct H3 as (-> & E3 & O3 & A3 & C3).
  rewrite O2, O1 in A3, C3. rewrite O1 in A2, C2.
  assert (length (m_node_objs s3) = length (m_node_objs s)) as Hlen by congruence.
  assert (forall k, node_parents s1 k = node_parents s k) as P1
    by (intros k; apply (node_obs_same_objs s s1 k O1)).
  assert (forall k, node_parents s2 k = node_parents s k) as P2
    by (intros k; rewrite <- P1; apply (node_obs_same_objs s1 s2 k O2)).
  assert (forall k, node_parents s3 k = node_parents s k) as P3
    by (intros k; rewrite <- P2; apply (node_obs_same_objs s2 s3 k O3)).
  assert (forall k, node_edges s3 k = node_edges s k) as Q3.
  { intros k. unfold node_edges. rewrite O3, O2, O1. reflexivity. }
  assert (forall k, node_neighbors s3 k = node_neighbors s k) as N3.
  { intros k. unfold node_neighbors. rewrite O3, O2, O1. reflexivity. }
  assert (length (m_edges s1) = L + 1) as L1
    by (rewrite E1, length_app; simpl; unfold L; lia).
  assert (length (m_edges s2) = L + 2) as L2
    by (rewrite E2, length_app; simpl; lia).
  split; [auto|]. split; [|split; [|split; [|split]]].
  - rewrite !length_objs_add_neighbor_to, !length_objs_add_edge_to. exact Hlen.
  - rewrite !m_edges_add_neighbor_to, !m_edges_add_edge_to.
    rewrite E3, E2, E1, !P2, !P1, <- !app_assoc. reflexivity.
  - intros k. rewrite !node_parents_add_neighbor_to, !node_parents_add_edge_to. apply P3.
  - intros k. rewrite !node_edges_add_neighbor_to.
    rewrite !node_edges_add_edge_to
      by (rewrite ?length_objs_add_edge_to; lia).
    rewrite Q3, L1, L2. fold L.
    replace (L + 0) with L by lia.
    apply set_eq. intros z. repeat destruct (decide _); set_unfold; tauto.
  - intros k.
    rewrite !node_neighbors_add_neighbor_to
      by (rewrite ?length_objs_add_neighbor_to, ?length_objs_add_edge_to; lia).
    rewrite !node_neighbors_add_edge_to. rewrite N3.
    apply set_eq. intros z. repeat destruct (decide _); set_unfold; tauto.
Qed.

Lemma edge_joins_old (es new : list Edge.t) (e n m : nat) :
  e < length es -> (edge_joins (es ++ new) e n m <-> edge_joins es e n m).
Proof.
  intros H. unfold edge_joins. rewrite nth_error_app1 by exact H. reflexivity.
Qed.

Lemma edge_joins_three (es : list Edge.t) (pa pb pc : gset nat) (a b c h : nat)
    (e n m : nat) :
  edge_joins (es ++ [Edge.mk pa (a, h) ∅; Edge.mk pb (b, h) ∅; Edge.mk pc (c, h) ∅]) e n m
  <-> edge_joins es e n m
      \/ (e = length es /\ ((n = a /\ m = h) \/ (n = h /\ m = a)))
      \/ (e = length es + 1 /\ ((n = b /\ m = h) \/ (n = h /\ m = b)))
      \/ (e = length es + 2 /\ ((n = c /\ m = h) \/ (n = h /\ m = c))).
Proof.
  destruct (Nat.lt_ge_cases e (length es)) as [Hlt|Hge].
  - rewrite edge_joins_old by exact Hlt. split; [auto|].
    intros [H|[[? _]|[[? _]|[? _]]]]; [exact H|lia|lia|lia].
  - unfold edge_joins. rewrite nth_error_app2 by exact Hge.
    assert (nth_error es e = None) as N by (apply nth_error_None; exact Hge).
    rewrite N.
    destruct (e - length es) as [|[|[|k]]] eqn:D; simpl.
    + split.
      * intros (edge & [= <-] & [E|E]); injection E as <- <-;
          right; left; split; [lia|auto|lia|auto].
      * intros [(? & ? & _)|[(_ & H)|[(? & _)|(? & _)]]]; [discriminate| |lia|lia].
        eexists; split; [reflexivity|]. simpl.
        destruct H as [[-> ->]|[-> ->]]; auto.
    + split.
      * intros (edge & [= <-] & [E|E]); injection E as <- <-;
          right; right; left; split; [lia|auto|lia|auto].
      * intros [(? & ? & _)|[(? & _)|[(_ & H)|(? & _)]]]; [discriminate|lia| |lia].
        eexists; split; [reflexivity|]. simpl.
        destruct H as [[-> ->]|[-> ->]]; auto.
    + split.
      * intros (edge & [= <-] & [E|E]); injection E as <- <-;
          right; right; right; split; [lia|auto|lia|auto].
      * intros [(? & ? & _)|[(? & _)|[(? & _)|(_ & H)]]]; [discriminate|lia|lia|].
        eexists; split; [reflexivity|]. simpl.
        destruct H as [[-> ->]|[-> ->]]; auto.
    + split.
      * intros (edge & E & _). destruct k; discriminate.
      * intros [(? & ? & _)|[(? & _)|[(? & _)|(? & _)]]]; [discriminate|lia|lia|lia].
Qed.

Lemma addTriplet_graph_ok (center nodeA nodeB nodeC : nat) (s s' : Implementation) :
  addTriplet center nodeA nodeB nodeC s = Ok s' -> graph_ok s -> graph_ok s'.
Proof.
  intros H (G1 & G2 & G3 & G4).
  destruct (addTriplet_Ok _ _ _ _ _ _ H) as ((Hc & Ha & Hb & HC) & Hlen & He & Hp & Hed & Hnb).
  assert (forall e n m, edge_joins (m_edges s) e n m -> e < length (m_edges s)) as Hold.
  { intros e n m (edge & E & _). apply nth_error_Some. congruence. }
  unfold graph_ok. rewrite Hlen, He. split; [|split; [|split]].
  - intros e n m J. apply edge_joins_three in J.
    destruct J as [J|[(_ & J)|[(_ & J)|(_ & J)]]]; [exact (G1 _ _ _ J)| | |];
      destruct J as [[-> ->]|[-> ->]]; auto.
  - intros n e. rewrite Hed. setoid_rewrite edge_joins_three.
    rewrite !elem_of_union, G2. split.
    + intros [[[[(m & J)|H1]|H2]|H3]|H4].
      * exists m. auto.
      * destruct (decide (nodeA = n)) as [<-|]; [|set_unfold; tauto].
        apply elem_of_singleton in H1. exists center. auto 10.
      * destruct (decide (nodeB = n)) as [<-|]; [|set_unfold; tauto].
        apply elem_of_singleton in H2. exists center. auto 10.
      * destruct (decide (nodeC = n)) as [<-|]; [|set_unfold; tauto].
        apply elem_of_singleton in H3. exists center. auto 10.
      * destruct (decide (center = n)) as [<-|]; [|set_unfold; tauto].
        rewrite ?elem_of_union, ?elem_of_singleton in H4.
        destruct H4 as [[E4|E4]|E4]; rewrite E4;
          [exists nodeA|exists nodeB|exists nodeC]; auto 10.
    + intros (m & [J|[(-> & J)|[(-> & J)|(-> & J)]]]).
      * left. left. left. left. eauto.
      * destruct J as [[-> ->]|[-> ->]].
        -- left. left. left. right. rewrite decide_True by reflexivity. set_unfold; auto.
        -- right. rewrite decide_True by reflexivity. set_unfold; auto.
      * destruct J as [[-> ->]|[-> ->]].
        -- left. left. right. rewrite decide_True by reflexivity. set_unfold; auto.
        -- right. rewrite decide_True by reflexivity. set_unfold; auto.
      * destruct J as [[-> ->]|[-> ->]].
        -- left. right. rewrite decide_True by reflexivity. set_unfold; auto.
        -- right. rewrite decide_True by reflexivity. set_unfold; auto.
  - intros n m. rewrite Hnb. setoid_rewrite edge_joins_three.
    rewrite !elem_of_union, G3. split.
    + intros [[[[(e & J)|H1]|H2]|H3]|H4].
      * exists e. auto.
      * destruct (decide (nodeA = n)) as [<-|]; [|set_unfold; tauto].
        apply elem_of_singleton in H1. subst m. exists (length (m_edges s)). auto 10.
      * destruct (decide (nodeB = n)) as [<-|]; [|set_unfold; tauto].
        apply elem_of_singleton in H2. subst m. exists (length (m_edges s) + 1). auto 10.
      * destruct (decide (nodeC = n)) as [<-|]; [|set_unfold; tauto].
        apply elem_of_singleton in H3. subst m. exists (length (m_edges s) + 2). auto 10.
      * destruct (decide (center = n)) as [<-|]; [|set_unfold; tauto].
        rewrite ?elem_of_union, ?elem_of_singleton in H4.
        destruct H4 as [[E4|E4]|E4]; rewrite E4;
          [exists (length (m_edges s))|exists (length (m_edges s) + 1)
          |exists (length (m_edges s) + 2)]; auto 10.
    + intros (e & [J|[(-> & J)|[(-> & J)|(-> & J)]]]).
      * left. left. left. left. eauto.
      * destruct J as [[-> ->]|[-> ->]].
        -- left. left. left. right. rewrite decide_True by reflexivity. set_unfold; auto.
        -- right. rewrite decide_True by reflexivity. set_unfold; auto.
      * destruct J as [[-> ->]|[-> ->]].
        -- left. left. right. rewrite decide_True by reflexivity. set_unfold; auto.
        -- right. rewrite decide_True by reflexivity. set_unfold; auto.
      * destruct J as [[-> ->]|[-> ->]].
        -- left. right. rewrite decide_True by reflexivity. set_unfold; auto.
        -- right. rewrite decide_True by reflexivity. set_unfold; auto.
  - intros e edge E. rewrite !Hp.
    destruct (Nat.lt_ge_cases e (length (m_edges s))) as [Hlt|Hge].
    + rewrite nth_error_app1 in E by exact Hlt. exact (G4 _ _ E).
    + rewrite nth_error_app2 in E by exact Hge.
      destruct (e - length (m_edges s)) as [|[|[|k]]]; simpl in E;
        try (injection E as <-; simpl; auto).
      destruct k; discriminate.
Qed.

Lemma same_box_refl (s : Implementation) : same_box s s.
Proof. repeat split. Qed.

Lemma same_box_trans (s s1 s2 : Implementation) :
  same_box s s1 -> same_box s1 s2 -> same_box s s2.
Proof. unfold same_box. intros (? & ? & ? & ?) (? & ? & ? & ?). repeat split; congruence. Qed.

(** A returning [getNode] found the node, or appended one without edges and
    without neighbours. *)
Lemma getNode3_Ok_objs (a b c : ptr) (s s1 : Implementation) (n : nat) :
  getNode3 a b c s = Ok (n, s1) ->
  s1.(m_edges) = s.(m_edges) /\ same_box s s1
  /\ (s1.(m_node_objs) = s.(m_node_objs)
      \/ exists o, s1.(m_node_objs) = s.(m_node_objs) ++ [o]
                   /\ Node.edges o = ∅ /\ Node.neighbors o = ∅).
Proof.
  unfold getNode3. destruct (orderPoints (a, b, c)) as [[a' b'] c'].
  destruct (m_nodes s !! (a', b', c')) as [[m|]|].
  - intros [= <- <-]. repeat split. auto.
  - discriminate.
  - intros E. repeat (apply bind_Ok in E; destruct E as (? & _ & E)).
    injection E as <- <-. repeat split. right. eexists. simpl. eauto.
Qed.

Lemma getNode2_Ok_objs (a b : ptr) (s s1 : Implementation) (n : nat) :
  getNode2 a b s = Ok (n, s1) ->
  s1.(m_edges) = s.(m_edges) /\ same_box s s1
  /\ (s1.(m_node_objs) = s.(m_node_objs)
      \/ exists o, s1.(m_node_objs) = s.(m_node_objs) ++ [o]
                   /\ Node.edges o = ∅ /\ Node.neighbors o = ∅).
Proof.
  unfold getNode2. destruct (if ptr_gtb a b then (b, a) else (a, b)) as [a' b'].
  destruct (m_nodes s !! (a', b', None)) as [[m|]|].
  - intros [= <- <-]. repeat split. auto.
  - discriminate.
  - intros E. repeat (apply bind_Ok in E; destruct E as (? & _ & E)).
    injection E as <- <-. repeat split. right. eexists. simpl. eauto.
Qed.

Lemma graph_ok_objs (s s1 : Implementation) :
  graph_ok s ->
  s1.(m_edges) = s.(m_edges) ->
  (s1.(m_node_objs) = s.(m_node_objs)
   \/ exists o, s1.(m_node_objs) = s.(m_node_objs) ++ [o]
                /\ Node.edges o = ∅ /\ Node.neighbors o = ∅) ->
  graph_ok s1
  /\ length s.(m_node_objs) <= length s1.(m_node_objs) <= S (length s.(m_node_objs)).
Proof.
  intros (G1 & G2 & G3 & G4) Ee [Eo|(o & Eo & Oe & On)].
  - split; [|rewrite Eo; lia].
    unfold graph_ok, node_edges, node_neighbors, node_parents in *.
    rewrite Ee, Eo. auto.
  - split; [|rewrite Eo, length_app; simpl; lia].
    assert (forall k, node_edges s1 k = node_edges s k) as Qe.
    { intros k. unfold node_edges. rewrite Eo.
      destruct (Nat.lt_ge_cases k (length (m_node_objs s))) as [Hlt|Hge].
      - rewrite nth_error_app1 by exact Hlt. reflexivity.
      - rewrite nth_error_app2 by exact Hge.
        assert (nth_error (m_node_objs s) k = None) as -> by (apply nth_error_None; lia).
        destruct (k - length (m_node_objs s)) as [|[|j]]; simpl; auto. }
    assert (forall k, node_neighbors s1 k = node_neighbors s k) as Qn.
    { intros k. unfold node_neighbors. rewrite Eo.
      destruct (Nat.lt_ge_cases k (length (m_node_objs s))) as [Hlt|Hge].
      - rewrite nth_error_app1 by exact Hlt. reflexivity.
      - rewrite nth_error_app2 by exact Hge.
        assert (nth_error (m_node_objs s) k = None) as -> by (apply nth_error_None; lia).
        destruct (k - length (m_node_objs s)) as [|[|j]]; simpl; auto. }
    assert (forall k, k < length (m_node_objs s) -> node_parents s1 k = node_parents s k)
      as Qp.
    { intros k Hlt. unfold node_parents. rewrite Eo, nth_error_app1 by exact Hlt.
      reflexivity. }
    unfold graph_ok. rewrite Ee. split; [|split; [|split]].
    + intros e n m J. destruct (G1 _ _ _ J). rewrite Eo, length_app. simpl. lia.
    + intros n e. rewrite Qe. apply G2.
    + intros n m. rewrite Qn. apply G3.
    + intros e edge E. destruct (G4 _ _ E) as [P N]. split; [|exact N].
      assert (edge_joins (m_edges s) e (Edge.nodes edge).1 (Edge.nodes edge).2) as J.
      { exists edge. split; [exact E|]. left. destruct (Edge.nodes edge); reflexivity. }
      destruct (G1 _ _ _ J). rewrite !Qp by assumption. exact P.
Qed.

(** The second part of a circle event adds exactly three edges and at most
    four nodes, and keeps the graph consistent. *)
Lemma processEvent_graph_effect (event : CircleEvent) (s s' : Implementation) :
  processEvent_graph event s = Ok s' ->
  graph_ok s ->
  graph_ok s'
  /\ length s'.(m_edges) = length s.(m_edges) + 3
  /\ length s.(m_node_objs) <= length s'.(m_node_objs) <= length s.(m_node_objs) + 4
  /\ firstn (length s.(m_edges)) s'.(m_edges) = s.(m_edges)
  /\ same_sweep s s' /\ same_box s s'.
Proof.
  unfold processEvent_graph. cbv zeta. intros H G.
  apply bind_Ok in H. destruct H as (? & _ & H).
  apply bind_Ok in H. destruct H as ([n0 s0] & H0 & H).
  apply bind_Ok in H. destruct H as ([n1 s1] & H1 & H).
  apply bind_Ok in H. destruct H as ([n2 s2] & H2 & H).
  apply bind_Ok in H. destruct H as ([n3 s3] & H3 & H).
  apply bind_Ok in H. destruct H as (? & _ & H).
  apply bind_Ok in H. destruct H as (pa & _ & H).
  apply bind_Ok in H. destruct H as (pb & _ & H).
  apply bind_Ok in H. destruct H as (pc & _ & H).
  pose proof (getNode3_same_sweep _ _ _ _ _ _ H0) as F0.
  pose proof (getNode2_same_sweep _ _ _ _ _ H1) as F1.
  pose proof (getNode2_same_sweep _ _ _ _ _ H2) as F2.
  pose proof (getNode2_same_sweep _ _ _ _ _ H3) as F3.
  apply getNode3_Ok_objs in H0. destruct H0 as (E0 & B0 & O0).
  apply getNode2_Ok_objs in H1. destruct H1 as (E1 & B1 & O1).
  apply getNode2_Ok_objs in H2. destruct H2 as (E2 & B2 & O2).
  apply getNode2_Ok_objs in H3. destruct H3 as (E3 & B3 & O3).
  destruct (graph_ok_objs s s0 G E0 O0) as [G0 L0].
  destruct (graph_ok_objs s0 s1 G0 E1 O1) as [G1 L1].
  destruct (graph_ok_objs s1 s2 G1 E2 O2) as [G2 L2].
  destruct (graph_ok_objs s2 s3 G2 E3 O3) as [G3 L3].
  assert (m_edges s3 = m_edges s) as E by congruence.
  assert (same_sweep s s3) as F by eauto using same_sweep_trans.
  assert (same_box s s3) as B by eauto using same_box_trans.
  assert (forall c a b d, addTriplet c a b d s3 = Ok s' ->
            graph_ok s'
            /\ length (m_edges s') = length (m_edges s) + 3
            /\ length (m_node_objs s) <= length (m_node_objs s')
               <= length (m_node_objs s) + 4
            /\ take (length (m_edges s)) (m_edges s') = m_edges s
            /\ same_sweep s s' /\ same_box s s') as HT.
  { intros c a b d T.
    pose proof (addTriplet_graph_ok _ _ _ _ _ _ T G3) as G'.
    destruct (addTriplet_frame _ _ _ _ _ _ T) as (F' & _ & _).
    destruct (addTriplet_Ok _ _ _ _ _ _ T) as (_ & Hlen & He & _).
    split; [exact G'|]. rewrite He, E, length_app, Hlen. simpl.
    split; [lia|]. split; [lia|]. split; [apply take_app_length|].
    split; [eapply same_sweep_trans; eassumption|].
    eapply same_box_trans; [exact B|].
    unfold addTriplet in T.
    apply bind_Ok in T. destruct T as ([e1 t1] & T1 & T).
    apply bind_Ok in T. destruct T as ([e2 t2] & T2 & T).
    apply bind_Ok in T. destruct T as ([e3 t3] & T3 & T).
    injection T as <-.
    unfold addEdge in T1, T2, T3.
    repeat (apply bind_Ok in T1; destruct T1 as (? & _ & T1)).
    repeat (apply bind_Ok in T2; destruct T2 as (? & _ & T2)).
    repeat (apply bind_Ok in T3; destruct T3 as (? & _ & T3)).
    injection T1 as _ <-. injection T2 as _ <-. injection T3 as _ <-.
    repeat split. }
  repeat match type of H with
    | (if ?c then _ else _) = Ok _ => destruct c
    end; eapply HT; exact H.
Qed.

Lemma graph_ok_same (s s1 : Implementation) :
  graph_ok s -> same_graph s s1 -> graph_ok s1.
Proof.
  intros G (_ & Eo & Ee).
  unfold graph_ok, node_edges, node_neighbors, node_parents in *.
  rewrite Eo, Ee. exact G.
Qed.

Lemma same_box_events (q : list CircleEvent) (s : Implementation) :
  same_box s (set_events q s) /\ same_graph s (set_events q s).
Proof. repeat split. Qed.

(** What one iteration of the loop does: it consumes a site, and the beach
    line grows by two entries while the graph stays as it is; or it consumes
    a circle event, and the beach line shrinks by one entry while the graph
    gains three edges and at most four nodes. *)
Lemma compute_step_effect (points : list Point) (ordered : list nat) (ii ii' : nat)
    (s s' : Implementation) :
  compute_step points ordered ii s = Ok (ii', s') ->
  graph_ok s ->
  graph_ok s' /\ same_box s s'
  /\ ((ii' = S ii
       /\ length s'.(m_beach) = length s.(m_beach) + 2
       /\ same_graph s s')
      \/ (ii' = ii
          /\ S (length s'.(m_beach)) = length s.(m_beach)
          /\ length s'.(m_edges) = length s.(m_edges) + 3
          /\ firstn (length s.(m_edges)) s'.(m_edges) = s.(m_edges)
          /\ length s.(m_node_objs) <= length s'.(m_node_objs)
             <= length s.(m_node_objs) + 4)).
Proof.
  unfold compute_step. intros H G.
  apply bind_Ok in H. destruct H as (next & _ & H).
  apply bind_Ok in H. destruct H as ([ii1 s1] & H1 & H).
  apply bind_Ok in H. destruct H as (? & _ & H). injection H as <- <-.
  destruct next as [i|evt].
  - apply bind_Ok in H1. destruct H1 as (s2 & H2 & H1). injection H1 as <- <-.
    apply processPoint_effect in H2. destruct H2 as (Gr & B & _ & L).
    split; [eapply graph_ok_same; eassumption|]. split; [exact B|]. left. auto.
  - apply bind_Ok in H1. destruct H1 as (s2 & H2 & H1). injection H1 as <- <-.
    unfold processEvent in H2.
    apply bind_Ok in H2. destruct H2 as (s3 & H3 & H2).
    apply processEvent_beach_effect in H3. destruct H3 as (Gr & B & _ & L).
    simpl in Gr, B, L.
    assert (graph_ok s3) as G3.
    { eapply graph_ok_same; [|exact Gr].
      eapply graph_ok_same; [exact G|]. apply same_box_events. }
    apply processEvent_graph_effect in H2; [|exact G3].
    destruct H2 as (G' & Le & Lo & Ht & (_ & Eb & _) & B').
    destruct Gr as (_ & Eo & Ee). simpl in Eo, Ee.
    split; [exact G'|]. split; [eapply same_box_trans; eassumption|].
    right. rewrite Eb, <- Ee, <- Eo. auto 10.
Qed.

Lemma graph_ok_start (points : list Point) (s : Implementation) :
  s.(m_node_objs) = [] -> s.(m_edges) = [] -> graph_ok (bounding_box points s).
Proof.
  intros Eo Ee.
  destruct (bounding_box_frame points s) as (_ & _ & Eo' & Ee').
  unfold graph_ok, node_edges, node_neighbors, node_parents, edge_joins.
  rewrite Eo', Ee', Eo, Ee. split; [|split; [|split]].
  - intros e n m (edge & E & _). destruct e; discriminate.
  - intros n e. split.
    + destruct n; simpl; intros H; apply elem_of_empty in H; contradiction.
    + intros (m & edge & E & _). destruct e; discriminate.
  - intros n m. split.
    + destruct n; simpl; intros H; apply elem_of_empty in H; contradiction.
    + intros (e & edge & E & _). destruct e; discriminate.
  - intros e edge E. destruct e; discriminate.
Qed.

Lemma compute_steps_effect (points : list Point) (n : nat) :
  forall ii s,
    compute_steps n points = Ok (ii, s) ->
    graph_ok s
    /\ ii <= n
    /\ length s.(m_edges) = 3 * (n - ii)
    /\ length s.(m_beach) + (n - ii) = 2 * ii.
Proof.
  induction n as [|n IH]; intros ii s; simpl.
  - intros [= <- <-]. split; [apply graph_ok_start; reflexivity|].
    match goal with |- context [bounding_box points ?s0] =>
      destruct (bounding_box_frame points s0) as ((_ & -> & _) & _ & _ & ->)
    end.
    simpl. lia.
  - intros H. apply bind_Ok in H. destruct H as ([ii0 s0] & H0 & H).
    destruct (IH _ _ H0) as (G0 & Hle & He & Hb).
    destruct (compute_step_effect _ _ _ _ _ _ H G0) as (G & _ & [C|C]).
    + destruct C as (-> & Lb & (_ & _ & Ee)). rewrite Ee.
      split; [exact G|]. lia.
    + destruct C as (-> & Lb & Le & _). split; [exact G|]. lia.
Qed.

(** ** The diagram the constructor returns *)

Lemma fill_edge_neighbors_Ok (impl : Implementation) (es : list Edge.t) :
  forall e es',
    fill_edge_neighbors impl e es = Ok es' ->
    length es' = length es
    /\ forall i edge',
         nth_error es' i = Some edge' ->
         exists edge,
           nth_error es i = Some edge
           /\ Edge.nodes edge' = Edge.nodes edge
           /\ Edge.parents edge' = Edge.parents edge
           /\ Edge.neighbors edge'
              = Edge.neighbors edge
                ∪ (node_edges impl (Edge.nodes edge).1 ∖ {[e + i]})
                ∪ (node_edges impl (Edge.nodes edge).2 ∖ {[e + i]}).
Proof.
  induction es as [|edge es IH]; intros e es'; simpl.
  - intros [= <-]. split; [reflexivity|]. intros [|i] ?; discriminate.
  - intros H. apply bind_Ok in H. destruct H as (edge1 & H1 & H).
    apply bind_Ok in H. destruct H as (rest & Hr & H). injection H as <-.
    destruct (IH _ _ Hr) as [Hlen Hrest]. split; [simpl; congruence|].
    intros [|i] edge' E; simpl in E.
    + injection E as <-. exists edge. split; [reflexivity|].
      unfold edge_with_neighbors, node_obj in H1. unfold node_edges.
      destruct (nth_error (m_node_objs impl) (Edge.nodes edge).1); [|discriminate].
      destruct (nth_error (m_node_objs impl) (Edge.nodes edge).2); [|discriminate].
      simpl in H1. injection H1 as <-. simpl. rewrite Nat.add_0_r. auto.
    + destruct (Hrest _ _ E) as (edge0 & E0 & Hn & Hp & Hnb).
      exists edge0. simpl. replace (e + S i) with (S e + i) by lia. auto.
Qed.

(** X30: In the diagram the constructor returns, the neighbours of an edge are
    exactly the other edges that have an end in common with it: an edge is
    never its own neighbour, and the relation is symmetric. *)
Theorem Voronoi_edge_neighbors (fuel : nat) (points : list Point) (v : Voronoi) :
  Voronoi_new fuel points = Ok v ->
  forall i ei,
    nth_error v.(V_edges) i = Some ei ->
    (i ∉ Edge.neighbors ei)
    /\ (forall j,
          j ∈ Edge.neighbors ei
          <-> j <> i /\ exists ej, nth_error v.(V_edges) j = Some ej /\ shares_end ei ej)
    /\ (forall j ej,
          nth_error v.(V_edges) j = Some ej ->
          (j ∈ Edge.neighbors ei <-> i ∈ Edge.neighbors ej)).
Proof.
  unfold Voronoi_new. intros H.
  apply bind_Ok in H. destruct H as (impl & Hc & H).
  apply bind_Ok in H. destruct H as (nodes & _ & H).
  apply bind_Ok in H. destruct H as (edges & He & H). injection H as <-. simpl.
  apply compute_Ok_steps in Hc. destruct Hc as (n & Hn & _).
  apply compute_steps_effect in Hn. destruct Hn as ((G1 & G2 & G3 & G4) & _).
  apply fill_edge_neighbors_Ok in He. destruct He as [Hlen Hed].
  assert (forall i ei j,
            nth_error edges i = Some ei ->
            (j ∈ Edge.neighbors ei
             <-> j <> i /\ exists ej, nth_error edges j = Some ej /\ shares_end ei ej))
    as Hchar.
  { intros i ei j Ei.
    destruct (Hed _ _ Ei) as (edge & E & Hnodes & _ & Hnb). simpl in Hnb.
    destruct (G4 _ _ E) as [_ N]. rewrite Hnb, N, !elem_of_union, !elem_of_difference.
    rewrite !G2, elem_of_singleton. unfold shares_end. rewrite Hnodes.
    split.
    - intros [[H|[(m & ej & Ej & J) Hne]]|[(m & ej & Ej & J) Hne]].
      + apply elem_of_empty in H. contradiction.
      + split; [exact Hne|].
        assert (j < length edges) as Hj
          by (rewrite Hlen; apply nth_error_Some; congruence).
        destruct (nth_error edges j) as [ej'|] eqn:Ej';
          [|apply nth_error_None in Ej'; lia].
        destruct (Hed _ _ Ej') as (ej0 & Ej0 & Hn0 & _).
        assert (ej0 = ej) by congruence. subst ej0.
        exists ej'. split; [reflexivity|]. rewrite Hn0.
        destruct J as [J|J]; rewrite J; simpl; auto.
      + split; [exact Hne|].
        assert (j < length edges) as Hj
          by (rewrite Hlen; apply nth_error_Some; congruence).
        destruct (nth_error edges j) as [ej'|] eqn:Ej';
          [|apply nth_error_None in Ej'; lia].
        destruct (Hed _ _ Ej') as (ej0 & Ej0 & Hn0 & _).
        assert (ej0 = ej) by congruence. subst ej0.
        exists ej'. split; [reflexivity|]. rewrite Hn0.
        destruct J as [J|J]; rewrite J; simpl; auto.
    - intros (Hne & ej' & Ej' & S).
      destruct (Hed _ _ Ej') as (ej & Ej & Hn0 & _). rewrite Hn0 in S.
      destruct (Edge.nodes ej) as [a b] eqn:Nj. simpl in S.
      destruct S as [S|[S|[S|S]]].
      + left. right. split; [|exact Hne]. exists b, ej. rewrite S, Nj. auto.
      + left. right. split; [|exact Hne]. exists a, ej. rewrite S, Nj. auto.
      + right. split; [|exact Hne]. exists b, ej. rewrite S, Nj. auto.
      + right. split; [|exact Hne]. exists a, ej. rewrite S, Nj. auto. }
  intros i ei Ei. split; [|split].
  - intros Hin. apply (Hchar _ _ _ Ei) in Hin. destruct Hin as [Hne _]. congruence.
  - intros j. apply Hchar, Ei.
  - intros j ej Ej. rewrite (Hchar _ _ _ Ei), (Hchar _ _ _ Ej). split.
    + intros (Hne & ej' & Ej' & S). assert (ej' = ej) by congruence. subst ej'.
      split; [congruence|]. exists ei. split; [exact Ei|].
      unfold shares_end in *. intuition congruence.
    + intros (Hne & ei' & Ei' & S). assert (ei' = ei) by congruence. subst ei'.
      split; [congruence|]. exists ej. split; [exact Ej|].
      unfold shares_end in *. intuition congruence.
Qed.

Lemma Voronoi_obtuse : Voronoi_new 4 sites_obtuse = Ok diagram_obtuse.
Proof. vm_compute. reflexivity. Qed.

Lemma Voronoi_edge_neighbors_witness :
  match nth_error diagram_obtuse.(V_edges) 0 with
  | Some ei =>
      (0 ∉ Edge.neighbors ei)
      /\ (forall j,
            j ∈ Edge.neighbors ei
            <-> j <> 0 /\ exists ej, nth_error diagram_obtuse.(V_edges) j = Some ej
                                     /\ shares_end ei ej)
      /\ (forall j ej,
            nth_error diagram_obtuse.(V_edges) j = Some ej ->
            (j ∈ Edge.neighbors ei <-> 0 ∈ Edge.neighbors ej))
  | None => True
  end.
Proof.
  destruct (nth_error diagram_obtuse.(V_edges) 0) as [ei|] eqn:E; [|exact I].
  exact (Voronoi_edge_neighbors 4 sites_obtuse diagram_obtuse Voronoi_obtuse 0 ei E).
Defined.

Lemma compute_steps_after_obtuse :
  compute_steps 4 sites_obtuse = Ok (3, state_after_obtuse).
Proof. vm_compute. reflexivity. Qed.

(** X18: After any number of iterations of the loop of [compute] the graph is
    consistent: both ends of every edge are nodes of the store, a node lists
    exactly the edges it is an end of, the neighbours of a node are exactly
    the other ends of its edges, the parents of an edge are the parents its
    two ends have in common, and no edge has neighbours before the
    constructor sets them.  In particular the neighbour relation of the
    nodes is symmetric. *)
Theorem graph_invariant (points : list Point) (n ii : nat) (s : Implementation) :
  compute_steps n points = Ok (ii, s) ->
  graph_ok s
  /\ forall a b, b ∈ node_neighbors s a <-> a ∈ node_neighbors s b.
Proof.
  intros H. apply compute_steps_effect in H. destruct H as (G & _).
  split; [exact G|]. destruct G as (_ & _ & G3 & _).
  intros a b. rewrite !G3. unfold edge_joins.
  split; intros (e & edge & E & J); exists e, edge; tauto.
Qed.

Lemma graph_invariant_witness :
  graph_ok state_after_obtuse
  /\ forall a b, b ∈ node_neighbors state_after_obtuse a
                 <-> a ∈ node_neighbors state_after_obtuse b.
Proof.
  exact (graph_invariant sites_obtuse 4 3 state_after_obtuse compute_steps_after_obtuse).
Defined.

(** X17: After [n] iterations of which [ii] consumed a site, the other [n - ii]
    were circle events: the graph has three edges for each of them, and the
    beach line has two entries for each site less one for each circle
    event. *)
Theorem event_counts (points : list Point) (n ii : nat) (s : Implementation) :
  compute_steps n points = Ok (ii, s) ->
  ii <= n
  /\ length s.(m_edges) = 3 * (n - ii)
  /\ length s.(m_beach) + (n - ii) = 2 * ii.
Proof. intros H. apply compute_steps_effect in H. tauto. Qed.

Lemma event_counts_witness :
  3 <= 4
  /\ length state_after_obtuse.(m_edges) = 3 * (4 - 3)
  /\ length state_after_obtuse.(m_beach) + (4 - 3) = 2 * 3.
Proof.
  exact (event_counts sites_obtuse 4 3 state_after_obtuse compute_steps_after_obtuse).
Defined.

(** ** The bounding box *)

Lemma SFltb_neg_trans (a b c : spec_float) :
  SFeqb b b = true -> SFltb a c = true -> SFltb a b = true \/ SFltb b c = true.
Proof.
  unfold SFltb, SFeqb.
  destruct a as [sa|sa| |sa ma ea], b as [sb|sb| |sb mb eb], c as [sc|sc| |sc mc ec];
    simpl; try discriminate; auto;
    repeat match goal with s : bool |- _ => destruct s end;
    simpl; try discriminate; auto.
  all: change (PosDef.Pos.compare_cont Eq ?p ?q) with (Pos.compare p q).
  all: intros _.
  all: destruct (Z.compare_spec ea eb), (Z.compare_spec eb ec), (Z.compare_spec ea ec);
    try discriminate; auto; try lia; subst.
  all: destruct (Pos.compare_spec ma mb), (Pos.compare_spec mb mc), (Pos.compare_spec ma mc);
    simpl; try discriminate; auto; try lia.
Qed.

Lemma ltb_neg_trans (a b c : float) :
  isnan b = false -> (a <? c)%float = true ->
  (a <? b)%float = true \/ (b <? c)%float = true.
Proof.
  unfold isnan, is_nan. rewrite negb_false_iff, FloatAxioms.eqb_spec, !ltb_spec.
  apply SFltb_neg_trans.
Qed.

Lemma infinity_ltb (a : float) : (infinity <? a)%float = false.
Proof.
  rewrite ltb_spec. change (Prim2SF infinity) with (S754_infinity false).
  unfold SFltb. destruct (Prim2SF a) as [s|s| |s m e]; try destruct s; reflexivity.
Qed.

Lemma ltb_neg_infinity (a : float) : (a <? neg_infinity)%float = false.
Proof.
  rewrite ltb_spec. change (Prim2SF neg_infinity) with (S754_infinity true).
  unfold SFltb. destruct (Prim2SF a) as [s|s| |s m e]; try destruct s; reflexivity.
Qed.

Lemma bounding_box_snoc (l : list Point) (p : Point) (s : Implementation) :
  bounding_box (l ++ [p]) s
  = let t := bounding_box l s in
    mkImplementation t.(sweep_y) t.(m_beach) t.(m_events)
      (fmin p.(x) t.(m_min_x)) (fmax p.(x) t.(m_max_x))
      (fmin p.(y) t.(m_min_y)) (fmax p.(y) t.(m_max_y))
      t.(m_nodes) t.(m_node_objs) t.(m_edges) t.(m_points).
Proof. unfold bounding_box. rewrite fold_left_app. reflexivity. Qed.

Lemma fmin_cases (a m : float) : fmin a m = m \/ fmin a m = a.
Proof. unfold fmin. destruct (m <? a)%float; auto. Qed.

Lemma fmax_cases (a m : float) : fmax a m = m \/ fmax a m = a.
Proof. unfold fmax. destruct (a <? m)%float; auto. Qed.

Lemma fmin_lower (a m q : float) :
  isnan m = false -> (q <? m)%float = false -> (q <? fmin a m)%float = false.
Proof.
  intros Hm Hq. unfold fmin. destruct (m <? a)%float eqn:E; [exact Hq|].
  destruct (q <? a)%float eqn:E'; [|reflexivity].
  destruct (ltb_neg_trans q m a Hm E'); congruence.
Qed.

Lemma fmin_self (a m : float) : (a <? fmin a m)%float = false.
Proof.
  unfold fmin. destruct (m <? a)%float eqn:E; [apply ltb_asym, E|apply ltb_irrefl].
Qed.

Lemma fmax_upper (a m q : float) :
  isnan m = false -> (m <? q)%float = false -> (fmax a m <? q)%float = false.
Proof.
  intros Hm Hq. unfold fmax. destruct (a <? m)%float eqn:E; [exact Hq|].
  destruct (a <? q)%float eqn:E'; [|reflexivity].
  destruct (ltb_neg_trans a m q Hm E'); congruence.
Qed.

Lemma fmax_self (a m : float) : (fmax a m <? a)%float = false.
Proof.
  unfold fmax. destruct (a <? m)%float eqn:E; [apply ltb_asym, E|apply ltb_irrefl].
Qed.

Lemma fmin_nan (a m : float) : isnan a = false -> isnan m = false -> isnan (fmin a m) = false.
Proof. intros. unfold fmin. destruct (m <? a)%float; assumption. Qed.

Lemma fmax_nan (a m : float) : isnan a = false -> isnan m = false -> isnan (fmax a m) = false.
Proof. intros. unfold fmax. destruct (a <? m)%float; assumption. Qed.

(** The fold of [compute] over sites without NaN coordinates, started from
    the box of the constructor. *)
Lemma bounding_box_spec (l : list Point) (s : Implementation) :
  s.(m_min_x) = infinity -> s.(m_max_x) = neg_infinity ->
  s.(m_min_y) = infinity -> s.(m_max_y) = neg_infinity ->
  Forall no_nan l ->
  let t := bounding_box l s in
  (isnan t.(m_min_x) = false /\ isnan t.(m_max_x) = false
   /\ isnan t.(m_min_y) = false /\ isnan t.(m_max_y) = false)
  /\ Forall (in_box t) l
  /\ (l <> [] ->
      (exists p, In p l /\ t.(m_min_x) = p.(x)) /\ (exists p, In p l /\ t.(m_max_x) = p.(x))
      /\ (exists p, In p l /\ t.(m_min_y) = p.(y))
      /\ (exists p, In p l /\ t.(m_max_y) = p.(y))).
Proof.
  intros E1 E2 E3 E4. induction l as [|p l IH] using rev_ind; intros Hl t.
  - subst t. simpl. rewrite E1, E2, E3, E4.
    split; [repeat split; reflexivity|].
    split; [constructor|intros H; contradiction].
  - apply Forall_app in Hl. destruct Hl as [Hl Hp].
    inversion Hp as [|? ? [Nx Ny] _]; subst.
    specialize (IH Hl). cbv zeta in IH.
    destruct IH as ((N1 & N2 & N3 & N4) & Hbox & Hatt).
    subst t. rewrite bounding_box_snoc. cbv zeta.
    set (t := bounding_box l s) in *.
    split; [|split].
    + simpl. auto using fmin_nan, fmax_nan.
    + apply Forall_app. split.
      * eapply Forall_impl; [exact Hbox|]. intros q (B1 & B2 & B3 & B4).
        unfold in_box. simpl. auto using fmin_lower, fmax_upper.
      * constructor; [|constructor]. unfold in_box. simpl.
        auto using fmin_self, fmax_self.
    + intros _. simpl.
      destruct l as [|p0 l0] using rev_ind.
      * subst t. simpl in *. rewrite E1, E2, E3, E4.
        unfold fmin, fmax. rewrite !infinity_ltb, !ltb_neg_infinity.
        repeat split; exists p; simpl; auto.
      * clear IHl0.
        destruct Hatt as ((q1 & I1 & A1) & (q2 & I2 & A2) & (q3 & I3 & A3) & (q4 & I4 & A4));
          [destruct l0; discriminate|].
        repeat split.
        -- destruct (fmin_cases (x p) (m_min_x t)) as [-> | ->];
             [exists q1|exists p]; split; auto; apply in_or_app; simpl; auto.
        -- destruct (fmax_cases (x p) (m_max_x t)) as [-> | ->];
             [exists q2|exists p]; split; auto; apply in_or_app; simpl; auto.
        -- destruct (fmin_cases (y p) (m_min_y t)) as [-> | ->];
             [exists q3|exists p]; split; auto; apply in_or_app; simpl; auto.
        -- destruct (fmax_cases (y p) (m_max_y t)) as [-> | ->];
             [exists q4|exists p]; split; auto; apply in_or_app; simpl; auto.
Qed.

Lemma compute_steps_box (points : list Point) (n : nat) :
  forall ii s,
    compute_steps n points = Ok (ii, s) ->
    same_box (bounding_box points (Implementation_for points)) s.
Proof.
  induction n as [|n IH]; intros ii s; simpl.
  - intros [= <- <-]. apply same_box_refl.
  - intros H. apply bind_Ok in H. destruct H as ([ii0 s0] & H0 & H).
    pose proof (compute_steps_effect _ _ _ _ H0) as (G0 & _).
    destruct (compute_step_effect _ _ _ _ _ _ H G0) as (_ & B & _).
    eapply same_box_trans; [apply (IH _ _ H0)|exact B].
Qed.

(** X23: For sites without NaN coordinates, the bounding box [compute] records is
    the tightest one: no site has a coordinate strictly outside it, and each
    of its four bounds is a coordinate of some site.  This holds after any
    number of iterations of the loop. *)
Theorem bounding_box_encloses (points : list Point) (n ii : nat) (s : Implementation) :
  Forall no_nan points ->
  points <> [] ->
  compute_steps n points = Ok (ii, s) ->
  Forall (in_box s) points
  /\ (exists p, In p points /\ s.(m_min_x) = p.(x))
  /\ (exists p, In p points /\ s.(m_max_x) = p.(x))
  /\ (exists p, In p points /\ s.(m_min_y) = p.(y))
  /\ (exists p, In p points /\ s.(m_max_y) = p.(y)).
Proof.
  intros Hn Hne H. apply compute_steps_box in H.
  destruct H as (B1 & B2 & B3 & B4).
  destruct (bounding_box_spec points (Implementation_for points)
              eq_refl eq_refl eq_refl eq_refl Hn) as (_ & Hbox & Hatt).
  unfold in_box. rewrite B1, B2, B3, B4. split; [exact Hbox|].
  apply Hatt, Hne.
Qed.

Lemma bounding_box_encloses_witness :
  Forall (in_box state_after_obtuse) sites_obtuse
  /\ (exists p, In p sites_obtuse /\ state_after_obtuse.(m_min_x) = p.(x))
  /\ (exists p, In p sites_obtuse /\ state_after_obtuse.(m_max_x) = p.(x))
  /\ (exists p, In p sites_obtuse /\ state_after_obtuse.(m_min_y) = p.(y))
  /\ (exists p, In p sites_obtuse /\ state_after_obtuse.(m_max_y) = p.(y)).
Proof.
  apply (bounding_box_encloses sites_obtuse 4 3 state_after_obtuse).
  - repeat constructor.
  - discriminate.
  - exact compute_steps_after_obtuse.
Defined.

(** ** The order of the sites *)



(** ** Inputs of one and of two sites *)

(** X25: A single site: [compute] returns after one iteration; the beach line is
    the two entries of the arc of the site, and there are no circle events,
    no nodes and no edges. *)
Theorem compute_one_site (p : Point) (fuel : nat) :
  exists s,
    compute (S fuel) [p] = Ok s
    /\ s.(m_beach) = [mkIntersection None (Some 0); mkIntersection (Some 0) None]
    /\ s.(m_events) = [] /\ s.(m_nodes) = ∅ /\ s.(m_node_objs) = [] /\ s.(m_edges) = [].
Proof.
  eexists. split.
  - unfold compute. cbv zeta.
    change (sort_sites [p]) with [0]. cbn.
    destruct fuel; reflexivity.
  - simpl. repeat split.
Qed.

Lemma set_insert_eq {A} (comp : A -> A -> result bool) (k : A) (l : list A) :
  set_insert comp k l
  = (u ← upper_bound comp k l;
     match u with
     | O => mret (k :: l, 0, true)
     | S j =>
         match nth_error l j with
         | None => Err UndefinedBehaviour
         | Some e =>
             b ← comp e k;
             if (b : bool) then mret (insert_at u k l, u, true) else mret (l, j, false)
         end
     end).
Proof. reflexivity. Qed.

(** The second site of a run, under the arc of the first. *)
Lemma processPoint_second (points : list Point) (a b : nat) (pa pb : Point)
    (s : Implementation) :
  s.(m_points) = points ->
  nth_error points a = Some pa -> nth_error points b = Some pb ->
  s.(m_beach) = [mkIntersection None (Some a); mkIntersection (Some a) None] ->
  (pa.(y) <? pb.(y))%float = false ->
  processPoint b s
  = if (pb.(y) <? pa.(y))%float
    then Ok (set_events s.(m_events)
               (set_beach [mkIntersection None (Some a); mkIntersection (Some a) (Some b);
                           mkIntersection (Some b) (Some a); mkIntersection (Some a) None]
                  (set_sweep_y (to_float32 pb.(y)) s)))
    else Err AssertionFailed.
Proof.
  intros Hp Ha Hb Hbeach Hab. unfold processPoint. rewrite Hp.
  cbn -[BeachCompare to_float32 set_insert lower_bound]. rewrite Hb.
  cbn -[BeachCompare to_float32 set_insert lower_bound]. rewrite Hbeach.
  rewrite lower_bound_cons_eq, BeachCompare_left_end_lt.
  cbn -[BeachCompare to_float32 set_insert lower_bound].
  rewrite lower_bound_cons_eq, BeachCompare_right_end_lt.
  cbn -[BeachCompare to_float32 set_insert upper_bound].
  rewrite set_insert_eq.
  rewrite upper_bound_cons_eq, BeachCompare_lt_left_end.
  cbn -[BeachCompare to_float32 set_insert upper_bound].
  rewrite upper_bound_cons_eq, BeachCompare_lt_right_end.
  cbn -[BeachCompare to_float32 set_insert upper_bound].
  rewrite BeachCompare_left_end_lt.
  cbn -[BeachCompare to_float32 set_insert upper_bound].
  rewrite set_insert_eq.
  rewrite upper_bound_cons_eq, BeachCompare_lt_left_end.
  cbn -[BeachCompare to_float32 set_insert upper_bound].
  rewrite upper_bound_cons_eq, (BeachCompare_swapped_eq points _ b a pb pa Hb Ha), Hab.
  cbn -[BeachCompare to_float32 set_insert upper_bound].
  rewrite upper_bound_cons_eq, BeachCompare_lt_right_end.
  cbn -[BeachCompare to_float32 set_insert upper_bound].
  rewrite (BeachCompare_swapped_eq points _ a b pa pb Ha Hb).
  destruct (pb.(y) <? pa.(y))%float; reflexivity.
Qed.

(** The first site of a run. *)
Lemma processPoint_first (points : list Point) (a : nat) (pa : Point)
    (s : Implementation) :
  s.(m_points) = points -> nth_error points a = Some pa -> s.(m_beach) = [] ->
  processPoint a s
  = Ok (set_beach [mkIntersection None (Some a); mkIntersection (Some a) None]
          (set_sweep_y (to_float32 pa.(y)) s)).
Proof.
  intros Hp Ha Hbeach. unfold processPoint. rewrite Hp.
  cbn -[BeachCompare to_float32]. rewrite Ha.
  cbn -[BeachCompare to_float32]. rewrite Hbeach.
  cbn -[to_float32]. reflexivity.
Qed.

Lemma sort_sites_two (p0 p1 : Point) :
  sort_sites [p0; p1] = if (p0.(y) <? p1.(y))%float then [1; 0] else [0; 1].
Proof. reflexivity. Qed.

Lemma nodes_nonnull_empty : nodes_nonnull ∅ = true.
Proof. reflexivity. Qed.

Lemma compute_two (p0 p1 : Point) (fuel : nat) :
  compute (S (S fuel)) [p0; p1]
  = let points := [p0; p1] in
    let s0 := bounding_box points (Implementation_for points) in
    if (p0.(y) <? p1.(y))%float then
      Ok (set_events []
            (set_beach [mkIntersection None (Some 1); mkIntersection (Some 1) (Some 0);
                        mkIntersection (Some 0) (Some 1); mkIntersection (Some 1) None]
               (set_sweep_y (to_float32 p0.(y)) s0)))
    else if (p1.(y) <? p0.(y))%float then
      Ok (set_events []
            (set_beach [mkIntersection None (Some 0); mkIntersection (Some 0) (Some 1);
                        mkIntersection (Some 1) (Some 0); mkIntersection (Some 0) None]
               (set_sweep_y (to_float32 p1.(y)) s0)))
    else Err AssertionFailed.
Proof.
  unfold compute. cbv zeta. rewrite sort_sites_two.
  destruct (p0.(y) <? p1.(y))%float eqn:E01.
  - cbn -[processPoint fmin fmax nodes_nonnull].
    erewrite (processPoint_first [p0; p1] 1 p1); [|reflexivity|reflexivity|reflexivity].
    cbn -[processPoint fmin fmax nodes_nonnull]. rewrite nodes_nonnull_empty.
    cbn -[processPoint fmin fmax nodes_nonnull].
    erewrite (processPoint_second [p0; p1] 1 0 p1 p0);
      [|reflexivity|reflexivity|reflexivity|reflexivity|apply ltb_asym, E01].
    rewrite E01. cbn -[fmin fmax nodes_nonnull]. rewrite nodes_nonnull_empty.
    cbn -[fmin fmax]. destruct fuel; reflexivity.
  - cbn -[processPoint fmin fmax nodes_nonnull].
    erewrite (processPoint_first [p0; p1] 0 p0); [|reflexivity|reflexivity|reflexivity].
    cbn -[processPoint fmin fmax nodes_nonnull]. rewrite nodes_nonnull_empty.
    cbn -[processPoint fmin fmax nodes_nonnull].
    erewrite (processPoint_second [p0; p1] 0 1 p0 p1);
      [|reflexivity|reflexivity|reflexivity|reflexivity|exact E01].
    destruct (p1.(y) <? p0.(y))%float; [|reflexivity].
    cbn -[fmin fmax nodes_nonnull]. rewrite nodes_nonnull_empty.
    cbn -[fmin fmax]. destruct fuel; reflexivity.
Qed.

(** X26: Two sites at different heights, in either order in the input:
    [compute] returns after two iterations with the beach line of the two
    arcs (the arc of the upper site, split by the arc of the lower one) and
    with no circle event, no node and no edge: the bisector of two sites is
    not part of the output. *)
Theorem compute_two_sites (p0 p1 : Point) (fuel : nat) :
  (p1.(y) <? p0.(y))%float = true ->
  (exists s,
     compute (S (S fuel)) [p0; p1] = Ok s
     /\ s.(m_beach)
        = [mkIntersection None (Some 0); mkIntersection (Some 0) (Some 1);
           mkIntersection (Some 1) (Some 0); mkIntersection (Some 0) None]
     /\ s.(m_events) = [] /\ s.(m_nodes) = ∅ /\ s.(m_node_objs) = []
     /\ s.(m_edges) = [])
  /\ (exists s,
        compute (S (S fuel)) [p1; p0] = Ok s
        /\ s.(m_beach)
           = [mkIntersection None (Some 1); mkIntersection (Some 1) (Some 0);
              mkIntersection (Some 0) (Some 1); mkIntersection (Some 1) None]
        /\ s.(m_events) = [] /\ s.(m_nodes) = ∅ /\ s.(m_node_objs) = []
        /\ s.(m_edges) = []).
Proof.
  intros H. split.
  - eexists. split.
    + rewrite compute_two. cbv zeta. rewrite (ltb_asym _ _ H), H. reflexivity.
    + repeat split.
  - eexists. split.
    + rewrite compute_two. cbv zeta. rewrite H. reflexivity.
    + repeat split.
Qed.

Lemma compute_two_sites_witness :
  (exists s,
     compute 2 [mkPoint 0 1; mkPoint 0 0] = Ok s
     /\ s.(m_beach)
        = [mkIntersection None (Some 0); mkIntersection (Some 0) (Some 1);
           mkIntersection (Some 1) (Some 0); mkIntersection (Some 0) None]
     /\ s.(m_events) = [] /\ s.(m_nodes) = ∅ /\ s.(m_node_objs) = []
     /\ s.(m_edges) = [])
  /\ (exists s,
        compute 2 [mkPoint 0 0; mkPoint 0 1] = Ok s
        /\ s.(m_beach)
           = [mkIntersection None (Some 1); mkIntersection (Some 1) (Some 0);
              mkIntersection (Some 0) (Some 1); mkIntersection (Some 1) None]
        /\ s.(m_events) = [] /\ s.(m_nodes) = ∅ /\ s.(m_node_objs) = []
        /\ s.(m_edges) = []).
Proof. exact (compute_two_sites (mkPoint 0 1) (mkPoint 0 0) 0 eq_refl). Defined.

(** X27: Two sites neither of which is strictly below the other (equal
    ordinates, or a NaN ordinate): [compute] does not return a state, a
    failing assertion stops the run. *)
Theorem compute_two_level_sites (p0 p1 : Point) (fuel : nat) :
  (p1.(y) <? p0.(y))%float = false ->
  (p0.(y) <? p1.(y))%float = false ->
  compute (S (S fuel)) [p0; p1] = Err AssertionFailed.
Proof.
  intros H1 H2. rewrite compute_two. cbv zeta. rewrite H1, H2. reflexivity.
Qed.

Lemma compute_two_level_sites_witness :
  compute 2 [mkPoint 0 0; mkPoint 1 0] = Err AssertionFailed.
Proof. exact (compute_two_level_sites (mkPoint 0 0) (mkPoint 1 0) 0 eq_refl eq_refl). Defined.

(** ** The interned nodes *)

Lemma nodes_bijective_insert (s : Implementation) (k : ptr * ptr * ptr) (o : Node.t) :
  nodes_bijective s -> s.(m_nodes) !! k = None ->
  nodes_bijective
    (set_nodes (<[k := Some (length s.(m_node_objs))]> s.(m_nodes))
       (s.(m_node_objs) ++ [o]) s).
Proof.
  intros (B1 & B2 & B3) Hk. unfold nodes_bijective. simpl. rewrite length_app. simpl.
  split; [|split].
  - intros k0 v. destruct (decide (k = k0)) as [->|N].
    + rewrite lookup_insert_eq. intros [= <-]. eexists. split; [reflexivity|lia].
    + rewrite lookup_insert_ne by exact N. intros L.
      destruct (B1 _ _ L) as (n & -> & Hn). exists n. split; [reflexivity|lia].
  - intros k1 k2 n.
    destruct (decide (k = k1)) as [<-|N1], (decide (k = k2)) as [<-|N2];
      rewrite ?lookup_insert_eq, ?lookup_insert_ne by assumption.
    + reflexivity.
    + intros [= <-] L. destruct (B1 _ _ L) as (n & [= <-] & Hn). lia.
    + intros L [= <-]. destruct (B1 _ _ L) as (n & [= <-] & Hn). lia.
    + apply B2.
  - intros n Hn.
    destruct (Nat.eq_dec n (length (m_node_objs s))) as [->|N].
    + exists k. apply lookup_insert_eq.
    + destruct (B3 n) as [k0 L]; [lia|].
      exists k0. rewrite lookup_insert_ne; [exact L|]. intros <-. congruence.
Qed.

Lemma getNode3_bijective (a b c : ptr) (s s1 : Implementation) (n : nat) :
  getNode3 a b c s = Ok (n, s1) -> nodes_bijective s -> nodes_bijective s1.
Proof.
  unfold getNode3. destruct (orderPoints (a, b, c)) as [[a' b'] c'].
  destruct (m_nodes s !! (a', b', c')) as [[m|]|] eqn:L.
  - intros [= <- <-]. auto.
  - discriminate.
  - intros E B. repeat (apply bind_Ok in E; destruct E as (? & _ & E)).
    injection E as <- <-. apply nodes_bijective_insert; assumption.
Qed.

Lemma getNode2_bijective (a b : ptr) (s s1 : Implementation) (n : nat) :
  getNode2 a b s = Ok (n, s1) -> nodes_bijective s -> nodes_bijective s1.
Proof.
  unfold getNode2. destruct (if ptr_gtb a b then (b, a) else (a, b)) as [a' b'].
  destruct (m_nodes s !! (a', b', None)) as [[m|]|] eqn:L.
  - intros [= <- <-]. auto.
  - discriminate.
  - intros E B. repeat (apply bind_Ok in E; destruct E as (? & _ & E)).
    injection E as <- <-. apply nodes_bijective_insert; assumption.
Qed.

Lemma nodes_bijective_same (s s1 : Implementation) :
  nodes_bijective s -> s1.(m_nodes) = s.(m_nodes) ->
  length s1.(m_node_objs) = length s.(m_node_objs) -> nodes_bijective s1.
Proof. unfold nodes_bijective. intros B -> ->. exact B. Qed.

Lemma processEvent_graph_bijective (event : CircleEvent) (s s' : Implementation) :
  processEvent_graph event s = Ok s' -> nodes_bijective s -> nodes_bijective s'.
Proof.
  unfold processEvent_graph. cbv zeta. intros H B.
  apply bind_Ok in H. destruct H as (? & _ & H).
  apply bind_Ok in H. destruct H as ([n0 s0] & H0 & H).
  apply bind_Ok in H. destruct H as ([n1 s1] & H1 & H).
  apply bind_Ok in H. destruct H as ([n2 s2] & H2 & H).
  apply bind_Ok in H. destruct H as ([n3 s3] & H3 & H).
  apply bind_Ok in H. destruct H as (? & _ & H).
  apply bind_Ok in H. destruct H as (pa & _ & H).
  apply bind_Ok in H. destruct H as (pb & _ & H).
  apply bind_Ok in H. destruct H as (pc & _ & H).
  apply getNode3_bijective in H0; [|exact B].
  apply getNode2_bijective in H1; [|exact H0].
  apply getNode2_bijective in H2; [|exact H1].
  apply getNode2_bijective in H3; [|exact H2].
  assert (forall c a b d, addTriplet c a b d s3 = Ok s' -> nodes_bijective s') as HT.
  { intros c a b d T. destruct (addTriplet_frame _ _ _ _ _ _ T) as (_ & N & L).
    apply (nodes_bijective_same s3); assumption. }
  repeat match type of H with
    | (if ?c then _ else _) = Ok _ => destruct c
    end; eapply HT; exact H.
Qed.

Lemma compute_step_bijective (points : list Point) (ordered : list nat) (ii ii' : nat)
    (s s' : Implementation) :
  compute_step points ordered ii s = Ok (ii', s') ->
  nodes_bijective s -> nodes_bijective s'.
Proof.
  unfold compute_step. intros H B.
  apply bind_Ok in H. destruct H as (next & _ & H).
  apply bind_Ok in H. destruct H as ([ii1 s1] & H1 & H).
  apply bind_Ok in H. destruct H as (? & _ & H). injection H as <- <-.
  destruct next as [i|evt].
  - apply bind_Ok in H1. destruct H1 as (s2 & H2 & H1). injection H1 as <- <-.
    apply processPoint_effect in H2. destruct H2 as ((En & Eo & _) & _).
    eapply nodes_bijective_same; [exact B|exact En|rewrite Eo; reflexivity].
  - apply bind_Ok in H1. destruct H1 as (s2 & H2 & H1). injection H1 as <- <-.
    unfold processEvent in H2.
    apply bind_Ok in H2. destruct H2 as (s3 & H3 & H2).
    apply processEvent_beach_effect in H3. destruct H3 as ((En & Eo & _) & _).
    simpl in En, Eo.
    eapply processEvent_graph_bijective; [exact H2|].
    eapply nodes_bijective_same; [exact B|exact En|rewrite Eo; reflexivity].
Qed.

Lemma compute_steps_bijective (points : list Point) (n : nat) :
  forall ii s, compute_steps n points = Ok (ii, s) -> nodes_bijective s.
Proof.
  induction n as [|n IH]; intros ii s; simpl.
  - intros [= <- <-].
    match goal with |- nodes_bijective (bounding_box points ?s0) =>
      destruct (bounding_box_frame points s0) as (_ & En & Eo & _);
      apply (nodes_bijective_same s0); [|exact En|rewrite Eo; reflexivity]
    end.
    split; [|split]; simpl.
    + intros k v. rewrite lookup_empty. discriminate.
    + intros k k' m. rewrite lookup_empty. discriminate.
    + intros m Hm. lia.
  - intros H. apply bind_Ok in H. destruct H as ([ii0 s0] & H0 & H).
    eapply compute_step_bijective; [exact H|]. eapply IH; exact H0.
Qed.

(** X19: After any number of iterations of the loop of [compute], interning is
    one to one: every key of the map has a node of the store (never a null
    pointer), two different keys never share a node, and every node of the
    store is the node of some key. *)
Theorem nodes_interned_once (points : list Point) (n ii : nat) (s : Implementation) :
  compute_steps n points = Ok (ii, s) -> nodes_bijective s.
Proof. apply compute_steps_bijective. Qed.

Lemma nodes_interned_once_witness : nodes_bijective state_after_obtuse.
Proof.
  exact (nodes_interned_once sites_obtuse 4 3 state_after_obtuse compute_steps_after_obtuse).
Defined.

Lemma collect_nodes_Ok (l : list ((ptr * ptr * ptr) * option nat)) :
  Forall (fun kv => exists n, kv.2 = Some n) l ->
  exists nodes, collect_nodes l = Ok nodes /\ map Some nodes = map snd l.
Proof.
  induction 1 as [|[k v] l (n & E) F IH]; simpl.
  - exists []. auto.
  - simpl in E. subst v. simpl. destruct IH as (nodes & -> & M). simpl.
    exists (n :: nodes). simpl. rewrite M. auto.
Qed.

(** X29: The constructor lists every node of the store exactly once: the node
    pointers it copies out of the map are, in some order, the nodes of the
    store. *)
Theorem Voronoi_nodes_listed_once (fuel : nat) (points : list Point) (v : Voronoi) :
  Voronoi_new fuel points = Ok v ->
  v.(V_nodes) ≡ₚ seq 0 (length v.(V_node_objs)).
Proof.
  unfold Voronoi_new. intros H.
  apply bind_Ok in H. destruct H as (impl & Hc & H).
  apply bind_Ok in H. destruct H as (nodes & Hn & H).
  apply bind_Ok in H. destruct H as (edges & He & H). injection H as <-. simpl.
  apply compute_Ok_steps in Hc. destruct Hc as (n & Hsteps & _).
  apply compute_steps_bijective in Hsteps. destruct Hsteps as (B1 & B2 & B3).
  destruct (collect_nodes_Ok (map_to_list (m_nodes impl))) as (nodes' & Hn' & M).
  { apply Forall_forall. intros [k v] Hkv. apply elem_of_map_to_list in Hkv.
    destruct (B1 _ _ Hkv) as (m & -> & _). simpl. eauto. }
  assert (nodes' = nodes) by congruence. subst nodes'. clear Hn'.
  assert (forall m, m ∈ nodes <-> exists k, m_nodes impl !! k = Some (Some m)) as Hin.
  { intros m. split.
    - intros Hm. assert (Some m ∈ map Some nodes) as Hm'
        by (apply list_elem_of_fmap; eauto).
      rewrite M in Hm'. apply list_elem_of_fmap in Hm'.
      destruct Hm' as ([k v] & E & Hkv). simpl in E. subst v.
      exists k. apply elem_of_map_to_list, Hkv.
    - intros (k & L). apply elem_of_map_to_list in L.
      assert (Some m ∈ map snd (map_to_list (m_nodes impl))) as Hm'
        by (apply list_elem_of_fmap; exists (k, Some m); auto).
      rewrite <- M in Hm'. apply list_elem_of_fmap in Hm'.
      destruct Hm' as (m' & [= <-] & Hm'). exact Hm'. }
  apply NoDup_Permutation.
  - assert (NoDup (map Some nodes)) as ND.
    { rewrite M. apply NoDup_fmap_2_strong; [|apply NoDup_map_to_list].
      intros [k1 v1] [k2 v2] H1 H2 E. simpl in E. subst v2.
      apply elem_of_map_to_list in H1, H2.
      destruct (B1 _ _ H1) as (m & -> & _). f_equal. eapply B2; eassumption. }
    eapply NoDup_fmap_1; exact ND.
  - apply NoDup_ListNoDup, seq_NoDup.
  - intros m. rewrite Hin. rewrite list_elem_of_In, in_seq. split.
    + intros (k & L). destruct (B1 _ _ L) as (m' & [= <-] & Hm). lia.
    + intros [_ Hm]. apply B3. simpl in Hm. exact Hm.
Qed.

Lemma Voronoi_nodes_listed_once_witness :
  diagram_obtuse.(V_nodes) ≡ₚ seq 0 (length diagram_obtuse.(V_node_objs)).
Proof. exact (Voronoi_nodes_listed_once 4 sites_obtuse diagram_obtuse Voronoi_obtuse). Defined.

Lemma fill_edge_neighbors_returns (impl : Implementation) (es : list Edge.t) (e : nat) :
  Forall (fun edge => (Edge.nodes edge).1 < length impl.(m_node_objs)
                      /\ (Edge.nodes edge).2 < length impl.(m_node_objs)) es ->
  exists es', fill_edge_neighbors impl e es = Ok es'.
Proof.
  intros H. revert e. induction H as [|edge es [H1 H2] F IH]; intros e; simpl.
  - eauto.
  - unfold edge_with_neighbors.
    destruct (node_obj_valid _ _ H1) as [o1 ->], (node_obj_valid _ _ H2) as [o2 ->].
    simpl. destruct (IH (S e)) as [es' ->]. simpl. eauto.
Qed.

(** X28: The constructor adds no failure of its own: whenever [compute] returns,
    the assertion of the first loop holds for every entry of the map, the
    second loop finds both ends of every edge, and the diagram is returned
    with the node objects, the ends and the parents of the edges as
    [compute] left them. *)
Theorem Voronoi_new_returns (fuel : nat) (points : list Point) (impl : Implementation) :
  compute fuel points = Ok impl ->
  exists v,
    Voronoi_new fuel points = Ok v
    /\ v.(V_node_objs) = impl.(m_node_objs)
    /\ map Edge.nodes v.(V_edges) = map Edge.nodes impl.(m_edges)
    /\ map Edge.parents v.(V_edges) = map Edge.parents impl.(m_edges).
Proof.
  intros Hc. unfold Voronoi_new. rewrite Hc. simpl.
  destruct (compute_Ok_steps _ _ _ Hc) as (n & Hsteps & _).
  pose proof (compute_steps_bijective _ _ _ _ Hsteps) as (B1 & _ & _).
  pose proof (compute_steps_effect _ _ _ _ Hsteps) as ((G1 & _) & _).
  destruct (collect_nodes_Ok (map_to_list (m_nodes impl))) as (nodes & -> & _).
  { apply Forall_forall. intros [k v] Hkv. apply elem_of_map_to_list in Hkv.
    destruct (B1 _ _ Hkv) as (m & -> & _). simpl. eauto. }
  simpl.
  destruct (fill_edge_neighbors_returns impl (m_edges impl) 0) as [es' He].
  { apply Forall_forall. intros edge Hin.
    apply list_elem_of_In, In_nth_error in Hin. destruct Hin as [e E].
    apply (G1 e). exists edge. split; [exact E|]. left.
    destruct (Edge.nodes edge); reflexivity. }
  rewrite He. simpl. eexists. split; [reflexivity|]. simpl. split; [reflexivity|].
  apply fill_edge_neighbors_Ok in He. destruct He as [Hlen Hed].
  split.
  - apply nth_error_ext. intros i. rewrite !nth_error_map.
    destruct (nth_error es' i) as [e'|] eqn:E'.
    + destruct (Hed _ _ E') as (e0 & E0 & Hn & _). rewrite E0. simpl. congruence.
    + apply nth_error_None in E'. rewrite Hlen in E'. apply nth_error_None in E'.
      rewrite E'. reflexivity.
  - apply nth_error_ext. intros i. rewrite !nth_error_map.
    destruct (nth_error es' i) as [e'|] eqn:E'.
    + destruct (Hed _ _ E') as (e0 & E0 & _ & Hp & _). rewrite E0. simpl. congruence.
    + apply nth_error_None in E'. rewrite Hlen in E'. apply nth_error_None in E'.
      rewrite E'. reflexivity.
Qed.

Lemma Voronoi_new_returns_witness :
  exists v,
    Voronoi_new 4 sites_obtuse = Ok v
    /\ v.(V_node_objs) = state_after_obtuse.(m_node_objs)
    /\ map Edge.nodes v.(V_edges) = map Edge.nodes state_after_obtuse.(m_edges)
    /\ map Edge.parents v.(V_edges) = map Edge.parents state_after_obtuse.(m_edges).
Proof. exact (Voronoi_new_returns 4 sites_obtuse state_after_obtuse compute_obtuse). Defined.

(** ** Edges are only appended *)

Lemma compute_steps_edges_prefix (points : list Point) (n : nat) (ii : nat)
    (s : Implementation) (k : nat) :
  compute_steps n points = Ok (ii, s) ->
  forall ii' s',
    compute_steps (k + n) points = Ok (ii', s') ->
    firstn (length s.(m_edges)) s'.(m_edges) = s.(m_edges)
    /\ length s.(m_node_objs) <= length s'.(m_node_objs).
Proof.
  intros H0. induction k as [|k IH]; intros ii' s'; simpl.
  - rewrite H0. intros [= <- <-]. split; [apply firstn_all|lia].
  - intros H. apply bind_Ok in H. destruct H as ([ii1 s1] & H1 & H).
    destruct (IH _ _ H1) as [P L].
    pose proof (compute_steps_effect _ _ _ _ H1) as (G1 & _).
    destruct (compute_step_effect _ _ _ _ _ _ H G1) as (_ & _ & [C|C]).
    + destruct C as (_ & _ & (_ & Eo & Ee)). rewrite Ee, Eo. auto.
    + destruct C as (_ & _ & Le & Pe & Lo). split; [|lia].
      assert (length (m_edges s) <= length (m_edges s1)) as Hle
        by (rewrite <- P, length_take; lia).
      transitivity (take (length (m_edges s)) (take (length (m_edges s1)) (m_edges s'))).
      * rewrite take_take. f_equal. lia.
      * rewrite Pe. exact P.
Qed.

(** X20: Edges and nodes are only ever appended: the edges of the state after
    some iterations are a prefix of the edges of every later state of the
    run, so the position of an edge, its ends and its parents never change,
    and the store of nodes never shrinks. *)
Theorem edges_only_appended (points : list Point) (n k ii ii' : nat)
    (s s' : Implementation) :
  compute_steps n points = Ok (ii, s) ->
  compute_steps (k + n) points = Ok (ii', s') ->
  firstn (length s.(m_edges)) s'.(m_edges) = s.(m_edges)
  /\ length s.(m_node_objs) <= length s'.(m_node_objs).
Proof. intros H0 H. eapply compute_steps_edges_prefix; eassumption. Qed.

Lemma edges_only_appended_witness :
  firstn (length state_obtuse_sites.(m_edges)) state_after_obtuse.(m_edges)
  = state_obtuse_sites.(m_edges)
  /\ length state_obtuse_sites.(m_node_objs) <= length state_after_obtuse.(m_node_objs).
Proof.
  exact (edges_only_appended sites_obtuse 3 1 3 3 state_obtuse_sites state_after_obtuse
           compute_steps_obtuse compute_steps_after_obtuse).
Defined.

(** ** What the two kinds of events do to the beach line *)

Lemma beach_at_Ok (l : list Intersection) (i : nat) (e : Intersection) :
  beach_at l i = Ok e -> nth_error l i = Some e.
Proof. unfold beach_at. destruct (nth_error l i); [intros [= <-]; reflexivity|discriminate]. Qed.



Lemma processEvent_beach_Ok (event : CircleEvent) (s s' : Implementation) :
  processEvent_beach event s = Ok s' ->
  exists i pos ln rn,
    i <> 0
    /\ nth_error s.(m_beach) (i - 1) = Some ln
    /\ nth_error s.(m_beach) i = Some event.(left_int)
    /\ nth_error s.(m_beach) (i + 1) = Some event.(right_int)
    /\ nth_error s.(m_beach) (i + 2) = Some rn
    /\ event.(left_int).(pt_right) = event.(right_int).(pt_left)
    /\ ln.(pt_right) = event.(left_int).(pt_left)
    /\ rn.(pt_left) = event.(right_int).(pt_right)
    /\ s'.(m_beach)
       = insert_at pos
           (mkIntersection event.(left_int).(pt_left) event.(right_int).(pt_right))
           (erase_at i (erase_at i s.(m_beach)))
    /\ s'.(sweep_y) = to_float32 (event_key event.(circle)).
Proof.
  unfold processEvent_beach. cbv zeta. intros H.
  apply bind_Ok in H. destruct H as (? & A0 & H). apply assert_Ok, ptr_eqb_eq in A0.
  do 2 (apply bind_Ok in H; destruct H as (? & _ & H)).
  apply bind_Ok in H. destruct H as (it & _ & H).
  destruct it as [i|]; [|discriminate].
  apply bind_Ok in H. destruct H as (? & A1 & H).
  apply assert_Ok, negb_true_iff, Nat.eqb_neq in A1.
  apply bind_Ok in H. destruct H as (ln & Hln & H).
  apply bind_Ok in H. destruct H as (left_it & Hli & H).
  apply bind_Ok in H. destruct H as (? & E1 & H). apply assert_Ok in E1.
  apply bind_Ok in H. destruct H as (? & E2 & H). apply assert_Ok in E2.
  apply bind_Ok in H. destruct H as (right_it & Hri & H).
  apply bind_Ok in H. destruct H as (? & E3 & H). apply assert_Ok in E3.
  apply bind_Ok in H. destruct H as (? & E4 & H). apply assert_Ok in E4.
  apply bind_Ok in H. destruct H as (rn & Hrn & H).
  apply bind_Ok in H. destruct H as (? & E5 & H). apply assert_Ok, ptr_eqb_eq in E5.
  apply bind_Ok in H. destruct H as (? & E6 & H). apply assert_Ok, ptr_eqb_eq in E6.
  apply bind_Ok in H. destruct H as (q1 & _ & H).
  apply bind_Ok in H. destruct H as (q2 & _ & H).
  apply bind_Ok in H. destruct H as ([[b1 p1] c1] & H1 & H).
  apply bind_Ok in H. destruct H as (u1 & A2 & H). apply assert_Ok in A2. subst c1.
  apply bind_Ok in H. destruct H as (q3 & _ & H).
  apply bind_Ok in H. destruct H as (q4 & _ & H).
  injection H as <-. simpl.
  pose proof (Intersection_eta _ _ E1 E2) as ->.
  pose proof (Intersection_eta _ _ E3 E4) as ->.
  apply set_insert_cases in H1. destruct H1 as [[? _]|(_ & _ & ->)]; [discriminate|].
  exists i, p1, ln, rn. repeat split; auto using beach_at_Ok.
Qed.

(** X22: A returning circle event found its two breakpoints as neighbouring
    entries of the beach line, neither at an end, between a left neighbour
    that ends in the left site of the event and a right neighbour that starts
    with its right site.  It removes the two breakpoints, inserts the
    breakpoint of the two outer sites, and sets the sweep position to the
    key of the event, narrowed to binary32. *)
Theorem processEvent_removes_arc (event : CircleEvent) (s s' : Implementation) :
  processEvent event s = Ok s' ->
  exists i pos ln rn,
    i <> 0
    /\ nth_error s.(m_beach) (i - 1) = Some ln
    /\ nth_error s.(m_beach) i = Some event.(left_int)
    /\ nth_error s.(m_beach) (i + 1) = Some event.(right_int)
    /\ nth_error s.(m_beach) (i + 2) = Some rn
    /\ event.(left_int).(pt_right) = event.(right_int).(pt_left)
    /\ ln.(pt_right) = event.(left_int).(pt_left)
    /\ rn.(pt_left) = event.(right_int).(pt_right)
    /\ s'.(m_beach)
       = insert_at pos
           (mkIntersection event.(left_int).(pt_left) event.(right_int).(pt_right))
           (erase_at i (erase_at i s.(m_beach)))
    /\ s'.(sweep_y) = to_float32 (event_key event.(circle)).
Proof.
  unfold processEvent. intros H.
  apply bind_Ok in H. destruct H as (s1 & H1 & H).
  apply processEvent_beach_Ok in H1.
  destruct H1 as (i & pos & ln & rn & H1).
  exists i, pos, ln, rn.
  assert (same_sweep s1 s') as (Es & Eb & _).
  { unfold processEvent_graph in H. cbv zeta in H.
    apply bind_Ok in H. destruct H as (? & _ & H).
    apply bind_Ok in H. destruct H as ([n0 t0] & H0 & H).
    apply bind_Ok in H. destruct H as ([n1 t1] & H1' & H).
    apply bind_Ok in H. destruct H as ([n2 t2] & H2 & H).
    apply bind_Ok in H. destruct H as ([n3 t3] & H3 & H).
    apply bind_Ok in H. destruct H as (? & _ & H).
    apply bind_Ok in H. destruct H as (pa & _ & H).
    apply bind_Ok in H. destruct H as (pb & _ & H).
    apply bind_Ok in H. destruct H as (pc & _ & H).
    apply getNode3_same_sweep in H0. apply getNode2_same_sweep in H1', H2, H3.
    assert (same_sweep s1 t3) as F by eauto using same_sweep_trans.
    assert (forall c a b d, addTriplet c a b d t3 = Ok s' -> same_sweep s1 s') as HT.
    { intros c a b d T. destruct (addTriplet_frame _ _ _ _ _ _ T) as (F' & _).
      eapply same_sweep_trans; eassumption. }
    repeat match type of H with
      | (if ?c then _ else _) = Ok _ => destruct c
      end; eapply HT; exact H. }
  rewrite Es, Eb. exact H1.
Qed.

Lemma processEvent_removes_arc_witness :
  exists i pos ln rn,
    i <> 0
    /\ nth_error state_obtuse_popped.(m_beach) (i - 1) = Some ln
    /\ nth_error state_obtuse_popped.(m_beach) i = Some event_obtuse.(left_int)
    /\ nth_error state_obtuse_popped.(m_beach) (i + 1) = Some event_obtuse.(right_int)
    /\ nth_error state_obtuse_popped.(m_beach) (i + 2) = Some rn
    /\ event_obtuse.(left_int).(pt_right) = event_obtuse.(right_int).(pt_left)
    /\ ln.(pt_right) = event_obtuse.(left_int).(pt_left)
    /\ rn.(pt_left) = event_obtuse.(right_int).(pt_right)
    /\ state_after_obtuse.(m_beach)
       = insert_at pos
           (mkIntersection event_obtuse.(left_int).(pt_left)
              event_obtuse.(right_int).(pt_right))
           (erase_at i (erase_at i state_obtuse_popped.(m_beach)))
    /\ state_after_obtuse.(sweep_y) = to_float32 (event_key event_obtuse.(circle)).
Proof.
  apply (processEvent_removes_arc event_obtuse state_obtuse_popped state_after_obtuse).
  vm_compute. reflexivity.
Defined.

(** ** The order of the beach line is asymmetric *)

Lemma BeachCompare_asym (points : list Point) (sweep : float) (a b : Intersection) :
  has_site a = true -> has_site b = true ->
  BeachCompare points sweep a b = Ok true ->
  BeachCompare points sweep b a = Ok false
  \/ exists f, BeachCompare points sweep b a = Err f.
Proof.
  destruct a as [[al|] [ar|]], b as [[bl|] [br|]]; unfold BeachCompare, has_site;
    cbn -[getIntersection getSign deref Nat.eqb];
    try discriminate; auto.
  intros _ _.
  rewrite (Nat.eqb_sym bl al), (Nat.eqb_sym br ar), (Nat.eqb_sym br al),
    (Nat.eqb_sym bl ar).
  destruct (al =? bl), (ar =? br), (ar =? bl), (al =? br), (al =? ar), (bl =? br);
    cbn -[getIntersection getSign deref]; try discriminate; auto.
  all: repeat (match goal with
               | |- context [getSign ?p ?i] => destruct (getSign p i)
               | |- context [getIntersection ?p ?s ?i] =>
                   destruct (getIntersection p s i)
               | |- context [nth_error ?p ?i] => destruct (nth_error p i)
               end; cbn -[getIntersection getSign]);
       try discriminate; eauto.
  all: intros [= H]; left; f_equal; apply ltb_asym, H.
Qed.

(** X6: The beach-line comparator never orders two intersections both ways:
    for intersections that name at least one site each, if [a] is before
    [b] then the comparison of [b] with [a] returns false or is stopped by
    an assertion.  (The value of the default constructor, with two null
    pointers, is excluded: it compares before and after every intersection
    with two sites.) *)
Theorem BeachCompare_asymmetric (points : list Point) (sweep : float)
    (a b : Intersection) :
  has_site a = true -> has_site b = true ->
  BeachCompare points sweep a b = Ok true ->
  BeachCompare points sweep b a = Ok false
  \/ exists f, BeachCompare points sweep b a = Err f.
Proof. apply BeachCompare_asym. Qed.

Lemma BeachCompare_asymmetric_witness :
  BeachCompare sites_obtuse 0 (mkIntersection (Some 0) (Some 1))
    (mkIntersection (Some 1) (Some 0)) = Ok false
  \/ exists f,
       BeachCompare sites_obtuse 0 (mkIntersection (Some 0) (Some 1))
         (mkIntersection (Some 1) (Some 0)) = Err f.
Proof.
  apply (BeachCompare_asymmetric sites_obtuse 0 (mkIntersection (Some 1) (Some 0))
           (mkIntersection (Some 0) (Some 1))); reflexivity.
Defined.

(** The default intersection is before and after an intersection with two
    sites. *)
Lemma BeachCompare_default_both_ways (points : list Point) (sweep : float) (l r : nat) :
  BeachCompare points sweep (mkIntersection None None) (mkIntersection (Some l) (Some r))
  = Ok true
  /\ BeachCompare points sweep (mkIntersection (Some l) (Some r)) (mkIntersection None None)
     = Ok true.
Proof. split; reflexivity. Qed.
